(** * The hash table of the cache (assoc.c): a shallow embedding

    The table of assoc.c is a pair of bucket arrays ([primary_hashtable] and,
    while a resize is in progress, [old_hashtable]) whose slots head singly
    linked chains of items threaded through the [h_next] field.  Items live
    in a heap that the table does not own; the bucket arrays are blocks
    obtained from [calloc].  Both stores are modelled as finite maps from
    addresses, and the C functions become functions on a record of the
    file-level variables together with the two stores.  A function returns
    [None] where the C code has no defined result (a null or dangling
    dereference, an access outside a block, a walk that never ends). *)

From Stdlib Require Import ZArith Lia Ascii String.
From Stdlib.Strings Require Byte.
From stdpp Require Import gmap list strings.

Local Open Scope Z_scope.

(** ** Machine integers *)

Definition u32 (z : Z) : Z := z mod 2 ^ 32.
Definition u64 (z : Z) : Z := z mod 2 ^ 64.

(** [#define hashsize(n) ((uint64_t)1<<(n))] and
    [#define hashmask(n) (hashsize(n)-1)], on 64-bit unsigned integers. *)
Definition hashsize (n : Z) : Z := u64 (Z.shiftl 1 n).
Definition hashmask (n : Z) : Z := u64 (hashsize n - 1).

(** ** Items and the two stores *)

(** Addresses; the null pointer is 0. *)
Abbreviation ptr := Z (only parsing).
Definition NULL : ptr := 0.

Definition byte := Byte.byte.

#[global] Instance byte_eq_dec : EqDecision byte := Byte.byte_eq_dec.

(** Modelled from the spec: the entry type [item] and the macro [ITEM_key]
    are declared in memcached.h, which is not part of these sources.  Of an
    entry assoc.c depends on the key length, the key bytes ([ITEM_key(it)])
    and the mutable link to the next entry of its chain. *)
Record item := Item {
  nkey : Z;
  ITEM_key : list byte;
  h_next : ptr
}.

#[global] Instance item_eq_dec : EqDecision item.
Proof. solve_decision. Defined.

Definition set_h_next (v : ptr) (i : item) : item :=
  {| nkey := nkey i; ITEM_key := ITEM_key i; h_next := v |}.

(** The file-level variables of assoc.c, the blocks of bucket slots handed
    out by [calloc] and the heap of items. *)
Record table := Table {
  hashpower : Z;
  primary_hashtable : ptr;
  old_hashtable : ptr;
  expanding : bool;
  expand_bucket : Z;
  arrays : gmap Z (list ptr);
  items : gmap Z item
}.

Definition set_arrays (a : gmap Z (list ptr)) (s : table) : table :=
  {| hashpower := hashpower s; primary_hashtable := primary_hashtable s;
     old_hashtable := old_hashtable s; expanding := expanding s;
     expand_bucket := expand_bucket s; arrays := a; items := items s |}.

Definition set_items (h : gmap Z item) (s : table) : table :=
  {| hashpower := hashpower s; primary_hashtable := primary_hashtable s;
     old_hashtable := old_hashtable s; expanding := expanding s;
     expand_bucket := expand_bucket s; arrays := arrays s; items := h |}.

(** An [item **]: the address of a bucket slot or of an item's [h_next]. *)
Inductive lvalue :=
  | Bucket (a : ptr) (i : Z)
  | HNext (it : ptr).

Definition arr_load (s : table) (a : ptr) (i : Z) : option ptr :=
  l ← arrays s !! a; l !! Z.to_nat i.

Definition load (s : table) (pos : lvalue) : option ptr :=
  match pos with
  | Bucket a i => arr_load s a i
  | HNext it => h_next <$> items s !! it
  end.

Definition store (s : table) (pos : lvalue) (v : ptr) : option table :=
  match pos with
  | Bucket a i =>
      l ← arrays s !! a;
      if decide (Z.to_nat i < length l)%nat
      then Some (set_arrays (<[a := <[Z.to_nat i := v]> l]> (arrays s)) s)
      else None
  | HNext it =>
      i ← items s !! it;
      Some (set_items (<[it := set_h_next v i]> (items s)) s)
  end.

(** ** assoc_init *)

(** The file-level variables before [assoc_init], over a heap of items.
    [HASHPOWER_DEFAULT] is a constant of memcached.h. *)
Definition boot (HASHPOWER_DEFAULT : Z) (h : gmap Z item) : table :=
  {| hashpower := HASHPOWER_DEFAULT; primary_hashtable := NULL;
     old_hashtable := NULL; expanding := false; expand_bucket := 0;
     arrays := ∅; items := h |}.

(** [res] is what [calloc] returns for the array; when it is null the
    process exits and there is no table.  The statistics are not part of the
    table. *)
Definition assoc_init (hashtable_init : Z) (res : ptr) (s : table)
    : option table :=
  let hp := if decide (hashtable_init ≠ 0) then u32 hashtable_init
            else hashpower s in
  if decide (res = NULL) then None
  else Some {| hashpower := hp; primary_hashtable := res;
               old_hashtable := old_hashtable s; expanding := expanding s;
               expand_bucket := expand_bucket s;
               arrays := <[res := replicate (Z.to_nat (hashsize hp)) NULL]>
                           (arrays s);
               items := items s |}.

(** ** Key comparison *)

(** [memcmp(a, b, n) == 0]: the first [n] bytes agree. *)
Definition memcmp_eq (a b : list byte) (n : Z) : bool :=
  bool_decide (take (Z.to_nat n) a = take (Z.to_nat n) b).

(** [(nkey == it->nkey) && (memcmp(key, ITEM_key(it), nkey) == 0)] *)
Definition key_matches (key : list byte) (n : Z) (i : item) : bool :=
  (n =? nkey i) && memcmp_eq key (ITEM_key i) n.

(** ** assoc_find *)

(** The [while (it)] loop of [assoc_find].  One unit of fuel is one
    evaluation of the loop condition. *)
Fixpoint find_loop (fuel : nat) (h : gmap Z item) (key : list byte) (n : Z)
    (it : ptr) : option ptr :=
  match fuel with
  | O => None
  | S fuel' =>
      if decide (it = NULL) then Some NULL
      else
        i ← h !! it;
        if key_matches key n i then Some it
        else find_loop fuel' h key n (h_next i)
  end.

(** A chain that ends has no repeated item, so it is no longer than the heap
    has items: this much fuel is enough for every walk along a chain that
    ends. *)
Definition walk_fuel (s : table) : nat := S (size (items s)).

(** [oldbucket] is an [unsigned int] in this function. *)
Definition assoc_find (s : table) (key : list byte) (n : Z) (hv : Z)
    : option ptr :=
  let oldbucket := u32 (Z.land hv (hashmask (u32 (hashpower s - 1)))) in
  it ← (if expanding s && (expand_bucket s <=? oldbucket)
        then arr_load s (old_hashtable s) oldbucket
        else arr_load s (primary_hashtable s)
               (Z.land hv (hashmask (hashpower s))));
  find_loop (walk_fuel s) (items s) key n it.

(** ** _hashitem_before *)

Fixpoint before_loop (fuel : nat) (s : table) (key : list byte) (n : Z)
    (pos : lvalue) : option lvalue :=
  match fuel with
  | O => None
  | S fuel' =>
      p ← load s pos;
      if decide (p = NULL) then Some pos
      else
        i ← items s !! p;
        if negb (n =? nkey i) || negb (memcmp_eq key (ITEM_key i) n)
        then before_loop fuel' s key n (HNext p)
        else Some pos
  end.

Definition _hashitem_before (s : table) (key : list byte) (n : Z) (hv : Z)
    : option lvalue :=
  let oldbucket := Z.land hv (hashmask (u32 (hashpower s - 1))) in
  let pos :=
    if expanding s && (expand_bucket s <=? oldbucket)
    then Bucket (old_hashtable s) oldbucket
    else Bucket (primary_hashtable s) (Z.land hv (hashmask (hashpower s))) in
  before_loop (walk_fuel s) s key n pos.

(** ** assoc_insert *)

(** The C function returns the constant 1; the embedding returns the new
    state. *)
Definition assoc_insert (s : table) (it : ptr) (hv : Z) : option table :=
  let oldbucket := Z.land hv (hashmask (u32 (hashpower s - 1))) in
  if expanding s && (expand_bucket s <=? oldbucket) then
    head ← arr_load s (old_hashtable s) oldbucket;
    s1 ← store s (HNext it) head;
    store s1 (Bucket (old_hashtable s) oldbucket) it
  else
    let b := Z.land hv (hashmask (hashpower s)) in
    head ← arr_load s (primary_hashtable s) b;
    s1 ← store s (HNext it) head;
    store s1 (Bucket (primary_hashtable s) b) it.

(** ** assoc_delete *)

Inductive delete_result :=
  | Removed (s' : table)
  | AssertFailed.

Definition assoc_delete (s : table) (key : list byte) (n : Z) (hv : Z)
    : option delete_result :=
  before ← _hashitem_before s key n hv;
  b ← load s before;
  if decide (b = NULL) then Some AssertFailed
  else
    nxt ← load s (HNext b);
    s1 ← store s (HNext b) 0;
    s2 ← store s1 before nxt;
    Some (Removed s2).

(** ** assoc_expand *)

Definition set_primary (p : ptr) (s : table) : table :=
  {| hashpower := hashpower s; primary_hashtable := p;
     old_hashtable := old_hashtable s; expanding := expanding s;
     expand_bucket := expand_bucket s; arrays := arrays s; items := items s |}.

Definition set_old (p : ptr) (s : table) : table :=
  {| hashpower := hashpower s; primary_hashtable := primary_hashtable s;
     old_hashtable := p; expanding := expanding s;
     expand_bucket := expand_bucket s; arrays := arrays s; items := items s |}.

(** [calloc(n, sizeof(void * ))] returned [res]: null on failure, else the
    address of a new block of [n] null slots. *)
Definition calloc (res : ptr) (n : Z) (s : table) : table :=
  if decide (res = NULL) then s
  else set_arrays (<[res := replicate (Z.to_nat n) NULL]> (arrays s)) s.

(** [new] is what [calloc] returns for the doubled array.  The updates of
    the statistics record are not part of the table. *)
Definition assoc_expand (new : ptr) (s : table) : table :=
  let s1 := set_old (primary_hashtable s) s in
  let s2 := set_primary new (calloc new (hashsize (u32 (hashpower s + 1))) s1) in
  if decide (primary_hashtable s2 ≠ NULL) then
    {| hashpower := u32 (hashpower s2 + 1);
       primary_hashtable := primary_hashtable s2;
       old_hashtable := old_hashtable s2;
       expanding := true;
       expand_bucket := 0;
       arrays := arrays s2; items := items s2 |}
  else set_primary (old_hashtable s2) s2.

(** ** The migration loop of assoc_maintenance_thread *)

Section Migration.

(** The hash function of the server ([hash], a function pointer set up
    outside assoc.c): it reads [nkey] bytes at [ITEM_key(it)] and returns a
    [uint32_t]. *)
Variable hash : list byte → Z.

Definition hash32 (key : list byte) (n : Z) : Z :=
  u32 (hash (take (Z.to_nat n) key)).

(** [for (it = old_hashtable[expand_bucket]; NULL != it; it = next)] *)
Fixpoint relink_loop (fuel : nat) (s : table) (it : ptr) : option table :=
  match fuel with
  | O => None
  | S fuel' =>
      if decide (it = NULL) then Some s
      else
        i ← items s !! it;
        let next := h_next i in
        let bucket := Z.land (hash32 (ITEM_key i) (nkey i))
                             (hashmask (hashpower s)) in
        head ← arr_load s (primary_hashtable s) bucket;
        s1 ← store s (HNext it) head;
        s2 ← store s1 (Bucket (primary_hashtable s) bucket) it;
        relink_loop fuel' s2 next
  end.

(** Lines 271-280: move the chain of [old_hashtable[expand_bucket]], clear
    the slot, advance [expand_bucket]. *)
Definition migrate_bucket (s : table) : option table :=
  head ← arr_load s (old_hashtable s) (expand_bucket s);
  s1 ← relink_loop (walk_fuel s) s head;
  s2 ← store s1 (Bucket (old_hashtable s1) (expand_bucket s1)) NULL;
  Some {| hashpower := hashpower s2;
          primary_hashtable := primary_hashtable s2;
          old_hashtable := old_hashtable s2;
          expanding := expanding s2;
          expand_bucket := u64 (expand_bucket s2 + 1);
          arrays := arrays s2; items := items s2 |}.

(** Lines 281-293: when the last bucket has been moved the old array is
    freed; the pointer [old_hashtable] keeps its value. *)
Definition expansion_done (s : table) : table :=
  if decide (expand_bucket s = hashsize (u32 (hashpower s - 1))) then
    {| hashpower := hashpower s;
       primary_hashtable := primary_hashtable s;
       old_hashtable := old_hashtable s;
       expanding := false;
       expand_bucket := expand_bucket s;
       arrays := delete (old_hashtable s) (arrays s); items := items s |}
  else s.

(** The body of the [for] loop; [acquired] tells whether
    [item_trylock(expand_bucket)] returned a lock.  Without the lock the
    thread sleeps and the table is left alone. *)
Definition maintenance_step (acquired : bool) (s : table) : option table :=
  if acquired then expansion_done <$> migrate_bucket s
  else Some s.

(** [for (ii = 0; ii < hash_bulk_move && expanding; ++ii)], where
    [acquired ii] is the outcome of the trylock of iteration [ii]. *)
Fixpoint bulk_move_for (acquired : Z → bool) (fuel : nat) (ii : Z)
    (hash_bulk_move : Z) (s : table) : option table :=
  match fuel with
  | O => Some s
  | S fuel' =>
      if (ii <? hash_bulk_move) && expanding s then
        s' ← maintenance_step (acquired ii) s;
        bulk_move_for acquired fuel' (ii + 1) hash_bulk_move s'
      else Some s
  end.

(** One turn of the [while] loop up to the wait on the condition variable. *)
Definition maintenance_round (acquired : Z → bool) (hash_bulk_move : Z)
    (s : table) : option table :=
  bulk_move_for acquired (Z.to_nat hash_bulk_move) 0 hash_bulk_move s.

Fixpoint maintenance_rounds (n : nat) (hash_bulk_move : Z) (s : table)
    : option table :=
  match n with
  | O => Some s
  | S n' =>
      s' ← maintenance_round (λ _, true) hash_bulk_move s;
      maintenance_rounds n' hash_bulk_move s'
  end.

(** A whole expansion as the thread runs it when every trylock succeeds:
    [assoc_expand], then rounds of the migration loop until the table is
    stable again (one round per old bucket is always enough). *)
Definition expansion_cycle (new : ptr) (hash_bulk_move : Z) (s : table)
    : option table :=
  let s1 := assoc_expand new s in
  maintenance_rounds (Z.to_nat (hashsize (hashpower s))) hash_bulk_move s1.

End Migration.

(** ** The maintenance lock, the trigger and the iterator *)

(** [struct assoc_iterator] *)
Record assoc_iterator := Iterator {
  bucket : Z;
  it : ptr;
  next : ptr;
  bucket_locked : bool
}.

(** The table together with the state around it: whether
    [maintenance_lock] is held, the iterators allocated so far and the
    batch size [hash_bulk_move].  The per-item locks ([item_lock],
    [item_unlock], [item_trylock]) belong to the thread module and their
    state is not modelled: the iterator keeps its [bucket_locked] flag, and
    the outcome of the trylock of the migration loop is an input. *)
Record global := Global {
  tab : table;
  maintenance_lock : bool;
  iterators : gmap Z assoc_iterator;
  hash_bulk_move : Z
}.

Definition set_lock (b : bool) (g : global) : global :=
  {| tab := tab g; maintenance_lock := b; iterators := iterators g;
     hash_bulk_move := hash_bulk_move g |}.

Definition set_iterators (m : gmap Z assoc_iterator) (g : global) : global :=
  {| tab := tab g; maintenance_lock := maintenance_lock g; iterators := m;
     hash_bulk_move := hash_bulk_move g |}.

Definition set_bulk (n : Z) (g : global) : global :=
  {| tab := tab g; maintenance_lock := maintenance_lock g;
     iterators := iterators g; hash_bulk_move := n |}.

(** [pthread_mutex_trylock(&maintenance_lock) == 0] *)
Definition maintenance_trylock (g : global) : bool * global :=
  if maintenance_lock g then (false, g) else (true, set_lock true g).

(** [assoc_start_expand]: the result tells whether
    [pthread_cond_signal(&maintenance_cond)] was called.
    [HASHPOWER_MAX] is a constant of memcached.h. *)
Definition assoc_start_expand (HASHPOWER_MAX : Z) (curr_items : Z)
    (g : global) : bool * global :=
  let '(got, g1) := maintenance_trylock g in
  if got then
    let signal :=
      (u64 (hashsize (hashpower (tab g1)) * 3) / 2 <? curr_items)
      && (hashpower (tab g1) <? HASHPOWER_MAX) in
    (signal, set_lock false g1)
  else (false, g).

(** [assoc_get_iterator]: [res] is what [calloc] returns for the cursor.
    [mutex_lock] on a lock that is held does not return: no result. *)
Definition assoc_get_iterator (res : ptr) (g : global)
    : option (ptr * global) :=
  if decide (res = NULL) then Some (NULL, g)
  else
    let g1 := set_iterators (<[res := Iterator 0 NULL NULL false]> (iterators g)) g in
    if maintenance_lock g1 then None
    else Some (res, set_lock true g1).

(** [assoc_iterate]: the result is the returned flag and the item stored
    through the out parameter. *)
Definition assoc_iterate (iterp : ptr) (g : global)
    : option (bool * ptr * global) :=
  iter ← iterators g !! iterp;
  let put (i : assoc_iterator) := set_iterators (<[iterp := i]> (iterators g)) g in
  if bucket_locked iter then
    if decide (next iter ≠ NULL) then
      i ← items (tab g) !! next iter;
      Some (true, next iter,
            put (Iterator (bucket iter) (next iter) (h_next i) true))
    else
      Some (true, NULL,
            put (Iterator (u64 (bucket iter + 1)) (it iter) (next iter) false))
  else if decide (bucket iter ≠ hashsize (hashpower (tab g))) then
    head ← arr_load (tab g) (primary_hashtable (tab g)) (bucket iter);
    if decide (head ≠ NULL) then
      i ← items (tab g) !! head;
      Some (true, head, put (Iterator (bucket iter) head (h_next i) true))
    else
      Some (true, NULL,
            put (Iterator (u64 (bucket iter + 1)) head (next iter) false))
  else Some (false, NULL, g).

(** [assoc_iterate_final] *)
Definition assoc_iterate_final (iterp : ptr) (g : global) : option global :=
  iter ← iterators g !! iterp;
  Some (set_iterators (delete iterp (iterators g)) (set_lock false g)).

(** The loop of a caller of the iterator:
    [while (assoc_iterate(iter, &it)) if (it != NULL) visit(it);]
    The result is the sequence of visited items. *)
Fixpoint iterate_all (fuel : nat) (iterp : ptr) (g : global)
    : option (list ptr * global) :=
  match fuel with
  | O => None
  | S fuel' =>
      match assoc_iterate iterp g with
      | Some (true, p, g1) =>
          match iterate_all fuel' iterp g1 with
          | Some (rest, g2) =>
              Some (if decide (p ≠ NULL) then p :: rest else rest, g2)
          | None => None
          end
      | Some (false, _, g1) => Some ([], g1)
      | None => None
      end
  end.

(** ** start_assoc_maintenance_thread *)

Definition s32 (z : Z) : Z := (z + 2 ^ 31) mod 2 ^ 32 - 2 ^ 31.

Definition code (c : ascii) : Z := Z.of_N (Ascii.N_of_ascii c).

Definition isspace (c : ascii) : bool :=
  (code c =? 32) || ((9 <=? code c) && (code c <=? 13)).

Definition digit_of (c : ascii) : option Z :=
  if (48 <=? code c) && (code c <=? 57) then Some (code c - 48) else None.

Fixpoint skip_space (s : string) : string :=
  match s with
  | String c r => if isspace c then skip_space r else s
  | EmptyString => s
  end.

Fixpoint digits (acc : Z) (s : string) : Z :=
  match s with
  | String c r =>
      match digit_of c with
      | Some d => digits (10 * acc + d) r
      | None => acc
      end
  | EmptyString => acc
  end.

(** The range of a [long], 64 bits wide. *)
Definition LONG_MAX : Z := 2 ^ 63 - 1.
Definition LONG_MIN : Z := - 2 ^ 63.

(** [strtol(s, NULL, 10)] of the C library: optional white space, an
    optional sign, then the longest run of decimal digits; 0 when there is
    none.  A value outside the range of a [long] is given as [LONG_MAX] or
    [LONG_MIN]. *)
Definition strtol (s : string) : Z :=
  match skip_space s with
  | String "-"%char r => Z.max LONG_MIN (- digits 0 r)
  | String "+"%char r => Z.min LONG_MAX (digits 0 r)
  | s' => Z.min LONG_MAX (digits 0 s')
  end.

(** [atoi] of the C library is [(int) strtol(s, NULL, 10)]: the [long] is
    cut down to the 32 bits of an [int]. *)
Definition atoi (s : string) : Z := s32 (strtol s).

Definition DEFAULT_HASH_BULK_MOVE : Z := 1.

(** [env] is the result of [getenv("MEMCACHED_HASH_BULK_MOVE")] ([None]
    for a null pointer) and [create] the status of [pthread_create]. *)
Definition start_assoc_maintenance_thread (env : option string) (create : Z)
    (g : global) : Z * global :=
  let g1 :=
    match env with
    | Some e =>
        let g' := set_bulk (atoi e) g in
        if decide (hash_bulk_move g' = 0)
        then set_bulk DEFAULT_HASH_BULK_MOVE g' else g'
    | None => g
    end in
  if decide (create ≠ 0) then (-1, g1) else (0, g1).

(** ** Chains and the well-formed table *)

(** [chain h p l]: following [h_next] from [p] visits exactly the items [l]
    and then reaches the null pointer. *)
Inductive chain (h : gmap Z item) : ptr → list ptr → Prop :=
  | chain_nil : chain h NULL []
  | chain_cons p i l :
      p ≠ NULL → h !! p = Some i → chain h (h_next i) l → chain h p (p :: l).

Fixpoint chain_of (fuel : nat) (h : gmap Z item) (p : ptr)
    : option (list ptr) :=
  match fuel with
  | O => None
  | S fuel' =>
      if decide (p = NULL) then Some []
      else i ← h !! p; (p ::.) <$> chain_of fuel' h (h_next i)
  end.

(** The chains of all slots of the block at [a]. *)
Definition chains (s : table) (a : ptr) : option (list (list ptr)) :=
  arr ← arrays s !! a; mapM (chain_of (walk_fuel s) (items s)) arr.

(** The chains of the primary array and, while expanding, of the old one. *)
Definition view (s : table) : option (list (list ptr) * list (list ptr)) :=
  P ← chains s (primary_hashtable s);
  O ← (if expanding s then chains s (old_hashtable s) else Some []);
  Some (P, O).

(** The items linked into the table. *)
Definition linked_of (v : list (list ptr) * list (list ptr)) : list ptr :=
  concat v.1 ++ concat v.2.

Definition linked (s : table) : list ptr :=
  from_option linked_of [] (view s).

(** What identifies a key: its length and that many bytes. *)
Definition kid (key : list byte) (n : Z) : Z * list byte :=
  (n, take (Z.to_nat n) key).

Definition item_kid (i : item) : Z * list byte := kid (ITEM_key i) (nkey i).

Definition bucketwise (Q : Z → list ptr → Prop) (L : list (list ptr)) : Prop :=
  ∀ (b : nat) l, L !! b = Some l → Q (Z.of_nat b) l.

(** The shape of the arrays: the primary array is a live block of
    [hashsize(hashpower)] slots and, while expanding, the old array is
    another live block of half that length, with [expand_bucket] inside
    it. *)
Definition block_len (s : table) (a : ptr) : option Z :=
  (λ l, Z.of_nat (length l)) <$> arrays s !! a.

Definition shape (s : table) : Prop :=
  0 ≤ hashpower s ≤ 63 ∧
  primary_hashtable s ≠ NULL ∧
  block_len s (primary_hashtable s) = Some (hashsize (hashpower s)) ∧
  (expanding s = true →
     old_hashtable s ≠ NULL ∧ old_hashtable s ≠ primary_hashtable s ∧
     1 ≤ hashpower s ∧
     0 ≤ expand_bucket s < hashsize (hashpower s - 1) ∧
     block_len s (old_hashtable s) = Some (hashsize (hashpower s - 1))).

#[global] Instance shape_dec (s : table) : Decision (shape s).
Proof. unfold shape. apply _. Defined.

#[global] Instance bucketwise_dec (Q : Z → list Z → Prop)
    `{∀ b l, Decision (Q b l)} (L : list (list Z)) : Decision (bucketwise Q L).
Proof.
  refine (cast_if (decide
    (Forall (λ bl : nat * list Z, Q (Z.of_nat bl.1) bl.2) (imap pair L))));
    unfold bucketwise; rewrite Forall_lookup in *.
  - intros b l Hb. apply (f b (b, l)). rewrite list_lookup_imap, Hb. done.
  - intros HQ. apply n. intros i [b l]. rewrite list_lookup_imap.
    destruct (L !! i) as [l'|] eqn:Hi; simpl; [|done].
    intros [= <- <-]. by apply HQ.
Defined.

Section Invariant.

Variable hash : list byte → Z.

(** The bucket of an item under [hashpower = hp]. *)
Definition home (hp : Z) (i : item) : Z :=
  Z.land (hash32 hash (ITEM_key i) (nkey i)) (hashmask hp).

Definition placed (s : table) (hp : Z) : Z → list ptr → Prop :=
  λ b l, Forall (λ p, home hp <$> items s !! p = Some b) l.

(** The table is well formed with chains [v]: every item sits in the bucket
    of its hash, keys are not repeated, and while expanding the buckets
    behind [expand_bucket] are empty in the old array and those ahead of it
    are empty in the primary array. *)
Definition wf_view (s : table) (v : list (list ptr) * list (list ptr))
    : Prop :=
  shape s ∧
  NoDup ((λ p, item_kid <$> items s !! p) <$> linked_of v) ∧
  bucketwise (placed s (hashpower s)) v.1 ∧
  bucketwise (placed s (hashpower s - 1)) v.2 ∧
  (expanding s = true →
     bucketwise (λ b l, expand_bucket s ≤ Z.land b (hashmask (hashpower s - 1))
                        → l = []) v.1 ∧
     bucketwise (λ b l, b < expand_bucket s → l = []) v.2).

Definition wf (s : table) : Prop :=
  match view s with
  | Some v => wf_view s v
  | None => False
  end.

#[global] Instance wf_view_dec s v : Decision (wf_view s v).
Proof. unfold wf_view, placed. apply _. Defined.

#[global] Instance wf_dec s : Decision (wf s).
Proof. unfold wf. destruct (view s); apply _. Defined.

End Invariant.

(** ** The addressing rule in the words of the specification *)

Definition primary_length (s : table) : Z := hashsize (hashpower s).
Definition old_length (s : table) : Z := hashsize (hashpower s - 1).

(** Not expanding: [primary[hash & (primary_length - 1)]].  Expanding:
    [old_bucket = hash & (old_length - 1)]; the slot is [old[old_bucket]] if
    [old_bucket >= migration_cursor], else the primary slot. *)
Definition bucket_slot (s : table) (hv : Z) : lvalue :=
  if expanding s then
    let old_bucket := Z.land hv (old_length s - 1) in
    if decide (expand_bucket s ≤ old_bucket)
    then Bucket (old_hashtable s) old_bucket
    else Bucket (primary_hashtable s) (Z.land hv (primary_length s - 1))
  else Bucket (primary_hashtable s) (Z.land hv (primary_length s - 1)).

(** Head insertion at a slot: [it->h_next = *pos; *pos = it]. *)
Definition push (s : table) (pos : lvalue) (it : ptr) : option table :=
  head ← load s pos;
  s1 ← store s (HNext it) head;
  store s1 pos it.

(** Removal of the item that [before] points to, as [assoc_delete] does it
    once [_hashitem_before] has returned. *)
Definition unlink (s : table) (before : lvalue) : option delete_result :=
  b ← load s before;
  if decide (b = NULL) then Some AssertFailed
  else
    nxt ← load s (HNext b);
    s1 ← store s (HNext b) 0;
    s2 ← store s1 before nxt;
    Some (Removed s2).

(** ** Searching a chain *)

(** The test of [assoc_find] on the item at [p]. *)
Definition matchb (h : gmap Z item) (key : list byte) (n : Z) (p : ptr) : bool :=
  from_option (key_matches key n) false (h !! p).

(** The first item of a chain whose key matches, or the null pointer. *)
Fixpoint first_match (h : gmap Z item) (key : list byte) (n : Z)
    (l : list ptr) : ptr :=
  match l with
  | [] => NULL
  | p :: l' => if matchb h key n p then p else first_match h key n l'
  end.

(** The chain without its first matching item. *)
Fixpoint remove_match (h : gmap Z item) (key : list byte) (n : Z)
    (l : list ptr) : list ptr :=
  match l with
  | [] => []
  | p :: l' => if matchb h key n p then l' else p :: remove_match h key n l'
  end.

(** The link that points to the first matching item of the chain hanging
    from [pos], or the link at the end of the chain. *)
Fixpoint before_of (h : gmap Z item) (key : list byte) (n : Z)
    (pos : lvalue) (l : list ptr) : lvalue :=
  match l with
  | [] => pos
  | p :: l' => if matchb h key n p then pos else before_of h key n (HNext p) l'
  end.

(** [view] told with the chain relation. *)
Definition views (s : table) (P O : list (list ptr)) : Prop :=
  (∃ Parr, arrays s !! primary_hashtable s = Some Parr ∧
           Forall2 (chain (items s)) Parr P) ∧
  (if expanding s
   then ∃ Oarr, arrays s !! old_hashtable s = Some Oarr ∧
                Forall2 (chain (items s)) Oarr O
   else O = []).

(** Two heaps hold the same keys: they differ in links only. *)
Definition same_keys (h h' : gmap Z item) : Prop :=
  ∀ p, (λ i, (nkey i, ITEM_key i)) <$> h !! p
       = (λ i, (nkey i, ITEM_key i)) <$> h' !! p.

(** ** The trigger and the batch size in the words of the specification *)

(** [count > primary_length * 1.5] and [hash_power < hash_power_max]. *)
Definition trigger_condition (hash_power_max : Z) (count : Z) (s : table)
    : bool :=
  bool_decide (2 * count > 3 * primary_length s)
  && bool_decide (hashpower s < hash_power_max).

(** A valid positive value: a non-empty run of decimal digits whose value
    is positive. *)
Fixpoint all_digits (s : string) : bool :=
  match s with
  | EmptyString => true
  | String c r => bool_decide (is_Some (digit_of c)) && all_digits r
  end.

Definition valid_positive (s : string) : bool :=
  negb (bool_decide (s = EmptyString)) && all_digits s && (0 <? digits 0 s).

(** The batch size once the thread has been started with the environment
    variable set to [e]. *)
Definition batch_size (e : string) (g : global) : Z :=
  hash_bulk_move (start_assoc_maintenance_thread (Some e) 0 g).2.

Definition map_removed (f : table → table) (r : delete_result)
    : delete_result :=
  match r with
  | Removed s => Removed (f s)
  | AssertFailed => AssertFailed
  end.

(** ** Sequences of calls *)

(** The three entry points a worker thread calls, with the arguments the
    caller passes. *)
Inductive call :=
  | CallFind (key : list byte) (n : Z) (hv : Z)
  | CallInsert (p : ptr) (hv : Z)
  | CallDelete (key : list byte) (n : Z) (hv : Z).

(** A sequence of calls made one after the other: the pointers that the
    calls of [assoc_find] return, in order, and the table at the end.
    [None] when a call has no defined result or the assertion of
    [assoc_delete] fails. *)
Fixpoint serve (s : table) (cs : list call) : option (list ptr * table) :=
  match cs with
  | [] => Some ([], s)
  | CallFind key n hv :: cs =>
      r ← assoc_find s key n hv;
      '(rs, s') ← serve s cs;
      Some (r :: rs, s')
  | CallInsert p hv :: cs =>
      s1 ← assoc_insert s p hv;
      serve s1 cs
  | CallDelete key n hv :: cs =>
      r ← assoc_delete s key n hv;
      match r with
      | Removed s1 => serve s1 cs
      | AssertFailed => None
      end
  end.

(** ** Histories of operations *)

(** The operations that change the table: an insert of an item under the
    hash of its key, a delete of a key under its hash, [assoc_expand] with
    the outcome of its allocation, and one turn of the migration loop with
    the outcome of its trylock. *)
Inductive op :=
  | OpInsert (p : ptr)
  | OpDelete (key : list byte) (n : Z)
  | OpExpand (new : ptr)
  | OpMigrate (acquired : bool).

Section Histories.

Variable hash : list byte → Z.

Definition run_op (s : table) (o : op) : option table :=
  match o with
  | OpInsert p =>
      i ← items s !! p;
      assoc_insert s p (hash32 hash (ITEM_key i) (nkey i))
  | OpDelete key n =>
      r ← assoc_delete s key n (hash32 hash key n);
      match r with
      | Removed s' => Some s'
      | AssertFailed => None
      end
  | OpExpand new => Some (assoc_expand new s)
  | OpMigrate acquired => maintenance_step hash acquired s
  end.

(** What the callers promise: an inserted item is allocated, not linked and
    its key is not in the table; a deleted key is in the table; the
    expansion starts on a stable table below the largest size with a block
    that is new (or with none); the migration loop runs while expanding. *)
Definition allowed (s : table) (o : op) : Prop :=
  match o with
  | OpInsert p =>
      p ≠ NULL ∧ (p ∉ linked s) ∧
      (∃ i, items s !! p = Some i ∧
            ∀ q, q ∈ linked s → matchb (items s) (ITEM_key i) (nkey i) q = false)
  | OpDelete key n => ∃ q, q ∈ linked s ∧ matchb (items s) key n q = true
  | OpExpand new =>
      expanding s = false ∧ hashpower s < 63 ∧
      (new = NULL ∨ arrays s !! new = None)
  | OpMigrate _ => expanding s = true
  end.

Inductive runs : table → list op → table → Prop :=
  | runs_nil s : runs s [] s
  | runs_cons s o s1 os s2 :
      allowed s o → run_op s o = Some s1 → runs s1 os s2 →
      runs s (o :: os) s2.

(** Is [o] a delete of the key [key], [n]? *)
Definition deletes (key : list byte) (n : Z) (o : op) : Prop :=
  match o with
  | OpDelete k m => kid k m = kid key n
  | _ => False
  end.

(** The change that [o] makes to the number of linked items. *)
Definition count_change (o : op) : Z :=
  match o with
  | OpInsert _ => 1
  | OpDelete _ _ => -1
  | OpExpand _ | OpMigrate _ => 0
  end.

(** The change that [o] makes to the hash power: one for an [assoc_expand]
    whose allocation succeeds. *)
Definition power_change (o : op) : Z :=
  match o with
  | OpExpand new => if decide (new = NULL) then 0 else 1
  | OpInsert _ | OpDelete _ _ | OpMigrate _ => 0
  end.

(** Is [o] an insert or a delete of an item with the key [key], [n]? *)
Definition concerns (s : table) (key : list byte) (n : Z) (o : op) : Prop :=
  match o with
  | OpInsert p => item_kid <$> items s !! p = Some (kid key n)
  | OpDelete k m => kid k m = kid key n
  | OpExpand _ | OpMigrate _ => False
  end.

End Histories.

(** ** The table as a finite map *)

#[global] Instance byte_countable : Countable byte :=
  inj_countable Byte.to_N Byte.of_N Byte.of_to_N.

(** The keys of the linked items, each with its item. *)
Definition entries (s : table) : list ((Z * list byte) * ptr) :=
  omap (λ p, (λ i, (item_kid i, p)) <$> items s !! p) (linked s).

(** The finite map from keys to items that the table stands for. *)
Definition contents (s : table) : gmap (Z * list byte) ptr :=
  list_to_map (entries s).

(** What an operation does to that map. *)
Definition apply_op (s : table) (o : op) (m : gmap (Z * list byte) ptr)
    : gmap (Z * list byte) ptr :=
  match o with
  | OpInsert p =>
      match item_kid <$> items s !! p with
      | Some k => <[k := p]> m
      | None => m
      end
  | OpDelete key n => delete (kid key n) m
  | OpExpand _ | OpMigrate _ => m
  end.

(** ** A caller that removes what it visits *)

Definition set_tab (t : table) (g : global) : global :=
  {| tab := t; maintenance_lock := maintenance_lock g;
     iterators := iterators g; hash_bulk_move := hash_bulk_move g |}.

Section Callers.

Variable hash : list byte → Z.

(** The loop of a caller that unlinks every item the iterator gives it:
    [while (assoc_iterate(iter, &it))
       if (it != NULL)
         assoc_delete(ITEM_key(it), it->nkey, hash(ITEM_key(it), it->nkey));]
    The result is the sequence of the removed items. *)
Fixpoint iterate_deleting (fuel : nat) (iterp : ptr) (g : global)
    : option (list ptr * global) :=
  match fuel with
  | O => None
  | S fuel' =>
      match assoc_iterate iterp g with
      | Some (true, p, g1) =>
          if decide (p ≠ NULL) then
            i ← items (tab g1) !! p;
            r ← assoc_delete (tab g1) (ITEM_key i) (nkey i)
                  (hash32 hash (ITEM_key i) (nkey i));
            match r with
            | Removed t =>
                match iterate_deleting fuel' iterp (set_tab t g1) with
                | Some (rest, g2) => Some (p :: rest, g2)
                | None => None
                end
            | AssertFailed => None
            end
          else iterate_deleting fuel' iterp g1
      | Some (false, _, g1) => Some ([], g1)
      | None => None
      end
  end.

(** The table while such a caller is at bucket [k]: the buckets before [k]
    are empty and the buckets from [k] on have the chains [Ls]. *)
Definition drained (t : table) (k : nat) (Ls : list (list ptr)) : Prop :=
  wf hash t ∧ expanding t = false ∧ views t (replicate k [] ++ Ls) [].

End Callers.

(** The old buckets still to be moved. *)
Definition remaining (s : table) : Z :=
  if expanding s then hashsize (hashpower s - 1) - expand_bucket s else 0.

(** How many of the trylocks of the iterations [ii], [ii + 1], ... ([k] of
    them) of the migration loop return a lock. *)
Fixpoint acquisitions (acquired : Z → bool) (k : nat) (ii : Z) : Z :=
  match k with
  | O => 0
  | S k' => (if acquired ii then 1 else 0) + acquisitions acquired k' (ii + 1)
  end.

(** The invariant of the specification: [old] is non-null iff [expanding],
    and while expanding the old array has half the length of the primary
    array. *)
Definition old_iff_expanding (s : table) : Prop :=
  (old_hashtable s ≠ NULL ↔ expanding s = true) ∧
  (expanding s = true →
   ∃ lo lp, block_len s (old_hashtable s) = Some lo ∧
            block_len s (primary_hashtable s) = Some lp ∧ 2 * lo = lp).

(** The part of it that the code keeps. *)
Definition old_while_expanding (s : table) : Prop :=
  expanding s = true →
  old_hashtable s ≠ NULL ∧
  ∃ lo lp, block_len s (old_hashtable s) = Some lo ∧
           block_len s (primary_hashtable s) = Some lp ∧ 2 * lo = lp.

(** Calls of [assoc_iterate] needed to walk the buckets with chains [Ls]:
    one per item, one more per bucket, and the last one that returns
    false. *)
Fixpoint walk_cost (Ls : list (list Z)) : nat :=
  match Ls with
  | [] => 1
  | l :: Ls' => S (length l) + walk_cost Ls'
  end.

(** ** Example tables *)

Module Example.

(** A hash for the examples: the code of the first byte of the key. *)
Definition hash (k : list byte) : Z :=
  match k with
  | [] => 0
  | b :: _ => Z.of_N (Byte.to_N b)
  end.

Definition key_a : list byte := [Byte.x61].
Definition key_b : list byte := [Byte.x62].
Definition key_c : list byte := [Byte.x63].
Definition key_d : list byte := [Byte.x64].

(** Four items at addresses 100 to 103; "b" and "d" are chained in bucket 0
    and "a" in bucket 1 of a table of two buckets at address 10; "c" is
    allocated but not linked. *)
Definition heap : gmap Z item :=
  <[100 := Item 1 key_a NULL]>
  (<[101 := Item 1 key_b 103]>
  (<[102 := Item 1 key_c NULL]>
  (<[103 := Item 1 key_d NULL]> ∅))).

Definition stable : table :=
  {| hashpower := 1; primary_hashtable := 10; old_hashtable := NULL;
     expanding := false; expand_bucket := 0;
     arrays := <[10 := [101; 100]]> ∅; items := heap |}.

Definition idle : global :=
  {| tab := stable; maintenance_lock := false; iterators := ∅;
     hash_bulk_move := 1 |}.

Definition busy : global :=
  {| tab := stable; maintenance_lock := true; iterators := ∅;
     hash_bulk_move := 1 |}.

(** The same table right after a successful [assoc_expand] whose new
    block is at address 20: four empty primary slots, the two old buckets
    still to be moved. *)
Definition growing : table := assoc_expand 20 stable.

(** [idle] with a fresh cursor at address 50, as [assoc_get_iterator]
    leaves it. *)
Definition opened : global :=
  {| tab := stable; maintenance_lock := true;
     iterators := <[50 := Iterator 0 NULL NULL false]> ∅;
     hash_bulk_move := 1 |}.

End Example.

(** More tables over the heap of the examples. *)
Module Cases.

(** [Example.stable] with one more allocated item, at address 104, that has
    the key of the linked item at address 103. *)
Definition twins : table :=
  set_items (<[104 := Item 1 Example.key_d NULL]> Example.heap) Example.stable.

(** The empty table of two buckets at address 10 that [assoc_init] makes
    when it is called with 1. *)
Definition fresh : table :=
  {| hashpower := 1; primary_hashtable := 10; old_hashtable := NULL;
     expanding := false; expand_bucket := 0;
     arrays := <[10 := [NULL; NULL]]> ∅; items := Example.heap |}.

End Cases.

(** [s'] has the control variables, the block sizes and the keys of [s]:
    only links and slot contents differ. *)
Definition same_frame (s s' : table) : Prop :=
  hashpower s' = hashpower s ∧
  primary_hashtable s' = primary_hashtable s ∧
  old_hashtable s' = old_hashtable s ∧
  expanding s' = expanding s ∧
  expand_bucket s' = expand_bucket s ∧
  (∀ a, block_len s' a = block_len s a) ∧
  same_keys (items s) (items s').

(** * Properties *)

(** ** Machine arithmetic *)

Lemma land_u64_r (a m : Z) : 0 ≤ a < 2 ^ 32 → Z.land a (u64 m) = Z.land a m.
Proof.
  intros Ha. unfold u64.
  rewrite <- (Z.land_ones m 64) by lia.
  rewrite (Z.land_comm m), Z.land_assoc, Z.land_ones by lia.
  rewrite (Z.mod_small a) by lia. reflexivity.
Qed.

Lemma land_u32_small (a m : Z) : 0 ≤ a < 2 ^ 32 → u32 (Z.land a m) = Z.land a m.
Proof.
  intros Ha. unfold u32.
  rewrite <- (Z.land_ones _ 32) by lia.
  rewrite <- Z.land_assoc, (Z.land_comm m), Z.land_assoc, Z.land_ones by lia.
  rewrite (Z.mod_small a) by lia. reflexivity.
Qed.

Lemma hashsize_pow2 (n : Z) : 0 ≤ n ≤ 63 → hashsize n = 2 ^ n.
Proof.
  intros Hn. unfold hashsize, u64. rewrite Z.shiftl_1_l.
  apply Z.mod_small. split; [lia|].
  apply Z.pow_lt_mono_r; lia.
Qed.

Lemma hashsize_neg (n : Z) : n < 0 → hashsize n = 0.
Proof.
  intros Hn. unfold hashsize, u64.
  rewrite Z.shiftl_1_l, Z.pow_neg_r by lia. reflexivity.
Qed.

Lemma hashsize_big (n : Z) : 64 ≤ n → hashsize n = 0.
Proof.
  intros Hn. unfold hashsize, u64. rewrite Z.shiftl_1_l.
  replace n with (64 + (n - 64)) by lia.
  rewrite Z.pow_add_r by lia. rewrite Z.mul_comm. apply Z.mod_mul. lia.
Qed.

Lemma hashsize_u32_pred (hp : Z) :
  0 ≤ hp < 2 ^ 32 → hashsize (u32 (hp - 1)) = hashsize (hp - 1).
Proof.
  intros Hhp. destruct (decide (hp = 0)) as [->|].
  - rewrite (hashsize_neg (0 - 1)) by lia. apply hashsize_big.
    assert (u32 (0 - 1) = 2 ^ 32 - 1) as -> by reflexivity. lia.
  - unfold u32. rewrite Z.mod_small by lia. reflexivity.
Qed.

Lemma hashmask_pow2 (n : Z) : 0 ≤ n ≤ 63 → hashmask n = Z.ones n.
Proof.
  intros Hn. unfold hashmask. rewrite hashsize_pow2 by lia.
  unfold u64. rewrite Z.ones_equiv.
  assert (0 < 2 ^ n) by (apply Z.pow_pos_nonneg; lia).
  assert (2 ^ n < 2 ^ 64) by (apply Z.pow_lt_mono_r; lia).
  rewrite Z.mod_small by lia. lia.
Qed.

Lemma land_hashmask (a n : Z) : 0 ≤ n ≤ 63 → Z.land a (hashmask n) = a mod 2 ^ n.
Proof. intros Hn. rewrite hashmask_pow2 by lia. apply Z.land_ones. lia. Qed.

(** ** The addressing rule *)

Lemma addressing (s : table) (hv : Z) :
  0 ≤ hv < 2 ^ 32 →
  0 ≤ hashpower s < 2 ^ 32 →
  (∀ key n, assoc_find s key n hv =
     (p ← load s (bucket_slot s hv);
      find_loop (walk_fuel s) (items s) key n p)) ∧
  (∀ p, assoc_insert s p hv = push s (bucket_slot s hv) p) ∧
  (∀ key n, _hashitem_before s key n hv =
     before_loop (walk_fuel s) s key n (bucket_slot s hv)) ∧
  (∀ key n, assoc_delete s key n hv =
     (before ← before_loop (walk_fuel s) s key n (bucket_slot s hv);
      unlink s before)) ∧
  (bucket_slot s hv =
     if expanding s && bool_decide (expand_bucket s ≤ Z.land hv (old_length s - 1))
     then Bucket (old_hashtable s) (Z.land hv (old_length s - 1))
     else Bucket (primary_hashtable s) (Z.land hv (primary_length s - 1))).
Proof.
  intros Hhv Hhp.
  assert (Hold : Z.land hv (hashmask (u32 (hashpower s - 1)))
                 = Z.land hv (old_length s - 1)).
  { unfold hashmask, old_length. rewrite land_u64_r by done.
    by rewrite hashsize_u32_pred. }
  assert (Hnew : Z.land hv (hashmask (hashpower s))
                 = Z.land hv (primary_length s - 1)).
  { unfold hashmask, primary_length. by rewrite land_u64_r. }
  assert (Hslot : bucket_slot s hv =
     if expanding s && (expand_bucket s <=? Z.land hv (old_length s - 1))
     then Bucket (old_hashtable s) (Z.land hv (old_length s - 1))
     else Bucket (primary_hashtable s) (Z.land hv (primary_length s - 1))).
  { unfold bucket_slot. destruct (expanding s); simpl; [|done].
    case_decide; destruct (Z.leb_spec (expand_bucket s)
      (Z.land hv (old_length s - 1))); done || lia. }
  repeat split.
  - intros key n. unfold assoc_find.
    rewrite land_u32_small, Hold, Hnew, Hslot by done.
    by destruct (expanding s && _).
  - intros p. unfold assoc_insert, push.
    rewrite Hold, Hnew, Hslot. by destruct (expanding s && _).
  - intros key n. unfold _hashitem_before. by rewrite Hold, Hnew, Hslot.
  - intros key n. unfold assoc_delete, _hashitem_before, unlink.
    by rewrite Hold, Hnew, Hslot.
  - rewrite Hslot. destruct (expanding s); simpl; [|done].
    case_bool_decide; destruct (Z.leb_spec (expand_bucket s)
      (Z.land hv (old_length s - 1))); done || lia.
Qed.

(** C1: for a 32-bit hash value, [assoc_find], [assoc_insert],
    [_hashitem_before] and [assoc_delete] all work on the one slot that the
    addressing rule of the specification names: the primary slot
    [hv & (primary_length - 1)] when not expanding or when the old bucket
    [hv & (old_length - 1)] is below [expand_bucket], and the old slot
    otherwise. *)
Theorem addressing_rule (s : table) (hv : Z) :
  0 ≤ hv < 2 ^ 32 →
  0 ≤ hashpower s < 2 ^ 32 →
  (∀ key n, assoc_find s key n hv =
     (p ← load s (bucket_slot s hv);
      find_loop (walk_fuel s) (items s) key n p)) ∧
  (∀ p, assoc_insert s p hv = push s (bucket_slot s hv) p) ∧
  (∀ key n, _hashitem_before s key n hv =
     before_loop (walk_fuel s) s key n (bucket_slot s hv)) ∧
  (∀ key n, assoc_delete s key n hv =
     (before ← before_loop (walk_fuel s) s key n (bucket_slot s hv);
      unlink s before)) ∧
  (bucket_slot s hv =
     if expanding s && bool_decide (expand_bucket s ≤ Z.land hv (old_length s - 1))
     then Bucket (old_hashtable s) (Z.land hv (old_length s - 1))
     else Bucket (primary_hashtable s) (Z.land hv (primary_length s - 1))).
Proof. apply addressing. Qed.

(** ** Chains in the heap *)

Lemma chain_inv_nil h l : chain h NULL l → l = [].
Proof. inversion 1; [done|]. by exfalso. Qed.

Lemma chain_inv_cons h p l :
  p ≠ NULL → chain h p l →
  ∃ i l', l = p :: l' ∧ h !! p = Some i ∧ chain h (h_next i) l'.
Proof. intros Hp Hc. inversion Hc; subst; [done|]. eauto. Qed.

Lemma chain_functional h p l1 l2 : chain h p l1 → chain h p l2 → l1 = l2.
Proof.
  intros H1. revert l2. induction H1 as [|p i l Hp Hi _ IH]; intros l2 H2.
  - by apply chain_inv_nil in H2.
  - apply chain_inv_cons in H2 as (i' & l' & -> & Hi' & Hc'); [|done].
    rewrite Hi in Hi'. injection Hi' as <-. f_equal. by apply IH.
Qed.

Lemma chain_elem h p l q :
  chain h p l → q ∈ l → q ≠ NULL ∧ is_Some (h !! q).
Proof.
  induction 1 as [|p i l Hp Hi _ IH]; intros Hq.
  - by apply not_elem_of_nil in Hq.
  - apply elem_of_cons in Hq as [->|Hq]; eauto.
Qed.

Lemma chain_suffix h p l1 q l2 :
  chain h p (l1 ++ q :: l2) → chain h q (q :: l2).
Proof.
  revert p. induction l1 as [|x l1 IH]; intros p Hc; simpl in *; [|].
  - inversion Hc; subst. by econstructor.
  - inversion Hc; subst. eauto.
Qed.

Lemma chain_NoDup h p l : chain h p l → NoDup l.
Proof.
  induction 1 as [|p i l Hp Hi Hc IH]; constructor; [|done].
  intros Hin. apply list_elem_of_split in Hin as (l1 & l2 & ->).
  pose proof (chain_suffix _ _ _ _ _ Hc) as Hs.
  apply chain_inv_cons in Hs as (i' & l' & Heq & Hi' & Hc'); [|done].
  injection Heq as <-. rewrite Hi in Hi'. injection Hi' as <-.
  pose proof (chain_functional _ _ _ _ Hc Hc') as Heq.
  apply (f_equal length) in Heq. rewrite length_app in Heq. simpl in Heq. lia.
Qed.

Lemma chain_length h p l : chain h p l → (length l ≤ size h)%nat.
Proof.
  intros Hc. rewrite <- size_dom.
  rewrite <- (size_list_to_set (C := gset Z) l) by by eapply chain_NoDup.
  apply subseteq_size. intros q Hq. apply elem_of_list_to_set in Hq.
  apply elem_of_dom. by eapply chain_elem.
Qed.

Lemma chain_of_sound fuel h p l : chain_of fuel h p = Some l → chain h p l.
Proof.
  revert p l. induction fuel as [|fuel IH]; intros p l; simpl; [done|].
  case_decide as Hp.
  - intros [= <-]. subst. constructor.
  - destruct (h !! p) as [i|] eqn:Hi; simpl; [|done].
    destruct (chain_of fuel h (h_next i)) as [l'|] eqn:Hl; simpl; [|done].
    intros [= <-]. econstructor; eauto.
Qed.

Lemma chain_of_complete fuel h p l :
  chain h p l → (length l < fuel)%nat → chain_of fuel h p = Some l.
Proof.
  intros Hc. revert fuel. induction Hc as [|p i l Hp Hi _ IH]; intros fuel Hf.
  - destruct fuel; [lia|]. reflexivity.
  - destruct fuel as [|fuel]; [simpl in Hf; lia|]. simpl in *.
    rewrite decide_False, Hi by done. simpl. rewrite IH by lia. done.
Qed.

Lemma chain_of_spec h p l :
  chain_of (S (size h)) h p = Some l ↔ chain h p l.
Proof.
  split; [apply chain_of_sound|].
  intros Hc. apply chain_of_complete; [done|].
  apply chain_length in Hc. lia.
Qed.

(** Writing the link of an item outside a chain leaves the chain alone. *)
Lemma chain_frame h p l q i :
  chain h p l → q ∉ l → chain (<[q := i]> h) p l.
Proof.
  induction 1 as [|p j l Hp Hj _ IH]; intros Hq; [constructor|].
  apply not_elem_of_cons in Hq as [Hne Hq].
  econstructor; [done| |by apply IH].
  by rewrite lookup_insert_ne.
Qed.

Lemma chains_frame h A L q i :
  Forall2 (chain h) A L → q ∉ concat L → Forall2 (chain (<[q := i]> h)) A L.
Proof.
  induction 1 as [|a l A L Hc _ IH]; intros Hq; constructor; simpl in Hq.
  - apply chain_frame; [done|]. intros ?. apply Hq, elem_of_app. by left.
  - apply IH. intros ?. apply Hq, elem_of_app. by right.
Qed.

(** ** The loops of [assoc_find] and [_hashitem_before] on a chain *)

Lemma find_loop_chain fuel h key n p l :
  chain h p l → (length l < fuel)%nat →
  find_loop fuel h key n p = Some (first_match h key n l).
Proof.
  intros Hc. revert fuel. induction Hc as [|p i l Hp Hi _ IH]; intros fuel Hf.
  - destruct fuel; [lia|]. reflexivity.
  - destruct fuel as [|fuel]; [simpl in Hf; lia|]. simpl in *.
    rewrite decide_False, Hi by done. simpl.
    unfold matchb. rewrite Hi. simpl.
    destruct (key_matches key n i); [done|]. apply IH. lia.
Qed.

Lemma first_match_split h key n l :
  first_match h key n l ≠ NULL →
  ∃ l1 l2, l = l1 ++ first_match h key n l :: l2 ∧
           matchb h key n (first_match h key n l) = true ∧
           Forall (λ q, matchb h key n q = false) l1 ∧
           remove_match h key n l = l1 ++ l2.
Proof.
  induction l as [|p l IH]; simpl; [done|].
  destruct (matchb h key n p) eqn:Hm; intros Hne.
  - by exists [], l.
  - destruct (IH Hne) as (l1 & l2 & Hl & Hb & Hl1 & Hr).
    exists (p :: l1), l2. simpl. rewrite <- Hl, Hr.
    repeat split; [done|]. by constructor.
Qed.

Lemma first_match_null h key n l :
  NULL ∉ l → first_match h key n l = NULL →
  Forall (λ q, matchb h key n q = false) l.
Proof.
  induction l as [|p l IH]; simpl; [constructor|].
  intros Hn. apply not_elem_of_cons in Hn as [Hp Hn].
  destruct (matchb h key n p) eqn:Hm; intros Heq; [congruence|].
  constructor; auto.
Qed.

Lemma first_match_none h key n l :
  Forall (λ q, matchb h key n q = false) l → first_match h key n l = NULL.
Proof. induction 1 as [|p l Hp _ IH]; simpl; [done|]. by rewrite Hp. Qed.

Lemma first_match_elem h key n l :
  first_match h key n l ≠ NULL →
  first_match h key n l ∈ l ∧ matchb h key n (first_match h key n l) = true.
Proof.
  intros Hne. destruct (first_match_split _ _ _ _ Hne) as (l1 & l2 & Hl & Hb & _).
  split; [|done]. rewrite Hl at 2. apply elem_of_app. right. by left.
Qed.

Lemma chain_not_null h p l : chain h p l → NULL ∉ l.
Proof. intros Hc Hin. by destruct (chain_elem _ _ _ _ Hc Hin). Qed.

Lemma before_loop_chain fuel s key n pos p l :
  load s pos = Some p → chain (items s) p l → (length l < fuel)%nat →
  before_loop fuel s key n pos = Some (before_of (items s) key n pos l).
Proof.
  intros Hl Hc. revert fuel pos Hl.
  induction Hc as [|p i l Hp Hi _ IH]; intros fuel pos Hl Hf.
  - destruct fuel; [lia|]. simpl. rewrite Hl. reflexivity.
  - destruct fuel as [|fuel]; [simpl in Hf; lia|]. simpl in *.
    rewrite Hl. simpl. rewrite decide_False, Hi by done. simpl.
    unfold matchb. rewrite Hi. simpl. unfold key_matches.
    destruct (n =? nkey i), (memcmp_eq key (ITEM_key i) n); simpl; try done;
      (apply IH; [by unfold load; rewrite Hi | lia]).
Qed.

(** ** The view of a table *)

Lemma chains_spec s a L :
  chains s a = Some L ↔
  ∃ arr, arrays s !! a = Some arr ∧ Forall2 (chain (items s)) arr L.
Proof.
  unfold chains, walk_fuel. split.
  - destruct (arrays s !! a) as [arr|]; simpl; [|done].
    intros Hm. exists arr. split; [done|].
    apply mapM_Some in Hm. eapply Forall2_impl; [done|].
    intros x y. apply chain_of_spec.
  - intros (arr & -> & HF). simpl. apply mapM_Some.
    eapply Forall2_impl; [done|]. intros x y. apply chain_of_spec.
Qed.

Lemma view_spec s P O : view s = Some (P, O) ↔ views s P O.
Proof.
  unfold view, views. split.
  - destruct (chains s (primary_hashtable s)) as [P'|] eqn:HP; simpl; [|done].
    destruct (expanding s).
    + destruct (chains s (old_hashtable s)) as [O'|] eqn:HO; simpl; [|done].
      intros [= <- <-]. split; by apply chains_spec.
    + simpl. intros [= <- <-]. split; [by apply chains_spec|done].
  - intros [HP HO]. apply chains_spec in HP. rewrite HP. simpl.
    destruct (expanding s).
    + apply chains_spec in HO. by rewrite HO.
    + by subst.
Qed.

Lemma wf_views hash s :
  wf hash s ↔ ∃ P O, views s P O ∧ wf_view hash s (P, O).
Proof.
  unfold wf. split.
  - destruct (view s) as [[P O]|] eqn:Hv; [|done].
    intros Hw. exists P, O. split; [by apply view_spec|done].
  - intros (P & O & Hv & Hw). apply view_spec in Hv. by rewrite Hv.
Qed.

Lemma linked_views s P O : views s P O → linked s = concat P ++ concat O.
Proof. intros Hv. apply view_spec in Hv. unfold linked. by rewrite Hv. Qed.

Lemma same_keys_refl h : same_keys h h.
Proof. done. Qed.

Lemma same_keys_trans h1 h2 h3 :
  same_keys h1 h2 → same_keys h2 h3 → same_keys h1 h3.
Proof. intros H1 H2 p. by rewrite H1. Qed.

Lemma same_keys_insert h q i v :
  h !! q = Some i → same_keys h (<[q := set_h_next v i]> h).
Proof.
  intros Hq p. destruct (decide (q = p)) as [->|Hne].
  - by rewrite lookup_insert_eq, Hq.
  - by rewrite lookup_insert_ne.
Qed.

Lemma same_keys_kid h h' p :
  same_keys h h' → item_kid <$> h' !! p = item_kid <$> h !! p.
Proof.
  intros Hk. specialize (Hk p).
  destruct (h !! p) as [i|], (h' !! p) as [i'|]; simpl in *; try done.
  simplify_eq. unfold item_kid. congruence.
Qed.

Lemma same_keys_home hash h h' hp p :
  same_keys h h' → home hash hp <$> h' !! p = home hash hp <$> h !! p.
Proof.
  intros Hk. specialize (Hk p).
  destruct (h !! p) as [i|], (h' !! p) as [i'|]; simpl in *; try done.
  simplify_eq. unfold home. congruence.
Qed.

Lemma same_keys_matchb h h' key n p :
  same_keys h h' → matchb h' key n p = matchb h key n p.
Proof.
  intros Hk. specialize (Hk p). unfold matchb.
  destruct (h !! p) as [i|], (h' !! p) as [i'|]; simpl in *; try done.
  simplify_eq. unfold key_matches. congruence.
Qed.

(** ** The expansion trigger *)

Lemma trigger_arith (hp max count : Z) :
  0 ≤ hp → max ≤ 63 →
  (u64 (hashsize hp * 3) / 2 <? count) && (hp <? max)
  = bool_decide (2 * count > 3 * hashsize hp) && bool_decide (hp < max).
Proof.
  intros Hhp Hmax. destruct (Z.ltb_spec hp max) as [Hlt|Hge].
  - rewrite (bool_decide_eq_true_2 (hp < max)) by done.
    rewrite !andb_true_r. rewrite hashsize_pow2 by lia.
    assert (0 < 2 ^ hp) by (apply Z.pow_pos_nonneg; lia).
    assert (2 ^ hp ≤ 2 ^ 62) by (apply Z.pow_le_mono_r; lia).
    unfold u64. rewrite Z.mod_small by lia.
    destruct (Z.ltb_spec (2 ^ hp * 3 / 2) count); case_bool_decide; try done;
      exfalso; pose proof (Z.div_mod (2 ^ hp * 3) 2);
      pose proof (Z.mod_pos_bound (2 ^ hp * 3) 2); lia.
  - rewrite (bool_decide_eq_false_2 (hp < max)) by lia.
    by rewrite !andb_false_r.
Qed.

(** C6 as stated fails: with the maintenance lock held, a report that meets
    the condition raises no signal. *)
Lemma trigger_needs_lock_counterexample :
  trigger_condition 32 25 (tab Example.busy) = true ∧
  (assoc_start_expand 32 25 Example.busy).1 = false.
Proof. split; reflexivity. Qed.

(** C6, amended: a report raises the wake signal if and only if the
    maintenance lock was free when it was made (the trylock succeeded), the
    count exceeds one and a half times the primary length and the hash
    power is below its maximum; no report changes the state. *)
Theorem trigger_signal (hash_power_max count : Z) (g : global) :
  0 ≤ hashpower (tab g) →
  hash_power_max ≤ 63 →
  assoc_start_expand hash_power_max count g
  = (negb (maintenance_lock g) && trigger_condition hash_power_max count (tab g), g).
Proof.
  intros Hhp Hmax. unfold assoc_start_expand, maintenance_trylock.
  destruct g as [t [] its bulk]; simpl; [done|].
  unfold trigger_condition, primary_length, set_lock. simpl.
  by rewrite trigger_arith.
Qed.

(** ** The batch size *)

(** C9 as stated fails: a negative value is not a valid positive value, yet
    it is kept as the batch size instead of the default; and text that only
    begins with digits is read as the number it begins with. *)
Lemma batch_size_negative_counterexample :
  valid_positive "-3" = false ∧
  batch_size "-3" Example.idle = -3 ∧
  batch_size "-3" Example.idle ≠ DEFAULT_HASH_BULK_MOVE ∧
  valid_positive "3x" = false ∧
  batch_size "3x" Example.idle = 3 ∧
  batch_size "3x" Example.idle ≠ DEFAULT_HASH_BULK_MOVE.
Proof. repeat split; try reflexivity; intros H; discriminate H. Qed.

Lemma digits_nonneg s acc : 0 ≤ acc → 0 ≤ digits acc s.
Proof.
  revert acc. induction s as [|c r IH]; intros acc Hacc; simpl; [done|].
  unfold digit_of. destruct ((48 <=? code c) && (code c <=? 57)) eqn:Hd; [|done].
  apply IH. lia.
Qed.

(** A run of digits is read as its value, cut at [LONG_MAX]. *)
Lemma strtol_digits e :
  all_digits e = true → strtol e = Z.min LONG_MAX (digits 0 e).
Proof.
  destruct e as [|c r]; [done|]. cbn [all_digits]. intros Hd.
  apply andb_prop in Hd as [Hc _]. apply bool_decide_eq_true in Hc.
  unfold digit_of in Hc.
  destruct ((48 <=? code c) && (code c <=? 57)) eqn:Hr; [|by destruct Hc].
  clear Hc.
  destruct c as [[] [] [] [] [] [] [] []];
    (by vm_compute in Hr) || reflexivity.
Qed.

Lemma atoi_valid_positive e :
  valid_positive e = true → digits 0 e < 2 ^ 31 → atoi e = digits 0 e.
Proof.
  unfold valid_positive. intros Hv Hlt.
  apply andb_prop in Hv as [Hv Hpos]. apply andb_prop in Hv as [_ Hd].
  apply Z.ltb_lt in Hpos.
  unfold atoi. rewrite strtol_digits, Z.min_r by (done || unfold LONG_MAX; lia).
  unfold s32. rewrite Z.mod_small; lia.
Qed.

(** C9, amended: a value that [atoi] reads as a positive number becomes the
    batch size, in particular every run of digits with a positive value
    that fits an [int]; a value that [atoi] reads as 0 (the number zero, or
    text that does not start with a number) gives the default of 1. *)
Theorem batch_size_from_environment (e : string) (g : global) :
  (0 < atoi e → batch_size e g = atoi e) ∧
  (atoi e = 0 → batch_size e g = DEFAULT_HASH_BULK_MOVE) ∧
  (valid_positive e = true → digits 0 e < 2 ^ 31 →
   batch_size e g = digits 0 e).
Proof.
  assert (Hb : batch_size e g = if decide (atoi e = 0) then 1 else atoi e).
  { unfold batch_size, start_assoc_maintenance_thread. simpl.
    by destruct (decide (atoi e = 0)). }
  repeat split.
  - intros Hpos. rewrite Hb. rewrite decide_False by lia. done.
  - intros H0. rewrite Hb. by rewrite decide_True.
  - intros Hv Hlt. rewrite Hb, atoi_valid_positive by done.
    unfold valid_positive in Hv. apply andb_prop in Hv as [_ Hpos].
    apply Z.ltb_lt in Hpos. rewrite decide_False by lia. done.
Qed.

(** ** Opening an iterator *)

(** C10: when the allocation of the cursor fails, [assoc_get_iterator]
    returns the null pointer and leaves the state as it was, the maintenance
    lock included, and closing that null cursor is undefined; a non-null
    cursor is only ever returned with the maintenance lock taken by this
    call, as a fresh cursor at bucket 0 without a bucket lock; and the call
    returns one whenever the allocation succeeds and the lock is free. *)
Theorem get_iterator_lock (res : Z) (g : global) :
  (res = NULL → assoc_get_iterator res g = Some (NULL, g)) ∧
  (iterators g !! NULL = None → assoc_iterate_final NULL g = None) ∧
  (∀ p g', assoc_get_iterator res g = Some (p, g') → p ≠ NULL →
     p = res ∧ maintenance_lock g = false ∧ maintenance_lock g' = true ∧
     iterators g' !! p = Some (Iterator 0 NULL NULL false) ∧
     tab g' = tab g) ∧
  (res ≠ NULL → maintenance_lock g = false →
     ∃ g', assoc_get_iterator res g = Some (res, g')) ∧
  (res ≠ NULL → maintenance_lock g = true → assoc_get_iterator res g = None).
Proof.
  unfold assoc_get_iterator. repeat split.
  - intros ->. done.
  - intros Hn. unfold assoc_iterate_final. by rewrite Hn.
  - case_decide; simplify_eq/=; destruct (maintenance_lock g); by simplify_eq.
  - case_decide; simplify_eq/=; destruct (maintenance_lock g) eqn:?; by simplify_eq.
  - case_decide; simplify_eq/=; destruct (maintenance_lock g) eqn:?; by simplify_eq.
  - case_decide; simplify_eq/=; destruct (maintenance_lock g) eqn:?; simplify_eq/=; try done.
    by rewrite lookup_insert_eq.
  - case_decide; simplify_eq/=; destruct (maintenance_lock g) eqn:?; by simplify_eq.
  - intros Hres Hl. rewrite decide_False by done. simpl. rewrite Hl. eauto.
  - intros Hres Hl. rewrite decide_False by done. simpl. by rewrite Hl.
Qed.

(** ** A failed expansion *)

#[global] Arguments store : simpl never.
#[global] Arguments load : simpl never.
#[global] Arguments walk_fuel : simpl never.

Lemma load_set_old x s pos : load (set_old x s) pos = load s pos.
Proof. by destruct pos. Qed.

Lemma store_set_old x s pos v :
  store (set_old x s) pos v = set_old x <$> store s pos v.
Proof.
  unfold store. destruct pos as [a i|q]; simpl.
  - destruct (arrays s !! a) as [l|]; simpl; [|done]. by case_decide.
  - by destruct (items s !! q).
Qed.

Lemma before_loop_set_old fuel x s key n pos :
  before_loop fuel (set_old x s) key n pos = before_loop fuel s key n pos.
Proof.
  revert pos. induction fuel as [|fuel IH]; intros pos; simpl; [done|].
  rewrite load_set_old.
  destruct (load s pos) as [p|]; simpl; [|done].
  case_decide; [done|].
  destruct (items s !! p) as [i|]; simpl; [|done].
  by rewrite IH.
Qed.

Lemma push_set_old x s pos p :
  push (set_old x s) pos p = set_old x <$> push s pos p.
Proof.
  unfold push. rewrite load_set_old.
  destruct (load s pos) as [head|]; simpl; [|done].
  rewrite store_set_old.
  destruct (store s (HNext p) head) as [s1|]; simpl; [|done].
  apply store_set_old.
Qed.

Lemma unlink_set_old x s before :
  unlink (set_old x s) before = map_removed (set_old x) <$> unlink s before.
Proof.
  unfold unlink. rewrite !load_set_old.
  destruct (load s before) as [b|]; simpl; [|done].
  case_decide; [done|]. rewrite load_set_old.
  destruct (load s (HNext b)) as [nxt|]; simpl; [|done].
  rewrite store_set_old.
  destruct (store s (HNext b) 0) as [s1|]; simpl; [|done].
  rewrite store_set_old.
  by destruct (store s1 before nxt).
Qed.

Lemma assoc_insert_stable s p hv :
  expanding s = false →
  assoc_insert s p hv
  = push s (Bucket (primary_hashtable s) (Z.land hv (hashmask (hashpower s)))) p.
Proof. intros He. unfold assoc_insert. by rewrite He. Qed.

Lemma assoc_delete_stable s key n hv :
  expanding s = false →
  assoc_delete s key n hv
  = (before ← before_loop (walk_fuel s) s key n
       (Bucket (primary_hashtable s) (Z.land hv (hashmask (hashpower s))));
     unlink s before).
Proof. intros He. unfold assoc_delete, _hashitem_before. by rewrite He. Qed.

Lemma store_expanding s pos v s' :
  store s pos v = Some s' → expanding s' = expanding s.
Proof.
  unfold store. destruct pos as [a i|q]; simpl.
  - destruct (arrays s !! a) as [l|]; simpl; [|done].
    case_decide; intros; by simplify_eq.
  - destruct (items s !! q); simpl; intros; by simplify_eq.
Qed.

Lemma find_set_old x t key n hv :
  expanding t = false →
  assoc_find (set_old x t) key n hv = assoc_find t key n hv.
Proof. intros H. unfold assoc_find. simpl. by rewrite H. Qed.

Lemma insert_set_old x t p hv :
  expanding t = false →
  assoc_insert (set_old x t) p hv = set_old x <$> assoc_insert t p hv.
Proof. intros H. rewrite !assoc_insert_stable by done. apply push_set_old. Qed.

Lemma delete_set_old x t key n hv :
  expanding t = false →
  assoc_delete (set_old x t) key n hv
  = map_removed (set_old x) <$> assoc_delete t key n hv.
Proof.
  intros H. rewrite !assoc_delete_stable by done.
  change (walk_fuel (set_old x t)) with (walk_fuel t).
  change (primary_hashtable (set_old x t)) with (primary_hashtable t).
  change (hashpower (set_old x t)) with (hashpower t).
  rewrite before_loop_set_old.
  destruct (before_loop _ _ _ _ _) as [before|]; simpl; [|done].
  apply unlink_set_old.
Qed.

Lemma insert_keeps_stable t p hv t' :
  expanding t = false → assoc_insert t p hv = Some t' → expanding t' = false.
Proof.
  intros H. rewrite assoc_insert_stable by done. unfold push.
  destruct (load t _) as [head|]; simpl; [|done].
  destruct (store t (HNext p) head) as [s1|] eqn:H1; simpl; [|done].
  intros H2. apply store_expanding in H1, H2. congruence.
Qed.

Lemma delete_keeps_stable t key n hv t' :
  expanding t = false → assoc_delete t key n hv = Some (Removed t') →
  expanding t' = false.
Proof.
  intros H. rewrite assoc_delete_stable by done.
  destruct (before_loop _ _ _ _ _) as [before|]; simpl; [|done].
  unfold unlink.
  destruct (load t before) as [b|]; simpl; [|done].
  case_decide; [done|].
  destruct (load t (HNext b)) as [nxt|]; simpl; [|done].
  destruct (store t (HNext b) 0) as [s1|] eqn:H1; simpl; [|done].
  destruct (store s1 before nxt) as [s2|] eqn:H2; simpl; [|done].
  intros [= <-]. apply store_expanding in H1, H2. congruence.
Qed.

Lemma serve_set_old x cs : ∀ t,
  expanding t = false →
  serve (set_old x t) cs = prod_map id (set_old x) <$> serve t cs.
Proof.
  induction cs as [|c cs IH]; intros t H; [done|].
  destruct c as [key n hv|p hv|key n hv]; cbn [serve].
  - rewrite find_set_old by done.
    destruct (assoc_find t key n hv) as [r|]; simpl; [|done].
    rewrite IH by done.
    destruct (serve t cs) as [[rs t']|]; by simpl.
  - rewrite insert_set_old by done.
    destruct (assoc_insert t p hv) as [t1|] eqn:H1; simpl; [|done].
    apply IH. by eapply insert_keeps_stable.
  - rewrite delete_set_old by done.
    destruct (assoc_delete t key n hv) as [[t1|]|] eqn:H1; simpl; [|done..].
    apply IH. by eapply delete_keeps_stable.
Qed.

(** C4: when [calloc] fails in [assoc_expand] on a stable table, the hash
    power, the expanding flag, the primary array (its address and every
    block of slots) and the items are as before: only the unused pointer
    [old_hashtable] has changed; and every sequence of later calls of
    [assoc_find], [assoc_insert] and [assoc_delete] returns what it would
    have returned without the attempt and ends in the same table, up to
    that pointer. *)
Theorem expand_alloc_failure (s : table) :
  expanding s = false →
  assoc_expand NULL s = set_old (primary_hashtable s) s ∧
  hashpower (assoc_expand NULL s) = hashpower s ∧
  expanding (assoc_expand NULL s) = false ∧
  primary_hashtable (assoc_expand NULL s) = primary_hashtable s ∧
  arrays (assoc_expand NULL s) = arrays s ∧
  items (assoc_expand NULL s) = items s ∧
  expand_bucket (assoc_expand NULL s) = expand_bucket s ∧
  (∀ key n hv,
     assoc_find (assoc_expand NULL s) key n hv = assoc_find s key n hv) ∧
  (∀ p hv,
     assoc_insert (assoc_expand NULL s) p hv
     = set_old (primary_hashtable s) <$> assoc_insert s p hv) ∧
  (∀ key n hv,
     assoc_delete (assoc_expand NULL s) key n hv
     = map_removed (set_old (primary_hashtable s)) <$> assoc_delete s key n hv) ∧
  (∀ cs,
     serve (assoc_expand NULL s) cs
     = prod_map id (set_old (primary_hashtable s)) <$> serve s cs).
Proof.
  intros He.
  assert (assoc_expand NULL s = set_old (primary_hashtable s) s) as ->.
  { unfold assoc_expand, calloc. simpl. by unfold set_primary, set_old. }
  repeat split; try done.
  - intros. by apply find_set_old.
  - intros. by apply insert_set_old.
  - intros. by apply delete_set_old.
  - intros. by apply serve_set_old.
Qed.

(** ** Stores and head insertion *)

Lemma store_bucket s a arr b v :
  arrays s !! a = Some arr → (Z.to_nat b < length arr)%nat →
  store s (Bucket a b) v
  = Some (set_arrays (<[a := <[Z.to_nat b := v]> arr]> (arrays s)) s).
Proof. intros Ha Hb. unfold store. rewrite Ha. simpl. by rewrite decide_True. Qed.

Lemma store_hnext s q i v :
  items s !! q = Some i →
  store s (HNext q) v = Some (set_items (<[q := set_h_next v i]> (items s)) s).
Proof. intros Hq. unfold store. by rewrite Hq. Qed.

Lemma push_bucket s a arr b head q i :
  arrays s !! a = Some arr → arr !! Z.to_nat b = Some head →
  items s !! q = Some i →
  push s (Bucket a b) q
  = Some (set_arrays (<[a := <[Z.to_nat b := q]> arr]> (arrays s))
            (set_items (<[q := set_h_next head i]> (items s)) s)).
Proof.
  intros Ha Hb Hq. unfold push, load, arr_load. rewrite Ha. simpl.
  rewrite Hb. simpl. rewrite (store_hnext _ _ i) by done. simpl.
  rewrite (store_bucket _ _ arr); [done|done|]. by eapply lookup_lt_Some.
Qed.

Lemma elem_of_concat (L : list (list Z)) q :
  q ∈ concat L ↔ ∃ (b : nat) l, L !! b = Some l ∧ q ∈ l.
Proof.
  induction L as [|x L IH]; simpl.
  - split; [by intros ?%not_elem_of_nil|by intros (b & l & ? & _)].
  - rewrite elem_of_app, IH. split.
    + intros [Hq|(b & l & Hb & Hq)]; [by exists 0%nat, x|by exists (S b), l].
    + intros ([|b] & l & Hb & Hq); simpl in Hb; [left; by simplify_eq|].
      right. by exists b, l.
Qed.

Lemma elem_of_concat_lookup (L : list (list Z)) (b : nat) l q :
  L !! b = Some l → q ∈ l → q ∈ concat L.
Proof. intros HL Hq. apply elem_of_concat. eauto. Qed.

Lemma chains_push h arr L (idx : nat) head l q i :
  Forall2 (chain h) arr L → arr !! idx = Some head → L !! idx = Some l →
  h !! q = Some i → q ≠ NULL → q ∉ concat L →
  Forall2 (chain (<[q := set_h_next head i]> h))
          (<[idx := q]> arr) (<[idx := q :: l]> L).
Proof.
  intros HF Ha HL Hq Hn Hfresh.
  apply Forall2_insert; [by apply chains_frame|].
  apply (chain_cons _ q (set_h_next head i) l);
    [done|by rewrite lookup_insert_eq|]. simpl.
  apply chain_frame.
  - by eapply (Forall2_lookup_lr _ _ _ _ _ _ HF).
  - intros Hin. apply Hfresh. by eapply elem_of_concat_lookup.
Qed.

Lemma concat_insert_perm (L : list (list Z)) (idx : nat) l l' :
  L !! idx = Some l → concat (<[idx := l']> L) ++ l ≡ₚ concat L ++ l'.
Proof.
  revert idx. induction L as [|x L IH]; intros [|idx] HL; simpl in *; try done.
  - injection HL as ->.
    rewrite (Permutation_app_comm l' (concat L)), <- (assoc_L (++)).
    rewrite (Permutation_app_comm l (concat L)), <- (assoc_L (++)).
    f_equiv. apply Permutation_app_comm.
  - rewrite <- !(assoc_L (++)). f_equiv. by apply IH.
Qed.

Lemma concat_insert_cons (L : list (list Z)) (idx : nat) l q :
  L !! idx = Some l → concat (<[idx := q :: l]> L) ≡ₚ q :: concat L.
Proof.
  intros HL. apply (Permutation_app_inv_r l).
  rewrite (concat_insert_perm _ _ _ _ HL).
  rewrite (Permutation_app_comm (concat L)). simpl.
  by rewrite (Permutation_app_comm l).
Qed.

Lemma bucketwise_insert Q (L : list (list Z)) (idx : nat) l' :
  bucketwise Q L → Q (Z.of_nat idx) l' → bucketwise Q (<[idx := l']> L).
Proof.
  intros HQ Hl b l Hb. destruct (decide (idx = b)) as [->|Hne].
  - apply list_lookup_insert_Some in Hb as [(_ & <- & _)|[? _]]; done.
  - rewrite list_lookup_insert_ne in Hb by done. by apply HQ.
Qed.

Lemma bucketwise_impl (Q Q' : Z → list Z → Prop) (L : list (list Z)) :
  bucketwise Q L → (∀ b l, Q b l → Q' b l) → bucketwise Q' L.
Proof. intros HQ Himp b l Hb. by apply Himp, HQ. Qed.

Lemma same_frame_refl s : same_frame s s.
Proof. by repeat split. Qed.

Lemma same_frame_trans s1 s2 s3 :
  same_frame s1 s2 → same_frame s2 s3 → same_frame s1 s3.
Proof.
  intros (?&?&?&?&?&Hb1&Hk1) (?&?&?&?&?&Hb2&Hk2).
  repeat split; try congruence.
Qed.

Lemma shape_same_frame s s' : same_frame s s' → shape s → shape s'.
Proof.
  intros (Hhp & Hp & Ho & He & Heb & Hbl & _) (H1 & H2 & H3 & H4).
  unfold shape. rewrite Hhp, Hp, Ho, He, Heb, !Hbl. done.
Qed.

Lemma block_len_insert s a arr arr' c :
  arrays s !! a = Some arr → length arr' = length arr →
  block_len (set_arrays (<[a := arr']> (arrays s)) s) c = block_len s c.
Proof.
  intros Ha Hl. unfold block_len. simpl.
  destruct (decide (a = c)) as [->|Hne].
  - rewrite lookup_insert_eq, Ha. simpl. by rewrite Hl.
  - by rewrite lookup_insert_ne.
Qed.

Lemma store_same_frame s pos v s' :
  store s pos v = Some s' → same_frame s s'.
Proof.
  unfold store. destruct pos as [a b|q].
  - destruct (arrays s !! a) as [arr|] eqn:Ha; simpl; [|done].
    case_decide; [|done]. intros [= <-]. repeat split.
    intros c. apply (block_len_insert _ _ arr); [done|]. by rewrite length_insert.
  - destruct (items s !! q) as [i|] eqn:Hq; simpl; [|done].
    intros [= <-]. repeat split. simpl. by apply same_keys_insert.
Qed.

Lemma block_len_lookup s a n :
  block_len s a = Some n → ∃ arr, arrays s !! a = Some arr ∧ Z.of_nat (length arr) = n.
Proof.
  unfold block_len. destruct (arrays s !! a) as [arr|]; simpl; [|done].
  intros [= <-]. eauto.
Qed.

Lemma pow2_pos (n : Z) : 0 ≤ n → 0 < 2 ^ n.
Proof. intros. apply Z.pow_pos_nonneg; lia. Qed.

Lemma mod_pow2_half (x hp : Z) :
  1 ≤ hp → (x mod 2 ^ hp) mod 2 ^ (hp - 1) = x mod 2 ^ (hp - 1).
Proof.
  intros Hhp. apply Z.mod_mod_divide.
  exists 2. replace hp with (1 + (hp - 1)) at 1 by lia.
  rewrite Z.pow_add_r by lia. done.
Qed.

Lemma u32_small (z : Z) : 0 ≤ z < 2 ^ 32 → u32 z = z.
Proof. intros. unfold u32. by apply Z.mod_small. Qed.

(** ** Well-formed tables *)

Section Table.

Variable hash : list byte → Z.

Lemma hash32_range key n : 0 ≤ hash32 hash key n < 2 ^ 32.
Proof. unfold hash32, u32. apply Z.mod_pos_bound. lia. Qed.

Lemma home_mod hp i :
  0 ≤ hp ≤ 63 → home hash hp i = hash32 hash (ITEM_key i) (nkey i) mod 2 ^ hp.
Proof. intros. unfold home. by apply land_hashmask. Qed.

Lemma home_set_h_next hp v i : home hash hp (set_h_next v i) = home hash hp i.
Proof. done. Qed.

Lemma kids_NoDup_cons (h h' : gmap Z item) q i (l l' : list Z) :
  same_keys h h' → h !! q = Some i →
  l' ≡ₚ q :: l →
  (∀ p, p ∈ l → item_kid <$> h !! p ≠ Some (item_kid i)) →
  NoDup ((λ p, item_kid <$> h !! p) <$> l) →
  NoDup ((λ p, item_kid <$> h' !! p) <$> l').
Proof.
  intros Hk Hq Hperm Hfresh Hnd.
  assert ((λ p, item_kid <$> h' !! p) <$> l'
          = (λ p, item_kid <$> h !! p) <$> l') as ->.
  { apply list_fmap_ext. intros ? p _. by apply same_keys_kid. }
  rewrite Hperm. simpl. constructor; [|done].
  rewrite Hq. simpl. intros Hin. apply list_elem_of_fmap in Hin as (p & Hp & Hin).
  by apply (Hfresh p).
Qed.

Lemma placed_same_frame s s' hp b l :
  same_keys (items s) (items s') → placed hash s hp b l → placed hash s' hp b l.
Proof.
  intros Hk. unfold placed. intros HF. eapply Forall_impl; [done|].
  intros p Hp. simpl in *. by rewrite (same_keys_home _ _ _ _ _ Hk).
Qed.

Lemma push_primary_wf s P O q i :
  views s P O → wf_view hash s (P, O) →
  items s !! q = Some i → q ≠ NULL → q ∉ concat P ++ concat O →
  (∀ p, p ∈ concat P ++ concat O → item_kid <$> items s !! p ≠ Some (item_kid i)) →
  (expanding s = true →
   hash32 hash (ITEM_key i) (nkey i) mod 2 ^ (hashpower s - 1) < expand_bucket s) →
  ∃ s' l,
    let b := hash32 hash (ITEM_key i) (nkey i) mod 2 ^ hashpower s in
    push s (Bucket (primary_hashtable s) b) q = Some s' ∧
    P !! Z.to_nat b = Some l ∧
    views s' (<[Z.to_nat b := q :: l]> P) O ∧
    wf_view hash s' (<[Z.to_nat b := q :: l]> P, O) ∧
    same_frame s s'.
Proof.
  intros [(Parr & HParr & HFP) HO] (Hsh & Hnd & HplP & HplO & Hfr) Hq Hn Hfresh Hkey Hside.
  pose proof Hsh as (Hhp & Hpn & HlenP & Hexp).
  set (hv := hash32 hash (ITEM_key i) (nkey i)) in *.
  set (b := hv mod 2 ^ hashpower s).
  assert (Hb : 0 ≤ b < 2 ^ hashpower s).
  { apply Z.mod_pos_bound, pow2_pos. lia. }
  apply block_len_lookup in HlenP as (Parr' & HParr' & HlenP).
  rewrite HParr in HParr'. injection HParr' as <-.
  rewrite hashsize_pow2 in HlenP by done.
  destruct (lookup_lt_is_Some_2 Parr (Z.to_nat b)) as [head Hhead]; [lia|].
  destruct (lookup_lt_is_Some_2 P (Z.to_nat b)) as [l Hl].
  { rewrite <- (Forall2_length _ _ _ HFP). lia. }
  eexists _, l. cbn zeta.
  split; [by eapply push_bucket|]. split; [done|].
  assert (HqP : q ∉ concat P) by (intros ?; apply Hfresh, elem_of_app; by left).
  assert (HqO : q ∉ concat O) by (intros ?; apply Hfresh, elem_of_app; by right).
  assert (Hkeys : same_keys (items s) (<[q := set_h_next head i]> (items s)))
    by by apply same_keys_insert.
  assert (Hframe : same_frame s
    (set_arrays (<[primary_hashtable s := <[Z.to_nat b := q]> Parr]> (arrays s))
       (set_items (<[q := set_h_next head i]> (items s)) s))).
  { repeat split; [|done]. intros c.
    unfold block_len. simpl. destruct (decide (primary_hashtable s = c)) as [<-|].
    - rewrite lookup_insert_eq, HParr. simpl. by rewrite length_insert.
    - by rewrite lookup_insert_ne. }
  split; [|split; [|done]].
  - split; simpl.
    + eexists. rewrite lookup_insert_eq. split; [done|]. by eapply chains_push.
    + destruct (expanding s) eqn:He; [|done].
      destruct HO as (Oarr & HOarr & HFO). destruct Hexp as (_ & Hne & _); [done|].
      exists Oarr. rewrite lookup_insert_ne by done. split; [done|].
      by apply chains_frame.
  - split; [by eapply shape_same_frame|]. simpl. split; [|split; [|split]].
    + eapply (kids_NoDup_cons (items s)); [done|done| |done|done].
      unfold linked_of. simpl. by rewrite (concat_insert_cons _ _ _ _ Hl).
    + apply bucketwise_insert.
      * eapply bucketwise_impl; [done|]. intros. by eapply placed_same_frame.
      * constructor.
        -- simpl. rewrite lookup_insert_eq. simpl. f_equal.
           rewrite home_set_h_next, home_mod by done. fold hv. fold b. lia.
        -- specialize (HplP _ _ Hl). by eapply placed_same_frame.
    + eapply bucketwise_impl; [done|]. intros. by eapply placed_same_frame.
    + intros He. destruct (Hfr He) as [HfP HfO]. split; [|done].
      apply bucketwise_insert; [done|]. intros Hle. exfalso.
      destruct Hexp as (_ & _ & Hhp1 & _); [done|].
      rewrite Z2Nat.id, land_hashmask in Hle by lia.
      unfold b in Hle. rewrite mod_pow2_half in Hle by done.
      specialize (Hside He). lia.
Qed.

Lemma push_old_wf s P O q i :
  views s P O → wf_view hash s (P, O) →
  items s !! q = Some i → q ≠ NULL → q ∉ concat P ++ concat O →
  (∀ p, p ∈ concat P ++ concat O → item_kid <$> items s !! p ≠ Some (item_kid i)) →
  expanding s = true →
  expand_bucket s ≤ hash32 hash (ITEM_key i) (nkey i) mod 2 ^ (hashpower s - 1) →
  ∃ s' l,
    let b := hash32 hash (ITEM_key i) (nkey i) mod 2 ^ (hashpower s - 1) in
    push s (Bucket (old_hashtable s) b) q = Some s' ∧
    O !! Z.to_nat b = Some l ∧
    views s' P (<[Z.to_nat b := q :: l]> O) ∧
    wf_view hash s' (P, <[Z.to_nat b := q :: l]> O) ∧
    same_frame s s'.
Proof.
  intros [(Parr & HParr & HFP) HO] (Hsh & Hnd & HplP & HplO & Hfr) Hq Hn Hfresh Hkey He Hside.
  pose proof Hsh as (Hhp & Hpn & HlenP & Hexp).
  destruct (Hexp He) as (Hon & Hne & Hhp1 & Heb & HlenO).
  rewrite He in HO. destruct HO as (Oarr & HOarr & HFO).
  set (hv := hash32 hash (ITEM_key i) (nkey i)) in *.
  set (b := hv mod 2 ^ (hashpower s - 1)) in *.
  assert (Hb : 0 ≤ b < 2 ^ (hashpower s - 1)).
  { apply Z.mod_pos_bound, pow2_pos. lia. }
  apply block_len_lookup in HlenO as (Oarr' & HOarr' & HlenO).
  rewrite HOarr in HOarr'. injection HOarr' as <-.
  rewrite hashsize_pow2 in HlenO by lia.
  destruct (lookup_lt_is_Some_2 Oarr (Z.to_nat b)) as [head Hhead]; [lia|].
  destruct (lookup_lt_is_Some_2 O (Z.to_nat b)) as [l Hl].
  { rewrite <- (Forall2_length _ _ _ HFO). lia. }
  eexists _, l. cbn zeta.
  split; [by eapply push_bucket|]. split; [done|].
  assert (HqP : q ∉ concat P) by (intros ?; apply Hfresh, elem_of_app; by left).
  assert (HqO : q ∉ concat O) by (intros ?; apply Hfresh, elem_of_app; by right).
  assert (Hkeys : same_keys (items s) (<[q := set_h_next head i]> (items s)))
    by by apply same_keys_insert.
  assert (Hframe : same_frame s
    (set_arrays (<[old_hashtable s := <[Z.to_nat b := q]> Oarr]> (arrays s))
       (set_items (<[q := set_h_next head i]> (items s)) s))).
  { repeat split; [|done]. intros c.
    unfold block_len. simpl. destruct (decide (old_hashtable s = c)) as [<-|].
    - rewrite lookup_insert_eq, HOarr. simpl. by rewrite length_insert.
    - by rewrite lookup_insert_ne. }
  split; [|split; [|done]].
  - split; simpl.
    + exists Parr. rewrite lookup_insert_ne by done. split; [done|].
      by apply chains_frame.
    + rewrite He. eexists. rewrite lookup_insert_eq. split; [done|].
      by eapply chains_push.
  - split; [by eapply shape_same_frame|]. simpl. split; [|split; [|split]].
    + eapply (kids_NoDup_cons (items s)); [done|done| |done|done].
      unfold linked_of. simpl. rewrite (concat_insert_cons _ _ _ _ Hl).
      by rewrite <- Permutation_middle.
    + eapply bucketwise_impl; [done|]. intros. by eapply placed_same_frame.
    + apply bucketwise_insert.
      * eapply bucketwise_impl; [done|]. intros. by eapply placed_same_frame.
      * constructor.
        -- simpl. rewrite lookup_insert_eq. simpl. f_equal.
           rewrite home_set_h_next, home_mod by lia. fold hv. fold b. lia.
        -- specialize (HplO _ _ Hl). by eapply placed_same_frame.
    + intros _. destruct (Hfr He) as [HfP HfO]. split; [done|].
      apply bucketwise_insert; [done|]. intros Hlt. exfalso.
      rewrite Z2Nat.id in Hlt by lia. lia.
Qed.

Lemma bucket_slot_shape s hv :
  shape s →
  bucket_slot s hv =
    if expanding s && bool_decide (expand_bucket s ≤ hv mod 2 ^ (hashpower s - 1))
    then Bucket (old_hashtable s) (hv mod 2 ^ (hashpower s - 1))
    else Bucket (primary_hashtable s) (hv mod 2 ^ hashpower s).
Proof.
  intros (Hhp & Hpn & HlenP & Hexp).
  assert (Hp : Z.land hv (primary_length s - 1) = hv mod 2 ^ hashpower s).
  { unfold primary_length. rewrite hashsize_pow2 by done.
    rewrite <- Z.land_ones by lia. by rewrite Z.ones_equiv, Z.sub_1_r. }
  unfold bucket_slot. rewrite Hp.
  destruct (expanding s) eqn:He; [|done]. simpl.
  destruct Hexp as (_ & _ & Hhp1 & _); [done|].
  assert (Ho : Z.land hv (old_length s - 1) = hv mod 2 ^ (hashpower s - 1)).
  { unfold old_length. rewrite hashsize_pow2 by lia.
    rewrite <- Z.land_ones by lia. by rewrite Z.ones_equiv, Z.sub_1_r. }
  rewrite Ho. by case_decide; case_bool_decide.
Qed.

Lemma shape_hashpower s : shape s → 0 ≤ hashpower s < 2 ^ 32.
Proof. intros (Hhp & _). lia. Qed.

(** [assoc_insert] of an item that is not linked and whose key is not in
    the table, with the hash of its key. *)
Lemma insert_wf s q i :
  wf hash s → items s !! q = Some i → q ≠ NULL → q ∉ linked s →
  (∀ p, p ∈ linked s → item_kid <$> items s !! p ≠ Some (item_kid i)) →
  ∃ s', assoc_insert s q (hash32 hash (ITEM_key i) (nkey i)) = Some s' ∧
        wf hash s' ∧ linked s' ≡ₚ q :: linked s ∧ same_frame s s'.
Proof.
  intros Hwf Hq Hn Hfresh Hkey.
  apply wf_views in Hwf as (P & O & Hv & Hw).
  rewrite (linked_views _ _ _ Hv) in Hfresh, Hkey.
  pose proof Hw as (Hsh & _).
  pose proof (hash32_range (ITEM_key i) (nkey i)) as Hhv.
  destruct (addressing s _ Hhv (shape_hashpower _ Hsh)) as (_ & -> & _).
  rewrite bucket_slot_shape by done.
  set (hv := hash32 hash (ITEM_key i) (nkey i)) in *.
  destruct (expanding s) eqn:He; simpl; [case_bool_decide as Hle; simpl|].
  - destruct (push_old_wf s P O q i Hv Hw Hq Hn Hfresh Hkey He Hle)
      as (s' & l & Hpush & Hl & Hv' & Hw' & Hfr).
    exists s'. split; [exact Hpush|]. split; [apply wf_views; eauto|]. split; [|done].
    rewrite (linked_views _ _ _ Hv'), (linked_views _ _ _ Hv), (concat_insert_cons _ _ _ _ Hl).
    by rewrite <- Permutation_middle.
  - assert (Hside : expanding s = true →
      hv mod 2 ^ (hashpower s - 1) < expand_bucket s) by (intros _; lia).
    destruct (push_primary_wf s P O q i Hv Hw Hq Hn Hfresh Hkey Hside)
      as (s' & l & Hpush & Hl & Hv' & Hw' & Hfr).
    exists s'. split; [exact Hpush|]. split; [apply wf_views; eauto|]. split; [|done].
    by rewrite (linked_views _ _ _ Hv'), (linked_views _ _ _ Hv), (concat_insert_cons _ _ _ _ Hl).
  - assert (Hside : expanding s = true →
      hv mod 2 ^ (hashpower s - 1) < expand_bucket s) by (by rewrite He).
    destruct (push_primary_wf s P O q i Hv Hw Hq Hn Hfresh Hkey Hside)
      as (s' & l & Hpush & Hl & Hv' & Hw' & Hfr).
    exists s'. split; [exact Hpush|]. split; [apply wf_views; eauto|]. split; [|done].
    by rewrite (linked_views _ _ _ Hv'), (linked_views _ _ _ Hv), (concat_insert_cons _ _ _ _ Hl).
Qed.

(** ** Looking up a key in a well-formed table *)

Lemma key_matches_kid key n i :
  key_matches key n i = true ↔ item_kid i = kid key n.
Proof.
  unfold key_matches, memcmp_eq, item_kid, kid. split.
  - intros [Hn Hk]%andb_prop. apply Z.eqb_eq in Hn.
    apply bool_decide_eq_true in Hk. subst. by rewrite Hk.
  - intros [= Hn Hk]. subst n. apply andb_true_intro.
    split; [by apply Z.eqb_eq|]. by apply bool_decide_eq_true.
Qed.

Lemma matchb_kid (h : gmap Z item) key n p :
  matchb h key n p = true ↔ item_kid <$> h !! p = Some (kid key n).
Proof.
  unfold matchb. destruct (h !! p) as [i|]; simpl; [|done].
  rewrite key_matches_kid. split; congruence.
Qed.

Lemma kid_hash32 i key n :
  item_kid i = kid key n → hash32 hash (ITEM_key i) (nkey i) = hash32 hash key n.
Proof. unfold item_kid, kid, hash32. intros [= -> ->]. done. Qed.

Lemma NoDup_fmap_inj {A B} (f : A → B) (l : list A) x y :
  NoDup (f <$> l) → x ∈ l → y ∈ l → f x = f y → x = y.
Proof.
  induction l as [|a l IH]; simpl; [by intros _ ?%not_elem_of_nil|].
  intros [Ha Hnd]%NoDup_cons [->|Hx]%elem_of_cons [->|Hy]%elem_of_cons Heq;
    try done.
  - exfalso. apply Ha. rewrite Heq. by apply list_elem_of_fmap_2.
  - exfalso. apply Ha. rewrite <- Heq. by apply list_elem_of_fmap_2.
  - by apply IH.
Qed.

Lemma primary_slot s P O b :
  views s P O → shape s → 0 ≤ b < 2 ^ hashpower s →
  ∃ head l, load s (Bucket (primary_hashtable s) b) = Some head ∧
            P !! Z.to_nat b = Some l ∧ chain (items s) head l.
Proof.
  intros [(Parr & HParr & HFP) _] (Hhp & Hpn & HlenP & _) Hb.
  apply block_len_lookup in HlenP as (Parr' & HParr' & HlenP).
  rewrite HParr in HParr'. injection HParr' as <-.
  rewrite hashsize_pow2 in HlenP by done.
  destruct (lookup_lt_is_Some_2 Parr (Z.to_nat b)) as [head Hhead]; [lia|].
  destruct (lookup_lt_is_Some_2 P (Z.to_nat b)) as [l Hl].
  { rewrite <- (Forall2_length _ _ _ HFP). lia. }
  exists head, l. unfold load, arr_load. rewrite HParr. simpl.
  repeat split; try done. by eapply (Forall2_lookup_lr _ _ _ _ _ _ HFP).
Qed.

Lemma old_slot s P O b :
  views s P O → shape s → expanding s = true →
  0 ≤ b < 2 ^ (hashpower s - 1) →
  ∃ head l, load s (Bucket (old_hashtable s) b) = Some head ∧
            O !! Z.to_nat b = Some l ∧ chain (items s) head l.
Proof.
  intros [_ HO] (Hhp & Hpn & _ & Hexp) He Hb. rewrite He in HO.
  destruct HO as (Oarr & HOarr & HFO).
  destruct (Hexp He) as (_ & _ & Hhp1 & _ & HlenO).
  apply block_len_lookup in HlenO as (Oarr' & HOarr' & HlenO).
  rewrite HOarr in HOarr'. injection HOarr' as <-.
  rewrite hashsize_pow2 in HlenO by lia.
  destruct (lookup_lt_is_Some_2 Oarr (Z.to_nat b)) as [head Hhead]; [lia|].
  destruct (lookup_lt_is_Some_2 O (Z.to_nat b)) as [l Hl].
  { rewrite <- (Forall2_length _ _ _ HFO). lia. }
  exists head, l. unfold load, arr_load. rewrite HOarr. simpl.
  repeat split; try done. by eapply (Forall2_lookup_lr _ _ _ _ _ _ HFO).
Qed.

(** The one chain in which an item with a given key can be: the chain of the
    slot that the addressing rule names for the hash of the key. *)
Lemma slot_chain s P O hv :
  views s P O → shape s →
  ∃ head l, load s (bucket_slot s hv) = Some head ∧ chain (items s) head l ∧
    ((bucket_slot s hv = Bucket (primary_hashtable s) (hv mod 2 ^ hashpower s) ∧
      P !! Z.to_nat (hv mod 2 ^ hashpower s) = Some l ∧
      (expanding s = true → hv mod 2 ^ (hashpower s - 1) < expand_bucket s)) ∨
     (bucket_slot s hv = Bucket (old_hashtable s) (hv mod 2 ^ (hashpower s - 1)) ∧
      O !! Z.to_nat (hv mod 2 ^ (hashpower s - 1)) = Some l ∧
      expanding s = true ∧
      expand_bucket s ≤ hv mod 2 ^ (hashpower s - 1))).
Proof.
  intros Hv Hsh. rewrite bucket_slot_shape by done.
  pose proof Hsh as (Hhp & _ & _ & Hexp).
  assert (HbP : 0 ≤ hv mod 2 ^ hashpower s < 2 ^ hashpower s).
  { apply Z.mod_pos_bound, pow2_pos. lia. }
  destruct (expanding s) eqn:He; simpl; [case_bool_decide as Hle|].
  - destruct (Hexp eq_refl) as (_ & _ & Hhp1 & _).
    destruct (old_slot s P O (hv mod 2 ^ (hashpower s - 1)) Hv Hsh He)
      as (head & l & Hload & Hl & Hc).
    { apply Z.mod_pos_bound, pow2_pos. lia. }
    exists head, l. split; [done|]. split; [done|]. by right.
  - destruct (primary_slot s P O _ Hv Hsh HbP) as (head & l & Hload & Hl & Hc).
    exists head, l. split; [done|]. split; [done|]. left.
    repeat split; try done. intros _. lia.
  - destruct (primary_slot s P O _ Hv Hsh HbP) as (head & l & Hload & Hl & Hc).
    exists head, l. split; [done|]. split; [done|]. left.
    repeat split; done.
Qed.

Lemma nat_of_Z_inj (a : nat) (b : Z) : Z.of_nat a = b → a = Z.to_nat b.
Proof. lia. Qed.

(** A linked item whose key matches is in the chain of [slot_chain]. *)
Lemma match_in_slot s P O key n p l :
  views s P O → wf_view hash s (P, O) →
  p ∈ concat P ++ concat O → matchb (items s) key n p = true →
  let hv := hash32 hash key n in
  ((P !! Z.to_nat (hv mod 2 ^ hashpower s) = Some l ∧
    (expanding s = true → hv mod 2 ^ (hashpower s - 1) < expand_bucket s)) ∨
   (O !! Z.to_nat (hv mod 2 ^ (hashpower s - 1)) = Some l ∧
    expanding s = true ∧
    expand_bucket s ≤ hv mod 2 ^ (hashpower s - 1))) →
  p ∈ l.
Proof.
  intros Hv (Hsh & Hnd & HplP & HplO & Hfr) Hp Hm hv Hcase.
  pose proof Hsh as (Hhp & _ & _ & Hexp).
  apply matchb_kid in Hm.
  destruct (items s !! p) as [i|] eqn:Hi; simpl in Hm; [|done].
  assert (Hkid : hash32 hash (ITEM_key i) (nkey i) = hv)
    by (apply kid_hash32; congruence).
  apply elem_of_app in Hp as [Hp|Hp]; apply elem_of_concat in Hp as (b & l' & Hb & Hp).
  - pose proof (HplP _ _ Hb) as Hpl. unfold placed in Hpl.
    rewrite Forall_forall in Hpl. specialize (Hpl _ Hp).
    rewrite Hi in Hpl. simpl in Hpl. injection Hpl as Hhome.
    rewrite home_mod, Hkid in Hhome by done. apply eq_sym, nat_of_Z_inj in Hhome.
    subst b. destruct Hcase as [[Hl _]|(Hl & He & Hle)].
    + simpl in Hb. rewrite Hl in Hb. by injection Hb as ->.
    + exfalso. destruct (Hfr He) as [HfP _].
      destruct (Hexp He) as (_ & _ & Hhp1 & _).
      assert (l' = []) as ->; [|by apply not_elem_of_nil in Hp].
      apply (HfP _ _ Hb).
      assert (0 ≤ hv mod 2 ^ hashpower s).
      { apply Z.mod_pos_bound, pow2_pos. lia. }
      rewrite Z2Nat.id, land_hashmask, mod_pow2_half by lia. done.
  - destruct (expanding s) eqn:He.
    2:{ destruct Hv as [_ HO]. rewrite He in HO. subst O. done. }
    destruct (Hexp eq_refl) as (_ & _ & Hhp1 & _).
    pose proof (HplO _ _ Hb) as Hpl. unfold placed in Hpl.
    rewrite Forall_forall in Hpl. specialize (Hpl _ Hp).
    rewrite Hi in Hpl. simpl in Hpl. injection Hpl as Hhome.
    rewrite home_mod, Hkid in Hhome by lia. apply eq_sym, nat_of_Z_inj in Hhome.
    subst b. destruct Hcase as [[Hl Hlt]|(Hl & _ & Hle)].
    + exfalso. destruct (Hfr eq_refl) as [_ HfO].
      assert (l' = []) as ->; [|by apply not_elem_of_nil in Hp].
      apply (HfO _ _ Hb).
      assert (0 ≤ hv mod 2 ^ (hashpower s - 1)).
      { apply Z.mod_pos_bound, pow2_pos. lia. }
      rewrite Z2Nat.id by lia. by apply Hlt.
    + simpl in Hb. rewrite Hl in Hb. by injection Hb as ->.
Qed.

Lemma find_wf s key n :
  wf hash s →
  ∃ r, assoc_find s key n (hash32 hash key n) = Some r ∧
       ((r = NULL ∧ ∀ p, p ∈ linked s → matchb (items s) key n p = false) ∨
        (r ∈ linked s ∧ matchb (items s) key n r = true)).
Proof.
  intros Hwf. apply wf_views in Hwf as (P & O & Hv & Hw).
  pose proof Hw as (Hsh & _).
  pose proof (hash32_range key n) as Hhv.
  destruct (addressing s _ Hhv (shape_hashpower _ Hsh)) as (-> & _).
  destruct (slot_chain s P O (hash32 hash key n) Hv Hsh)
    as (head & l & -> & Hc & Hcase). cbn [mbind option_bind].
  rewrite (find_loop_chain _ _ _ _ _ l) by
    (done || (apply chain_length in Hc; unfold walk_fuel; lia)).
  eexists. split; [done|]. rewrite (linked_views _ _ _ Hv).
  assert (Hsub : ∀ p, p ∈ l → p ∈ concat P ++ concat O).
  { intros p Hp. apply elem_of_app.
    destruct Hcase as [(_ & Hl & _)|(_ & Hl & _)]; [left|right];
      by eapply elem_of_concat_lookup. }
  destruct (decide (first_match (items s) key n l = NULL)) as [Hnull|Hfound].
  - left. split; [done|]. intros p Hp.
    destruct (matchb (items s) key n p) eqn:Hm; [|done]. exfalso.
    assert (Hin : p ∈ l).
    { eapply (match_in_slot s P O key n p l); try done.
      destruct Hcase as [(_ & Hl & ?)|(_ & Hl & ? & ?)]; [by left|by right]. }
    apply first_match_null in Hnull; [|by eapply chain_not_null].
    rewrite Forall_forall in Hnull. specialize (Hnull _ Hin). congruence.
  - right. destruct (first_match_elem _ _ _ _ Hfound) as [Hin Hm]. auto.
Qed.

Lemma matchb_self (h : gmap Z item) p i :
  h !! p = Some i → matchb h (ITEM_key i) (nkey i) p = true.
Proof. intros Hp. apply matchb_kid. by rewrite Hp. Qed.

Lemma wf_kids_NoDup s :
  wf hash s → NoDup ((λ p, item_kid <$> items s !! p) <$> linked s).
Proof.
  intros Hwf. apply wf_views in Hwf as (P & O & Hv & Hw).
  rewrite (linked_views _ _ _ Hv). by destruct Hw as (_ & Hnd & _).
Qed.

Lemma wf_linked_NoDup s : wf hash s → NoDup (linked s).
Proof. intros Hwf. eapply NoDup_fmap_1, wf_kids_NoDup, Hwf. Qed.

Lemma linked_match_unique s key n p q :
  wf hash s → p ∈ linked s → q ∈ linked s →
  matchb (items s) key n p = true → matchb (items s) key n q = true → p = q.
Proof.
  intros Hwf Hp Hq Hmp Hmq. apply matchb_kid in Hmp, Hmq.
  eapply (NoDup_fmap_inj (λ p, item_kid <$> items s !! p));
    [by apply wf_kids_NoDup|done|done|]. simpl. congruence.
Qed.

(** In a well-formed table a linked item is found under its key. *)
Lemma find_linked s p i :
  wf hash s → p ∈ linked s → items s !! p = Some i →
  assoc_find s (ITEM_key i) (nkey i) (hash32 hash (ITEM_key i) (nkey i)) = Some p.
Proof.
  intros Hwf Hp Hi.
  destruct (find_wf s (ITEM_key i) (nkey i) Hwf) as (r & -> & [[_ Hno]|[Hr Hm]]).
  - specialize (Hno _ Hp). rewrite (matchb_self _ _ _ Hi) in Hno. done.
  - f_equal. eapply linked_match_unique; eauto using matchb_self.
Qed.

Lemma linked_elem s p : wf hash s → p ∈ linked s → p ≠ NULL ∧ is_Some (items s !! p).
Proof.
  intros Hwf Hp. apply wf_views in Hwf as (P & O & Hv & Hw).
  rewrite (linked_views _ _ _ Hv) in Hp.
  destruct Hv as [(Parr & _ & HFP) HO].
  apply elem_of_app in Hp as [Hp|Hp]; apply elem_of_concat in Hp as (b & l & Hb & Hp).
  - destruct (Forall2_lookup_r _ _ _ _ _ HFP Hb) as (head & _ & Hc).
    by eapply chain_elem.
  - destruct (expanding s); [|by subst O].
    destruct HO as (Oarr & _ & HFO).
    destruct (Forall2_lookup_r _ _ _ _ _ HFO Hb) as (head & _ & Hc).
    by eapply chain_elem.
Qed.

(** ** Unlinking an item from a chain *)

Lemma before_of_split (h : gmap Z item) key n pos l1 b l2 :
  Forall (λ q, matchb h key n q = false) l1 → matchb h key n b = true →
  before_of h key n pos (l1 ++ b :: l2) = from_option HNext pos (last l1).
Proof.
  intros Hl1. revert pos. induction Hl1 as [|x l1 Hx _ IH]; intros pos Hb; simpl.
  - by rewrite Hb.
  - rewrite Hx, IH by done. rewrite last_cons. by destruct (last l1).
Qed.

Lemma chain_head h head b l :
  chain h head (b :: l) →
  head = b ∧ b ≠ NULL ∧ ∃ ib, h !! b = Some ib ∧ chain h (h_next ib) l.
Proof. inversion 1; subst. eauto. Qed.

Lemma chain_pred h head l1 pr b l2 :
  chain h head (l1 ++ pr :: b :: l2) →
  ∃ ipr, h !! pr = Some ipr ∧ h_next ipr = b.
Proof.
  intros Hc. apply chain_suffix in Hc.
  apply chain_head in Hc as (_ & _ & ipr & Hpr & Hc).
  apply chain_head in Hc as (Hb & _). eauto.
Qed.

Lemma chain_splice h head l1 pr ipr b ib l2 :
  chain h head (l1 ++ pr :: b :: l2) → h !! pr = Some ipr → h !! b = Some ib →
  chain (<[pr := set_h_next (h_next ib) ipr]> (<[b := set_h_next NULL ib]> h))
        head (l1 ++ pr :: l2).
Proof.
  intros Hc Hpr Hb. pose proof (chain_NoDup _ _ _ Hc) as Hnd.
  revert head Hc Hnd. induction l1 as [|x l1 IH]; intros head Hc Hnd; simpl in *.
  - apply chain_head in Hc as (-> & Hn & ipr' & Hpr' & Hc).
    rewrite Hpr in Hpr'. injection Hpr' as <-.
    apply chain_head in Hc as (_ & _ & ib' & Hb' & Hc).
    rewrite Hb in Hb'. injection Hb' as <-.
    apply NoDup_cons in Hnd as [Hpr1 Hnd]. apply NoDup_cons in Hnd as [Hb1 _].
    apply (chain_cons _ pr (set_h_next (h_next ib) ipr));
      [done|by rewrite lookup_insert_eq|]. simpl.
    apply chain_frame; [apply chain_frame; done|].
    intros ?. apply Hpr1. by right.
  - apply chain_head in Hc as (-> & Hn & ix & Hx & Hc).
    apply NoDup_cons in Hnd as [Hx1 Hnd].
    apply (chain_cons _ x ix); [done| |by apply IH].
    rewrite !lookup_insert_ne; [done| |].
    + intros ->. apply Hx1, elem_of_app. right. right. by left.
    + intros ->. apply Hx1, elem_of_app. right. by left.
Qed.

Lemma unlink_chain h head l1 b ib l2 :
  chain h head (l1 ++ b :: l2) → h !! b = Some ib →
  match last l1 with
  | None => head = b ∧ chain (<[b := set_h_next NULL ib]> h) (h_next ib) l2
  | Some pr =>
      ∃ ipr, h !! pr = Some ipr ∧ pr ≠ b ∧ h_next ipr = b ∧
        chain (<[pr := set_h_next (h_next ib) ipr]> (<[b := set_h_next NULL ib]> h))
              head (l1 ++ l2)
  end.
Proof.
  intros Hc Hb. pose proof (chain_NoDup _ _ _ Hc) as Hnd.
  destruct (last l1) as [pr|] eqn:Hlast.
  - apply last_Some in Hlast as [l1' ->]. rewrite <- !(assoc_L (++)) in *. simpl in *.
    destruct (chain_pred _ _ _ _ _ _ Hc) as (ipr & Hpr & Hnext).
    exists ipr. repeat split; [done| |done|by apply chain_splice].
    intros ->. apply NoDup_app in Hnd as (_ & _ & Hnd).
    apply NoDup_cons in Hnd as [Hnd _]. apply Hnd. by left.
  - apply last_None in Hlast as ->. simpl in *.
    apply chain_head in Hc as (-> & _ & ib' & Hb' & Hc).
    rewrite Hb in Hb'. injection Hb' as <-. split; [done|].
    apply chain_frame; [done|]. by apply NoDup_cons in Hnd as [? _].
Qed.

Lemma load_hnext s q i :
  items s !! q = Some i → load s (HNext q) = Some (h_next i).
Proof. intros Hq. unfold load. by rewrite Hq. Qed.

(** [_hashitem_before] followed by the unlinking of [assoc_delete], on the
    chain [l] of the slot [b0] of the block [a], when some item of the chain
    matches the key. *)
Lemma delete_slot s a arr b0 head l key n :
  arrays s !! a = Some arr → arr !! Z.to_nat b0 = Some head →
  chain (items s) head l → first_match (items s) key n l ≠ NULL →
  ∃ l1 b ib l2 s',
    l = l1 ++ b :: l2 ∧ b = first_match (items s) key n l ∧
    remove_match (items s) key n l = l1 ++ l2 ∧
    Forall (λ q, matchb (items s) key n q = false) l1 ∧
    matchb (items s) key n b = true ∧
    items s !! b = Some ib ∧ b ≠ NULL ∧
    (before ← before_loop (walk_fuel s) s key n (Bucket a b0);
     unlink s before) = Some (Removed s') ∧
    hashpower s' = hashpower s ∧ primary_hashtable s' = primary_hashtable s ∧
    old_hashtable s' = old_hashtable s ∧ expanding s' = expanding s ∧
    expand_bucket s' = expand_bucket s ∧
    match last l1 with
    | None =>
        head = b ∧
        arrays s' = <[a := <[Z.to_nat b0 := h_next ib]> arr]> (arrays s) ∧
        items s' = <[b := set_h_next NULL ib]> (items s) ∧
        chain (items s') (h_next ib) l2
    | Some pr =>
        ∃ ipr, items s !! pr = Some ipr ∧ pr ≠ b ∧ h_next ipr = b ∧
          arrays s' = arrays s ∧
          items s' = <[pr := set_h_next (h_next ib) ipr]>
                       (<[b := set_h_next NULL ib]> (items s)) ∧
          chain (items s') head (l1 ++ l2)
    end.
Proof.
  intros Ha Hhead Hc Hfound.
  destruct (first_match_split _ _ _ _ Hfound) as (l1 & l2 & Hl & Hm & Hl1 & Hrm).
  remember (first_match (items s) key n l) as b eqn:Hb.
  assert (Hbl : b ∈ l) by (rewrite Hl; apply elem_of_app; right; by left).
  destruct (chain_elem _ _ _ _ Hc Hbl) as [Hbn [ib Hib]].
  exists l1, b, ib, l2.
  assert (Hload : load s (Bucket a b0) = Some head).
  { unfold load, arr_load. rewrite Ha. simpl. done. }
  rewrite (before_loop_chain _ _ _ _ _ head l) by
    (done || (apply chain_length in Hc; unfold walk_fuel; lia)).
  clear Hfound Hbl. subst l. rewrite before_of_split by done.
  pose proof (unlink_chain _ _ _ _ _ _ Hc Hib) as Hun.
  destruct (last l1) as [pr|] eqn:Hlast; cbn [from_option mbind option_bind].
  - destruct Hun as (ipr & Hpr & Hne & Hnext & Hc').
    eexists. do 7 (split; [done|]). split.
    { unfold unlink. rewrite (load_hnext _ _ _ Hpr). cbn [mbind option_bind].
      rewrite Hnext. rewrite decide_False by done.
      rewrite (load_hnext _ _ _ Hib). cbn [mbind option_bind].
      rewrite (store_hnext _ _ ib) by done. cbn [mbind option_bind].
      rewrite (store_hnext _ _ ipr); [done|].
      simpl. by rewrite lookup_insert_ne. }
    do 5 (split; [done|]). simpl. eauto 10.
  - destruct Hun as (-> & Hc').
    eexists. do 7 (split; [done|]). split.
    { unfold unlink. rewrite Hload. cbn [mbind option_bind].
      rewrite decide_False by done.
      rewrite (load_hnext _ _ _ Hib). cbn [mbind option_bind].
      rewrite (store_hnext _ _ ib) by done. cbn [mbind option_bind].
      rewrite (store_bucket _ _ arr); [done|done|]. by eapply lookup_lt_Some. }
    do 5 (split; [done|]). simpl. done.
Qed.

(** ** Local changes of the heap *)

Lemma chain_agree (h h' : gmap Z item) p l :
  chain h p l → (∀ q, q ∈ l → h' !! q = h !! q) → chain h' p l.
Proof.
  induction 1 as [|p i l Hp Hi _ IH]; intros Heq; [constructor|].
  apply (chain_cons _ p i); [done| |].
  - rewrite Heq; [done|by left].
  - apply IH. intros q Hq. apply Heq. by right.
Qed.

Lemma concat_NoDup_disjoint (L : list (list Z)) (i j : nat) li lj x :
  NoDup (concat L) → L !! i = Some li → L !! j = Some lj → i ≠ j →
  x ∈ li → x ∉ lj.
Proof.
  revert i j. induction L as [|y L IH]; intros i j Hnd Hi Hj Hne Hx; [done|].
  simpl in Hnd. apply NoDup_app in Hnd as (_ & Hdis & Hnd).
  destruct i as [|i], j as [|j]; simpl in *; simplify_eq.
  - intros Hin. eapply Hdis; [done|]. by eapply elem_of_concat_lookup.
  - intros Hin. eapply Hdis; [done|]. by eapply elem_of_concat_lookup.
  - eapply IH; eauto.
Qed.

(** The chains of a block after a change of the heap confined to items [M]
    of the chain of slot [idx], whose slot now holds [x]. *)
Lemma chains_local (h h' : gmap Z item) A L (idx : nat) l x l' (M : list Z) :
  Forall2 (chain h) A L → L !! idx = Some l → NoDup (concat L) →
  (∀ q, q ∉ M → h' !! q = h !! q) → (∀ q, q ∈ M → q ∈ l) →
  chain h' x l' →
  Forall2 (chain h') (<[idx := x]> A) (<[idx := l']> L).
Proof.
  intros HF Hl Hnd Hout HM Hc.
  apply Forall2_same_length_lookup_2.
  { rewrite !length_insert. by eapply Forall2_length. }
  intros j a lj Ha Hlj. destruct (decide (idx = j)) as [->|Hne].
  - apply list_lookup_insert_Some in Ha as [(_ & <- & _)|[? _]]; [|done].
    apply list_lookup_insert_Some in Hlj as [(_ & <- & _)|[? _]]; done.
  - rewrite list_lookup_insert_ne in Ha by done.
    rewrite list_lookup_insert_ne in Hlj by done.
    eapply chain_agree; [by eapply (Forall2_lookup_lr _ _ _ _ _ _ HF)|].
    intros q Hq. apply Hout. intros HqM.
    by eapply (concat_NoDup_disjoint L idx j l lj q Hnd Hl Hlj Hne (HM _ HqM)).
Qed.

Lemma chains_other (h h' : gmap Z item) B K (M : list Z) :
  Forall2 (chain h) B K →
  (∀ q, q ∉ M → h' !! q = h !! q) → (∀ q, q ∈ M → q ∉ concat K) →
  Forall2 (chain h') B K.
Proof.
  intros HF Hout HM. apply Forall2_same_length_lookup_2; [by eapply Forall2_length|].
  intros j a lj Ha Hlj.
  eapply chain_agree; [by eapply (Forall2_lookup_lr _ _ _ _ _ _ HF)|].
  intros q Hq. apply Hout. intros HqM. apply (HM _ HqM).
  by eapply elem_of_concat_lookup.
Qed.

Lemma same_keys_links (h : gmap Z item) q1 i1 v1 q2 i2 v2 :
  h !! q1 = Some i1 → h !! q2 = Some i2 → q1 ≠ q2 →
  same_keys h (<[q1 := set_h_next v1 i1]> (<[q2 := set_h_next v2 i2]> h)).
Proof.
  intros H1 H2 Hne. eapply same_keys_trans; [by apply (same_keys_insert _ q2 i2 v2)|].
  apply same_keys_insert. by rewrite lookup_insert_ne.
Qed.

Lemma bucketwise_lookup Q (L : list (list Z)) (b : nat) l :
  bucketwise Q L → L !! b = Some l → Q (Z.of_nat b) l.
Proof. intros HQ. apply HQ. Qed.

Ltac elem_cases H :=
  repeat (apply elem_of_cons in H as [->|H]);
  try (by apply not_elem_of_nil in H).

(** [assoc_delete] on the block [a] whose chains are [L]. *)
Lemma delete_array s a arr L b0 l key n :
  arrays s !! a = Some arr → Forall2 (chain (items s)) arr L →
  L !! Z.to_nat b0 = Some l → NoDup (concat L) →
  first_match (items s) key n l ≠ NULL →
  ∃ s' b ib arr',
    (before ← before_loop (walk_fuel s) s key n (Bucket a b0);
     unlink s before) = Some (Removed s') ∧
    b ∈ l ∧ matchb (items s) key n b = true ∧ items s !! b = Some ib ∧
    l ≡ₚ b :: remove_match (items s) key n l ∧
    hashpower s' = hashpower s ∧ primary_hashtable s' = primary_hashtable s ∧
    old_hashtable s' = old_hashtable s ∧ expanding s' = expanding s ∧
    expand_bucket s' = expand_bucket s ∧
    arrays s' = <[a := arr']> (arrays s) ∧ length arr' = length arr ∧
    Forall2 (chain (items s')) arr'
      (<[Z.to_nat b0 := remove_match (items s) key n l]> L) ∧
    same_keys (items s) (items s') ∧
    (∀ B K, Forall2 (chain (items s)) B K → (∀ q, q ∈ l → q ∉ concat K) →
            Forall2 (chain (items s')) B K).
Proof.
  intros Ha HF Hl Hnd Hfound.
  destruct (Forall2_lookup_r _ _ _ _ _ HF Hl) as (head & Hhead & Hc).
  destruct (delete_slot s a arr b0 head l key n Ha Hhead Hc Hfound)
    as (l1 & b & ib & l2 & s' & Hsplit & Hb & Hrm & Hl1 & Hm & Hib & Hbn & Hdel
        & Hhp & Hpp & Hop & He & Heb & Hcase).
  assert (Hbl : b ∈ l) by (rewrite Hsplit; apply elem_of_app; right; by left).
  assert (Hperm : l ≡ₚ b :: remove_match (items s) key n l).
  { rewrite Hrm. rewrite Hsplit at 1. by rewrite <- Permutation_middle. }
  destruct (last l1) as [pr|] eqn:Hlast.
  - destruct Hcase as (ipr & Hpr & Hne & Hnext & Harr & Hitems & Hc').
    assert (Hprl : pr ∈ l).
    { apply last_Some in Hlast as [l1' ->]. rewrite Hsplit.
      apply elem_of_app. left. apply elem_of_app. right. by left. }
    assert (Hout : ∀ q, q ∉ [pr; b] → items s' !! q = items s !! q).
    { intros q Hq. rewrite Hitems.
      rewrite !lookup_insert_ne; [done| |]; intros ->; apply Hq; repeat constructor. }
    exists s', b, ib, arr. do 10 (split; [done|]).
    split; [by rewrite Harr, insert_id|]. split; [done|]. split; [|split].
    + rewrite <- (list_insert_id arr (Z.to_nat b0) head) by done.
      eapply (chains_local _ _ _ _ _ l _ _ [pr; b]); try done.
      * intros q Hq. by elem_cases Hq.
      * by rewrite Hrm.
    + rewrite Hitems. by apply same_keys_links.
    + intros B K HFB Hdis. eapply (chains_other _ _ _ _ [pr; b]); try done.
      intros q Hq. apply Hdis. by elem_cases Hq.
  - destruct Hcase as (-> & Harr & Hitems & Hc').
    apply last_None in Hlast as ->. simpl in *.
    assert (Hout : ∀ q, q ∉ [b] → items s' !! q = items s !! q).
    { intros q Hq. rewrite Hitems.
      rewrite !lookup_insert_ne; [done|]; intros ->; apply Hq; repeat constructor. }
    exists s', b, ib, (<[Z.to_nat b0 := h_next ib]> arr). do 10 (split; [done|]).
    split; [done|]. split; [by rewrite length_insert|]. split; [|split].
    + eapply (chains_local _ _ _ _ _ l _ _ [b]); try done.
      * intros q Hq. by elem_cases Hq.
      * by rewrite Hrm.
    + rewrite Hitems. by apply same_keys_insert.
    + intros B K HFB Hdis. eapply (chains_other _ _ _ _ [b]); try done.
      intros q Hq. apply Hdis. by elem_cases Hq.
Qed.

Lemma concat_remove_perm (L : list (list Z)) (idx : nat) l b rm :
  L !! idx = Some l → l ≡ₚ b :: rm → concat L ≡ₚ b :: concat (<[idx := rm]> L).
Proof.
  intros Hl Hperm. apply (Permutation_app_inv_r rm).
  rewrite <- (concat_insert_perm _ _ _ rm Hl). simpl.
  rewrite Hperm. by rewrite <- Permutation_middle.
Qed.

Lemma kids_NoDup_remove (h h' : gmap Z item) (lk lk' : list Z) b :
  same_keys h h' → lk ≡ₚ b :: lk' →
  NoDup ((λ p, item_kid <$> h !! p) <$> lk) →
  NoDup ((λ p, item_kid <$> h' !! p) <$> lk').
Proof.
  intros Hk Hperm Hnd.
  assert ((λ p, item_kid <$> h' !! p) <$> lk'
          = (λ p, item_kid <$> h !! p) <$> lk') as ->.
  { apply list_fmap_ext. intros ? p _. by apply same_keys_kid. }
  rewrite Hperm in Hnd. simpl in Hnd. by apply NoDup_cons in Hnd as [_ ?].
Qed.

Lemma same_frame_intro s s' a arr arr' :
  hashpower s' = hashpower s → primary_hashtable s' = primary_hashtable s →
  old_hashtable s' = old_hashtable s → expanding s' = expanding s →
  expand_bucket s' = expand_bucket s →
  arrays s !! a = Some arr → arrays s' = <[a := arr']> (arrays s) →
  length arr' = length arr → same_keys (items s) (items s') →
  same_frame s s'.
Proof.
  intros ????? Ha Harr Hlen Hk. repeat split; try done.
  intros c. unfold block_len. rewrite Harr.
  destruct (decide (a = c)) as [<-|].
  - rewrite lookup_insert_eq, Ha. simpl. by rewrite Hlen.
  - by rewrite lookup_insert_ne.
Qed.

(** [assoc_delete] of a key that is in the table, with the hash of the
    key. *)
Lemma delete_wf s key n :
  wf hash s → (∃ p, p ∈ linked s ∧ matchb (items s) key n p = true) →
  ∃ s' b, assoc_delete s key n (hash32 hash key n) = Some (Removed s') ∧
          wf hash s' ∧ b ∈ linked s ∧ matchb (items s) key n b = true ∧
          linked s ≡ₚ b :: linked s' ∧ same_frame s s'.
Proof.
  intros Hwf (p & Hp & Hm). apply wf_views in Hwf as (P & O & Hv & Hw).
  rewrite (linked_views _ _ _ Hv) in *.
  pose proof Hw as (Hsh & Hnd & HplP & HplO & Hfr). simpl in HplP, HplO, Hfr.
  pose proof (NoDup_fmap_1 _ _ Hnd) as Hnd'. unfold linked_of in Hnd, Hnd'.
  simpl in Hnd, Hnd'.
  apply NoDup_app in Hnd' as (HndP & Hdis & HndO).
  pose proof (hash32_range key n) as Hhv.
  destruct (addressing s _ Hhv (shape_hashpower _ Hsh)) as (_ & _ & _ & -> & _).
  destruct (slot_chain s P O (hash32 hash key n) Hv Hsh)
    as (head & l & Hload & Hc & Hcase).
  assert (Hpl : p ∈ l).
  { eapply (match_in_slot s P O key n p l); try done.
    destruct Hcase as [(_ & Hl & ?)|(_ & Hl & ? & ?)]; [by left|by right]. }
  assert (Hfound : first_match (items s) key n l ≠ NULL).
  { intros Hnull. apply first_match_null in Hnull; [|by eapply chain_not_null].
    rewrite Forall_forall in Hnull. specialize (Hnull _ Hpl). congruence. }
  pose proof Hv as [(Parr & HParr & HFP) HO].
  pose proof Hsh as (Hhp & _ & _ & Hexp).
  destruct Hcase as [(-> & Hl & Hside)|(-> & Hl & He & Hle)].
  - destruct (delete_array s _ Parr P _ l key n HParr HFP Hl HndP Hfound)
      as (s' & b & ib & arr' & Hdel & Hbl & Hmb & Hib & Hperm & H1 & H2 & H3 & H4
          & H5 & Harr & Hlen & HF' & Hkeys & Hother).
    assert (Hframe : same_frame s s') by by eapply same_frame_intro.
    assert (HbP : b ∈ concat P) by by eapply elem_of_concat_lookup.
    assert (Hv' : views s' (<[Z.to_nat (hash32 hash key n mod 2 ^ hashpower s) :=
                 remove_match (items s) key n l]> P) O).
    { split.
      - exists arr'. by rewrite H2, Harr, lookup_insert_eq.
      - rewrite H4. destruct (expanding s) eqn:He; [|done].
        destruct HO as (Oarr & HOarr & HFO). destruct (Hexp eq_refl) as (_ & Hne & _).
        exists Oarr. rewrite H3, Harr, lookup_insert_ne by done. split; [done|].
        apply Hother; [done|]. intros q Hq. apply Hdis.
        by eapply elem_of_concat_lookup. }
    exists s', b. split; [done|]. split; [|split; [|split; [done|split; [|done]]]].
    + apply wf_views. eexists _, _. split; [exact Hv'|].
      split; [|split; [|split; [|split]]].
      * by eapply shape_same_frame.
      * eapply (kids_NoDup_remove (items s) _ _ _ b); [done| |exact Hnd].
        unfold linked_of. simpl.
        by rewrite (concat_remove_perm _ _ _ _ _ Hl Hperm).
      * simpl. rewrite H1. apply bucketwise_insert.
        -- eapply bucketwise_impl; [done|]. intros. by eapply placed_same_frame.
        -- eapply placed_same_frame; [done|]. specialize (HplP _ _ Hl).
           unfold placed in *. rewrite Hperm in HplP.
           by apply Forall_cons in HplP as [_ ?].
      * simpl. rewrite H1. eapply bucketwise_impl; [done|].
        intros. by eapply placed_same_frame.
      * simpl. rewrite H4, H5, H1. intros He. destruct (Hfr He) as [HfP HfO].
        split; [|done]. apply bucketwise_insert; [done|]. intros Hle. exfalso.
        rewrite (HfP _ _ Hl Hle) in Hbl. by apply not_elem_of_nil in Hbl.
    + apply elem_of_app. by left.
    + rewrite (linked_views _ _ _ Hv').
      by rewrite (concat_remove_perm _ _ _ _ _ Hl Hperm).
  - rewrite He in HO. destruct HO as (Oarr & HOarr & HFO).
    destruct (Hexp He) as (_ & Hne & _).
    destruct (delete_array s _ Oarr O _ l key n HOarr HFO Hl HndO Hfound)
      as (s' & b & ib & arr' & Hdel & Hbl & Hmb & Hib & Hperm & H1 & H2 & H3 & H4
          & H5 & Harr & Hlen & HF' & Hkeys & Hother).
    assert (Hframe : same_frame s s') by by eapply same_frame_intro.
    assert (HbO : b ∈ concat O) by by eapply elem_of_concat_lookup.
    assert (Hv' : views s' P (<[Z.to_nat (hash32 hash key n mod 2 ^ (hashpower s - 1)) :=
                    remove_match (items s) key n l]> O)).
    { split.
      - exists Parr. rewrite H2, Harr, lookup_insert_ne by done. split; [done|].
        apply Hother; [done|]. intros q Hq Hin. apply (Hdis q Hin).
        by eapply elem_of_concat_lookup.
      - rewrite H4, He. exists arr'. by rewrite H3, Harr, lookup_insert_eq. }
    exists s', b. split; [done|]. split; [|split; [|split; [done|split; [|done]]]].
    + apply wf_views. eexists _, _. split; [exact Hv'|].
      split; [|split; [|split; [|split]]].
      * by eapply shape_same_frame.
      * eapply (kids_NoDup_remove (items s) _ _ _ b); [done| |exact Hnd].
        unfold linked_of. simpl.
        rewrite (concat_remove_perm _ _ _ _ _ Hl Hperm).
        by rewrite <- Permutation_middle.
      * simpl. rewrite H1. eapply bucketwise_impl; [done|].
        intros. by eapply placed_same_frame.
      * simpl. rewrite H1. apply bucketwise_insert.
        -- eapply bucketwise_impl; [done|]. intros. by eapply placed_same_frame.
        -- eapply placed_same_frame; [done|]. specialize (HplO _ _ Hl).
           unfold placed in *. rewrite Hperm in HplO.
           by apply Forall_cons in HplO as [_ ?].
      * simpl. rewrite H4, H5, H1. intros _. destruct (Hfr He) as [HfP HfO].
        split; [done|]. apply bucketwise_insert; [done|]. intros Hlt. exfalso.
        rewrite (HfO _ _ Hl Hlt) in Hbl. by apply not_elem_of_nil in Hbl.
    + apply elem_of_app. by right.
    + rewrite (linked_views _ _ _ Hv').
      rewrite (concat_remove_perm _ _ _ _ _ Hl Hperm).
      by rewrite <- Permutation_middle.
Qed.

(** ** Moving a chain into the primary array *)

Lemma relink_loop_spec rest : ∀ fuel s Parr P p,
  0 ≤ hashpower s ≤ 63 →
  arrays s !! primary_hashtable s = Some Parr →
  Z.of_nat (length Parr) = 2 ^ hashpower s →
  Forall2 (chain (items s)) Parr P →
  chain (items s) p rest →
  NoDup (concat P ++ rest) →
  bucketwise (placed hash s (hashpower s)) P →
  (length rest < fuel)%nat →
  ∃ s' Parr' P',
    relink_loop hash fuel s p = Some s' ∧
    hashpower s' = hashpower s ∧ primary_hashtable s' = primary_hashtable s ∧
    old_hashtable s' = old_hashtable s ∧ expanding s' = expanding s ∧
    expand_bucket s' = expand_bucket s ∧
    arrays s' = <[primary_hashtable s := Parr']> (arrays s) ∧
    length Parr' = length Parr ∧
    Forall2 (chain (items s')) Parr' P' ∧
    same_keys (items s) (items s') ∧
    (∀ q, q ∉ rest → items s' !! q = items s !! q) ∧
    concat P' ≡ₚ concat P ++ rest ∧
    bucketwise (placed hash s' (hashpower s')) P' ∧
    (∀ (b : nat), (∀ q, q ∈ rest → home hash (hashpower s) <$> items s !! q
                                   ≠ Some (Z.of_nat b)) →
                  P' !! b = P !! b).
Proof.
  induction rest as [|q rest IH]; intros fuel s Parr P p Hhp HParr Hlen HF Hc Hnd Hpl Hfuel.
  - inversion Hc; subst.
    destruct fuel; [simpl in Hfuel; lia|]. simpl.
    exists s, Parr, P. split; [done|]. do 5 (split; [done|]).
    split; [by rewrite insert_id|]. do 4 (split; [done|]).
    split; [by rewrite app_nil_r|]. done.
  - apply chain_head in Hc as (-> & Hqn & i & Hi & Hc).
    destruct fuel as [|fuel]; [simpl in Hfuel; lia|]. simpl in Hfuel.
    simpl. rewrite decide_False, Hi by done. cbn [mbind option_bind].
    fold (home hash (hashpower s) i). set (b := home hash (hashpower s) i).
    assert (Hb : 0 ≤ b < 2 ^ hashpower s).
    { unfold b. rewrite home_mod by done. apply Z.mod_pos_bound, pow2_pos. lia. }
    destruct (lookup_lt_is_Some_2 Parr (Z.to_nat b)) as [head Hhead]; [lia|].
    destruct (lookup_lt_is_Some_2 P (Z.to_nat b)) as [lb Hlb].
    { rewrite <- (Forall2_length _ _ _ HF). lia. }
    unfold arr_load. rewrite HParr. cbn [mbind option_bind]. rewrite Hhead.
    cbn [mbind option_bind]. rewrite (store_hnext _ _ i) by done.
    cbn [mbind option_bind].
    rewrite (store_bucket _ _ Parr); [|done|by eapply lookup_lt_Some].
    cbn [mbind option_bind].
    apply NoDup_app in Hnd as (HndP & Hdis & Hndr).
    apply NoDup_cons in Hndr as [Hqr Hndr].
    assert (HqP : q ∉ concat P) by (intros Hin; apply (Hdis _ Hin); by left).
    set (s2 := set_arrays _ _).
    assert (Hkeys2 : same_keys (items s) (items s2)) by by apply same_keys_insert.
    destruct (IH fuel s2 (<[Z.to_nat b := q]> Parr) (<[Z.to_nat b := q :: lb]> P)
                (h_next i))
      as (s' & Parr' & P' & Hrun & H1 & H2 & H3 & H4 & H5 & Harr & Hlen' & HF'
          & Hkeys & Hout & Hperm & Hpl' & Hsame); try done.
    + simpl. by rewrite lookup_insert_eq.
    + by rewrite length_insert.
    + simpl. by eapply chains_push.
    + simpl. by apply chain_frame.
    + rewrite (concat_insert_cons _ _ _ _ Hlb). apply NoDup_app. split; [|split; [|done]].
      * by constructor.
      * intros x [->|Hx]%elem_of_cons; [done|]. intros Hxr. apply (Hdis _ Hx). by right.
    + simpl. apply bucketwise_insert.
      * eapply bucketwise_impl; [done|]. intros. by eapply placed_same_frame.
      * constructor.
        -- unfold s2. cbn [items set_arrays set_items hashpower].
           rewrite lookup_insert_eq. cbn [fmap option_fmap option_map].
           rewrite home_set_h_next. fold b. f_equal. lia.
        -- specialize (Hpl _ _ Hlb). by eapply placed_same_frame.
    + lia.
    + exists s', Parr', P'. split; [done|]. do 5 (split; [done|]).
      split; [|split; [|split; [done|split; [|split; [|split; [|split; [done|]]]]]]].
      * rewrite Harr. simpl. by rewrite insert_insert_eq.
      * by rewrite Hlen', length_insert.
      * by eapply same_keys_trans.
      * intros x Hx. apply not_elem_of_cons in Hx as [Hxq Hx].
        rewrite Hout by done. simpl. by rewrite lookup_insert_ne.
      * rewrite Hperm, (concat_insert_cons _ _ _ _ Hlb). simpl.
        by rewrite <- Permutation_middle.
      * intros c Hc'. rewrite Hsame.
        -- apply list_lookup_insert_ne. intros Heq.
           apply (Hc' q); [by left|]. rewrite Hi. simpl. f_equal. fold b. lia.
        -- intros x Hx. simpl. rewrite lookup_insert_ne by (by intros ->).
           apply Hc'. by right.
Qed.

(** Lines 271-280 on a well-formed expanding table whose chains are [P] and
    [O]: the chain [l] of the old bucket [expand_bucket] is now spread over
    the primary buckets of its items and the old slot is empty. *)
Lemma migrate_bucket_mid s P O :
  views s P O → wf_view hash s (P, O) → expanding s = true →
  ∃ m P' l,
    migrate_bucket hash s = Some m ∧
    hashpower m = hashpower s ∧ primary_hashtable m = primary_hashtable s ∧
    old_hashtable m = old_hashtable s ∧ expanding m = true ∧
    expand_bucket m = expand_bucket s + 1 ∧
    (∀ a, block_len m a = block_len s a) ∧
    same_keys (items s) (items m) ∧
    views m P' (<[Z.to_nat (expand_bucket s) := []]> O) ∧
    O !! Z.to_nat (expand_bucket s) = Some l ∧
    concat P' ≡ₚ concat P ++ l ∧
    bucketwise (placed hash m (hashpower s)) P' ∧
    (∀ (b : nat), (∀ q, q ∈ l → home hash (hashpower s) <$> items s !! q
                               ≠ Some (Z.of_nat b)) →
                  P' !! b = P !! b) ∧
    arr_load m (old_hashtable s) (expand_bucket s) = Some NULL.
Proof.
  intros Hv (Hsh & Hnd & HplP & HplO & Hfr) He. simpl in HplP, HplO, Hfr.
  pose proof Hsh as (Hhp & Hpn & HlenP & Hexp).
  destruct (Hexp He) as (Hon & Hne & Hhp1 & Heb & HlenO).
  rewrite hashsize_pow2 in Heb by lia.
  pose proof Hv as [(Parr & HParr & HFP) HO]. rewrite He in HO.
  destruct HO as (Oarr & HOarr & HFO).
  apply block_len_lookup in HlenP as (Parr0 & HParr0 & HlenP).
  rewrite HParr in HParr0. injection HParr0 as <-.
  rewrite hashsize_pow2 in HlenP by done.
  destruct (old_slot s P O (expand_bucket s) Hv Hsh He Heb)
    as (head & l & Hload & Hl & Hc).
  pose proof (NoDup_fmap_1 _ _ Hnd) as Hnd'. unfold linked_of in Hnd'.
  simpl in Hnd'. pose proof Hnd' as HndPO.
  apply NoDup_app in Hnd' as (HndP & Hdis & HndO).
  assert (HndPl : NoDup (concat P ++ l)).
  { apply NoDup_app. split; [done|]. split; [|by eapply chain_NoDup].
    intros x Hx Hxl. apply (Hdis _ Hx). by eapply elem_of_concat_lookup. }
  destruct (relink_loop_spec l (walk_fuel s) s Parr P head Hhp HParr HlenP HFP Hc
              HndPl HplP)
    as (s1 & Parr' & P' & Hrun & H1 & H2 & H3 & H4 & H5 & Harr & Hlen' & HF'
        & Hkeys & Hout & Hperm & Hpl' & Hsame).
  { apply chain_length in Hc. unfold walk_fuel. lia. }
  assert (HOarr1 : arrays s1 !! old_hashtable s = Some Oarr).
  { by rewrite Harr, lookup_insert_ne. }
  assert (Hidx : (Z.to_nat (expand_bucket s) < length Oarr)%nat).
  { apply (Forall2_length _ _ _) in HFO. rewrite HFO. by eapply lookup_lt_Some. }
  eexists _, P', l. split.
  { unfold migrate_bucket. unfold load in Hload. rewrite Hload.
    cbn [mbind option_bind]. rewrite Hrun. cbn [mbind option_bind].
    rewrite H3, H5. rewrite (store_bucket _ _ Oarr) by done.
    cbn [mbind option_bind]. reflexivity. }
  simpl. rewrite H1, H2, H3, H4.
  do 5 (split; [try done|]).
  { rewrite H5. unfold u64. rewrite Z.mod_small; [done|].
    assert (2 ^ (hashpower s - 1) < 2 ^ 64) by (apply Z.pow_lt_mono_r; lia). lia. }
  split.
  { intros a. unfold block_len. simpl. rewrite Harr.
    destruct (decide (old_hashtable s = a)) as [<-|Hna].
    - rewrite lookup_insert_eq, HOarr. simpl. by rewrite length_insert.
    - rewrite lookup_insert_ne by done.
      destruct (decide (primary_hashtable s = a)) as [<-|Hnp].
      + rewrite lookup_insert_eq, HParr. simpl. by rewrite Hlen'.
      + by rewrite lookup_insert_ne. }
  split; [done|]. split.
  { split; simpl.
    - exists Parr'. rewrite lookup_insert_ne by done.
      by rewrite Harr, lookup_insert_eq.
    - rewrite He. eexists. rewrite lookup_insert_eq. split; [done|].
      eapply (chains_local _ _ _ _ _ l _ _ l); try done. constructor. }
  split; [done|]. split; [done|]. split.
  { eapply bucketwise_impl; [exact Hpl'|]. rewrite H1. intros b lb Hb.
    unfold placed in *. done. }
  split; [done|].
  unfold arr_load. simpl. rewrite lookup_insert_eq. simpl.
  by rewrite list_lookup_insert_eq.
Qed.

Lemma kids_NoDup_perm (h h' : gmap Z item) (lk lk' : list Z) :
  same_keys h h' → lk' ≡ₚ lk →
  NoDup ((λ p, item_kid <$> h !! p) <$> lk) →
  NoDup ((λ p, item_kid <$> h' !! p) <$> lk').
Proof.
  intros Hk Hperm Hnd.
  assert ((λ p, item_kid <$> h' !! p) <$> lk'
          = (λ p, item_kid <$> h !! p) <$> lk') as ->.
  { apply list_fmap_ext. intros ? p _. by apply same_keys_kid. }
  by rewrite Hperm.
Qed.

Lemma concat_all_nil (L : list (list Z)) :
  (∀ (b : nat) l, L !! b = Some l → l = []) → concat L = [].
Proof.
  induction L as [|x L IH]; intros Hall; simpl; [done|].
  rewrite (Hall 0%nat x eq_refl). simpl. apply IH.
  intros b l Hb. by apply (Hall (S b)).
Qed.

Lemma expansion_done_continue m :
  0 ≤ hashpower m < 2 ^ 32 →
  expand_bucket m ≠ hashsize (hashpower m - 1) → expansion_done m = m.
Proof.
  intros Hhp Hne. unfold expansion_done.
  rewrite hashsize_u32_pred by done. by rewrite decide_False.
Qed.

(** One step of the migration loop with the bucket lock acquired, on a
    well-formed expanding table. *)
Lemma maintenance_step_wf s :
  wf hash s → expanding s = true →
  ∃ m s' l,
    migrate_bucket hash s = Some m ∧ s' = expansion_done m ∧
    maintenance_step hash true s = Some s' ∧
    arr_load s (old_hashtable s) (expand_bucket s) ≫= chain_of (walk_fuel s) (items s)
      = Some l ∧
    arr_load m (old_hashtable s) (expand_bucket s) = Some NULL ∧
    expand_bucket m = expand_bucket s + 1 ∧
    wf hash s' ∧ linked s' ≡ₚ linked s ∧ same_keys (items s) (items s') ∧
    hashpower s' = hashpower s ∧ primary_hashtable s' = primary_hashtable s ∧
    expand_bucket s' = expand_bucket s + 1 ∧
    (∃ P' O', views s' P' O' ∧ ∀ q, q ∈ l → q ∈ concat P') ∧
    (if decide (expand_bucket s + 1 = 2 ^ (hashpower s - 1))
     then expanding s' = false
     else expanding s' = true ∧ old_hashtable s' = old_hashtable s).
Proof.
  intros Hwf He. apply wf_views in Hwf as (P & O & Hv & Hw).
  destruct (migrate_bucket_mid s P O Hv Hw He)
    as (m & P' & l & Hmig & H1 & H2 & H3 & H4 & H5 & Hbl & Hkeys & Hv' & Hl
        & Hperm & Hpl' & Hsame & Hnull).
  destruct Hw as (Hsh & Hnd & HplP & HplO & Hfr). simpl in HplP, HplO, Hfr.
  pose proof Hsh as (Hhp & Hpn & HlenP & Hexp).
  destruct (Hexp He) as (Hon & Hne & Hhp1 & Heb & HlenO).
  rewrite hashsize_pow2 in Heb by lia.
  destruct (Hfr He) as [HfP HfO].
  set (O' := <[Z.to_nat (expand_bucket s) := []]> O) in *.
  assert (HpermO : concat O' ++ l ≡ₚ concat O).
  { unfold O'. rewrite (concat_insert_perm _ _ _ [] Hl). by rewrite app_nil_r. }
  assert (HpermL : concat P' ++ concat O' ≡ₚ concat P ++ concat O).
  { rewrite Hperm, <- HpermO, <- (assoc_L (++)). f_equiv. apply Permutation_app_comm. }
  assert (Hnd' : NoDup ((λ p, item_kid <$> items m !! p) <$> concat P' ++ concat O')).
  { eapply kids_NoDup_perm; [done|exact HpermL|exact Hnd]. }
  assert (HplO' : bucketwise (placed hash m (hashpower s - 1)) O').
  { apply bucketwise_insert; [|constructor].
    eapply bucketwise_impl; [exact HplO|]. intros. by eapply placed_same_frame. }
  assert (HfP' : bucketwise (λ b lb,
     expand_bucket s + 1 ≤ Z.land b (hashmask (hashpower s - 1)) → lb = []) P').
  { intros b lb Hb Hle. rewrite Hsame in Hb.
    - apply (HfP _ _ Hb). lia.
    - intros q Hq Hhome. pose proof (HplO _ _ Hl) as Hpo. unfold placed in Hpo.
      rewrite Forall_forall in Hpo. specialize (Hpo _ Hq).
      destruct (items s !! q) as [iq|]; simpl in *; [|done].
      injection Hhome as Hhome. injection Hpo as Hpo.
      rewrite home_mod in Hhome, Hpo by lia.
      rewrite land_hashmask, <- Hhome, mod_pow2_half, Hpo in Hle by lia. lia. }
  assert (HfO' : bucketwise (λ b lb, b < expand_bucket s + 1 → lb = []) O').
  { intros b lb Hb Hlt. unfold O' in Hb.
    destruct (decide (Z.to_nat (expand_bucket s) = b)) as [<-|Hnb].
    - apply list_lookup_insert_Some in Hb as [(_ & <- & _)|[? _]]; done.
    - rewrite list_lookup_insert_ne in Hb by done. apply (HfO _ _ Hb). lia. }
  assert (Hchain : arr_load s (old_hashtable s) (expand_bucket s)
                   ≫= chain_of (walk_fuel s) (items s) = Some l).
  { destruct (old_slot s P O (expand_bucket s) Hv Hsh He Heb)
      as (head & l0 & Hload & Hl0 & Hc).
    rewrite Hl in Hl0. injection Hl0 as <-. unfold load in Hload.
    rewrite Hload. simpl. by apply chain_of_spec. }
  assert (HlP' : ∀ q, q ∈ l → q ∈ concat P').
  { intros q Hq. rewrite Hperm. apply elem_of_app. by right. }
  exists m, (expansion_done m), l. split; [done|]. split; [done|].
  split; [unfold maintenance_step; by rewrite Hmig|].
  split; [done|]. split; [done|]. split; [done|].
  destruct (decide (expand_bucket s + 1 = 2 ^ (hashpower s - 1))) as [Hdone|Hmore].
  - assert (Hed : expansion_done m =
      {| hashpower := hashpower m; primary_hashtable := primary_hashtable m;
         old_hashtable := old_hashtable m; expanding := false;
         expand_bucket := expand_bucket m;
         arrays := delete (old_hashtable m) (arrays m); items := items m |}).
    { unfold expansion_done. rewrite hashsize_u32_pred by lia.
      rewrite H1, hashsize_pow2 by lia. rewrite decide_True by lia. done. }
    rewrite Hed. clear Hed.
    assert (HO'nil : concat O' = []).
    { apply concat_all_nil. intros b lb Hb. apply (HfO' _ _ Hb).
      apply lookup_lt_Some in Hb. unfold O' in Hb. rewrite length_insert in Hb.
      destruct Hv as [_ HO]. rewrite He in HO. destruct HO as (Oarr & HOarr & HFO).
      apply block_len_lookup in HlenO as (Oarr' & HOarr' & HlenO).
      rewrite HOarr in HOarr'. injection HOarr' as <-.
      rewrite hashsize_pow2 in HlenO by lia.
      rewrite <- (Forall2_length _ _ _ HFO) in Hb. lia. }
    assert (Hv'' : views {| hashpower := hashpower m;
         primary_hashtable := primary_hashtable m;
         old_hashtable := old_hashtable m; expanding := false;
         expand_bucket := expand_bucket m;
         arrays := delete (old_hashtable m) (arrays m); items := items m |} P' []).
    { destruct Hv' as [(Parr' & HParr' & HFP') _]. split; simpl; [|done].
      exists Parr'. rewrite lookup_delete_ne by congruence. done. }
    split; [|split; [|split; [done|split; [done|split; [done|split; [done|split; [|done]]]]]]].
    + apply wf_views. exists P', []. split; [done|].
      split; [|split; [|split; [|split; [|done]]]]; simpl.
      * unfold shape. simpl. rewrite H1, H2. do 2 (split; [done|]). split; [|done].
        unfold block_len. simpl. rewrite lookup_delete_ne by congruence.
        specialize (Hbl (primary_hashtable s)). unfold block_len in Hbl.
        rewrite <- H2 at 1. rewrite H2. by rewrite Hbl.
      * unfold linked_of. simpl. by rewrite <- HO'nil.
      * by rewrite H1.
      * by intros [|?] ? ?.
    + rewrite (linked_views _ _ _ Hv''), (linked_views _ _ _ Hv). simpl.
      by rewrite <- HO'nil.
    + by exists P', [].
  - rewrite expansion_done_continue; [|lia|].
    2:{ rewrite H1, H5, hashsize_pow2 by lia. lia. }
    split; [|split; [|split; [done|split; [done|split; [done|split; [done|split; [|done]]]]]]].
    + apply wf_views. exists P', O'. split; [done|].
      split; [|split; [done|split; [|split; [|]]]]; simpl.
      * unfold shape. rewrite H1, H2, H3, H4, H5, !Hbl.
        do 3 (split; [done|]). intros _. do 3 (split; [done|]).
        split; [|done]. rewrite hashsize_pow2 by lia. lia.
      * by rewrite H1.
      * by rewrite H1.
      * intros _. by rewrite H1, H5.
    + rewrite (linked_views _ _ _ Hv'), (linked_views _ _ _ Hv). done.
    + by exists P', O'.
Qed.

(** ** Starting an expansion *)

Lemma assoc_expand_success s new :
  new ≠ NULL →
  assoc_expand new s =
    {| hashpower := u32 (hashpower s + 1); primary_hashtable := new;
       old_hashtable := primary_hashtable s; expanding := true;
       expand_bucket := 0;
       arrays := <[new := replicate (Z.to_nat (hashsize (u32 (hashpower s + 1)))) NULL]>
                   (arrays s);
       items := items s |}.
Proof.
  intros Hn. unfold assoc_expand, calloc.
  rewrite (decide_False (P := new = NULL)) by done. simpl.
  by rewrite decide_True.
Qed.

Lemma assoc_expand_failure s :
  assoc_expand NULL s = set_old (primary_hashtable s) s.
Proof. unfold assoc_expand, calloc. simpl. by unfold set_primary, set_old. Qed.

Lemma chains_replicate (h : gmap Z item) (n : nat) :
  Forall2 (chain h) (replicate n NULL) (replicate n []).
Proof. apply Forall2_replicate. constructor. Qed.

Lemma concat_replicate_nil (n : nat) : concat (replicate n ([] : list Z)) = [].
Proof. induction n; simpl; done. Qed.

Lemma expand_wf s new :
  wf hash s → expanding s = false → hashpower s < 63 → new ≠ NULL →
  arrays s !! new = None →
  wf hash (assoc_expand new s) ∧ linked (assoc_expand new s) = linked s.
Proof.
  intros Hwf He Hhp63 Hn Hfresh. apply wf_views in Hwf as (P & O & Hv & Hw).
  destruct Hw as (Hsh & Hnd & HplP & HplO & Hfr). simpl in HplP, HplO, Hfr.
  pose proof Hsh as (Hhp & Hpn & HlenP & Hexp).
  pose proof Hv as [(Parr & HParr & HFP) HO]. rewrite He in HO. subst O.
  rewrite assoc_expand_success by done.
  rewrite !(u32_small (hashpower s + 1)) by lia.
  rewrite (hashsize_pow2 (hashpower s + 1)) by lia.
  assert (Hpos : 0 < 2 ^ (hashpower s + 1)) by (apply pow2_pos; lia).
  assert (Hnp : new ≠ primary_hashtable s) by congruence.
  set (N := Z.to_nat (2 ^ (hashpower s + 1))).
  set (s' := Table _ _ _ _ _ _ _).
  assert (Hv' : views s' (replicate N []) P).
  { split; simpl.
    - eexists. rewrite lookup_insert_eq. split; [done|]. apply chains_replicate.
    - exists Parr. by rewrite lookup_insert_ne. }
  split.
  - apply wf_views. exists (replicate N []), P. split; [done|].
    split; [|split; [|split; [|split; [|split]]]]; simpl.
    + unfold shape, block_len. simpl. split; [lia|]. split; [done|].
      rewrite lookup_insert_eq. simpl. rewrite length_replicate.
      rewrite (hashsize_pow2 (hashpower s + 1)) by lia.
      split; [f_equal; unfold N; lia|]. intros _.
      replace (hashpower s + 1 - 1) with (hashpower s) by lia.
      rewrite lookup_insert_ne by done.
      do 2 (split; [done|]). split; [lia|]. split; [|done].
      rewrite hashsize_pow2 by done. split; [done|]. apply pow2_pos. lia.
    + unfold linked_of in *. simpl in *. rewrite concat_replicate_nil.
      by rewrite app_nil_r in Hnd.
    + intros b l [-> _]%lookup_replicate. constructor.
    + by replace (hashpower s + 1 - 1) with (hashpower s) by lia.
    + intros b l [-> _]%lookup_replicate. done.
    + intros b l _ Hlt. lia.
  - rewrite (linked_views _ _ _ Hv'), (linked_views _ _ _ Hv).
    by rewrite concat_replicate_nil, app_nil_r.
Qed.

Lemma expand_fail_wf s :
  wf hash s → expanding s = false →
  wf hash (assoc_expand NULL s) ∧ linked (assoc_expand NULL s) = linked s.
Proof.
  intros Hwf He. rewrite assoc_expand_failure.
  apply wf_views in Hwf as (P & O & Hv & Hw).
  assert (Hv' : views (set_old (primary_hashtable s) s) P O).
  { destruct Hv as [HP HO]. split; [done|]. simpl. by rewrite He in *. }
  split.
  - apply wf_views. exists P, O. split; [done|].
    destruct Hw as (Hsh & Hnd & HplP & HplO & Hfr).
    split; [|done]. destruct Hsh as (? & ? & ? & ?).
    unfold shape. simpl. rewrite He. done.
  - by rewrite (linked_views _ _ _ Hv'), (linked_views _ _ _ Hv).
Qed.

(** ** Histories *)

Lemma assoc_expand_items new s : items (assoc_expand new s) = items s.
Proof.
  destruct (decide (new = NULL)) as [->|Hn].
  - by rewrite assoc_expand_failure.
  - by rewrite assoc_expand_success.
Qed.

(** An allowed operation on a well-formed table returns, keeps the table
    well formed and the keys in place, and keeps every linked item linked
    unless it is a delete of the key of that item. *)
Lemma run_op_wf s o :
  wf hash s → allowed s o →
  ∃ s1, run_op hash s o = Some s1 ∧ wf hash s1 ∧
        same_keys (items s) (items s1) ∧
        (∀ p i, p ∈ linked s → items s !! p = Some i →
                ¬ deletes (ITEM_key i) (nkey i) o → p ∈ linked s1).
Proof.
  intros Hwf Hal. destruct o as [p|key n|new|acq]; simpl in *.
  - destruct Hal as (Hn & Hfresh & i & Hi & Hno). rewrite Hi. simpl.
    destruct (insert_wf s p i Hwf Hi Hn Hfresh) as (s1 & Hins & Hwf1 & Hperm & Hfr).
    { intros q Hq Hkid. specialize (Hno _ Hq).
      apply matchb_kid in Hkid. congruence. }
    exists s1. split; [done|]. split; [done|].
    split; [by destruct Hfr as (_&_&_&_&_&_&?)|].
    intros q iq Hq _ _. rewrite Hperm. by right.
  - destruct (delete_wf s key n Hwf Hal) as (s1 & b & Hdel & Hwf1 & Hb & Hmb & Hperm & Hfr).
    rewrite Hdel. simpl. exists s1. split; [done|]. split; [done|].
    split; [by destruct Hfr as (_&_&_&_&_&_&?)|].
    intros q iq Hq Hiq Hnd. rewrite Hperm in Hq.
    apply elem_of_cons in Hq as [->|Hq]; [|done]. exfalso. apply Hnd.
    apply matchb_kid in Hmb. rewrite Hiq in Hmb. simpl in *.
    unfold item_kid in Hmb. congruence.
  - destruct Hal as (He & Hhp & Hnew). exists (assoc_expand new s).
    split; [done|]. rewrite assoc_expand_items.
    destruct (decide (new = NULL)) as [->|Hn].
    + destruct (expand_fail_wf s Hwf He) as [Hwf1 Hl]. rewrite Hl.
      split; [done|]. split; [done|]. auto.
    + destruct Hnew as [?|Hnew]; [done|].
      destruct (expand_wf s new Hwf He Hhp Hn Hnew) as [Hwf1 Hl]. rewrite Hl.
      split; [done|]. split; [done|]. auto.
  - destruct acq; simpl.
    + destruct (maintenance_step_wf s Hwf Hal)
        as (m & s1 & l & Hmig & -> & Hstep & _ & _ & _ & Hwf1 & Hperm & Hk & _).
      unfold maintenance_step in Hstep. rewrite Hstep.
      exists (expansion_done m). split; [done|]. split; [done|]. split; [done|].
      intros q iq Hq _ _. by rewrite Hperm.
    + exists s. split; [done|]. split; [done|]. split; [done|]. auto.
Qed.

Lemma find_after_delete s key n s1 :
  wf hash s → (∃ q, q ∈ linked s ∧ matchb (items s) key n q = true) →
  assoc_delete s key n (hash32 hash key n) = Some (Removed s1) →
  assoc_find s1 key n (hash32 hash key n) = Some NULL.
Proof.
  intros Hwf Hex Hdel.
  destruct (delete_wf s key n Hwf Hex) as (s1' & b & Hdel' & Hwf1 & Hb & Hmb & Hperm & Hfr).
  rewrite Hdel in Hdel'. injection Hdel' as <-.
  destruct (find_wf s1 key n Hwf1) as (r & -> & [[-> _]|[Hr Hm]]); [done|].
  exfalso. destruct Hfr as (_&_&_&_&_&_&Hk).
  rewrite (same_keys_matchb _ _ _ _ _ Hk) in Hm.
  assert (r ∈ linked s) by (rewrite Hperm; by right).
  assert (r = b) as -> by (by eapply (linked_match_unique s key n)).
  pose proof (wf_linked_NoDup s Hwf) as Hnd. rewrite Hperm in Hnd.
  by apply NoDup_cons in Hnd as [? _].
Qed.

(** C3: an item inserted under the hash of its key (the item not yet
    linked, its key not yet in the table) is what [assoc_find] returns for
    that key after the insert and after any later history of inserts,
    deletes, expansion starts and migration steps that contains no delete
    of that key (a second insert of the key is not allowed while it is in
    the table); and when the key is then deleted, [assoc_delete] removes
    the item and [assoc_find] returns the null pointer. *)
Theorem find_insert_delete_round_trip (s : table) (p : Z) (i : item) :
  wf hash s → items s !! p = Some i → p ≠ NULL → p ∉ linked s →
  Forall (λ q, matchb (items s) (ITEM_key i) (nkey i) q = false) (linked s) →
  ∃ s1,
    assoc_insert s p (hash32 hash (ITEM_key i) (nkey i)) = Some s1 ∧
    ∀ ops s2, runs hash s1 ops s2 →
      Forall (λ o, ¬ deletes (ITEM_key i) (nkey i) o) ops →
      assoc_find s2 (ITEM_key i) (nkey i) (hash32 hash (ITEM_key i) (nkey i))
        = Some p ∧
      ∃ s3,
        assoc_delete s2 (ITEM_key i) (nkey i) (hash32 hash (ITEM_key i) (nkey i))
          = Some (Removed s3) ∧
        assoc_find s3 (ITEM_key i) (nkey i) (hash32 hash (ITEM_key i) (nkey i))
          = Some NULL.
Proof.
  intros Hwf Hi Hn Hfresh Hno. rewrite Forall_forall in Hno.
  destruct (insert_wf s p i Hwf Hi Hn Hfresh) as (s1 & Hins & Hwf1 & Hperm & Hfr).
  { intros q Hq Hkid. specialize (Hno _ Hq). apply matchb_kid in Hkid. congruence. }
  exists s1. split; [done|]. intros ops s2 Hruns Hnodel.
  assert (Hp1 : p ∈ linked s1) by (rewrite Hperm; by left).
  assert (Hk1 : (λ j, (nkey j, ITEM_key j)) <$> items s1 !! p
                = Some (nkey i, ITEM_key i)).
  { destruct Hfr as (_&_&_&_&_&_&Hk). by rewrite <- Hk, Hi. }
  clear Hins Hperm Hfr Hwf Hi Hfresh Hno.
  assert (Hinv : wf hash s2 ∧ p ∈ linked s2 ∧
    (λ j, (nkey j, ITEM_key j)) <$> items s2 !! p = Some (nkey i, ITEM_key i)).
  { induction Hruns as [s1|s1 o s1' os s2 Hal Hrun _ IH]; [done|].
    apply Forall_cons in Hnodel as [Hno Hnodel].
    destruct (run_op_wf s1 o Hwf1 Hal) as (s1'' & Hrun' & Hwf' & Hk & Hkeep).
    rewrite Hrun in Hrun'. injection Hrun' as <-.
    destruct (items s1 !! p) as [i1|] eqn:Hi1; simpl in Hk1; [|done].
    injection Hk1 as Hnk Hkey.
    apply IH; try done.
    - eapply Hkeep; [done|done|]. by rewrite Hnk, Hkey.
    - rewrite <- Hk, Hi1. simpl. by rewrite Hnk, Hkey. }
  destruct Hinv as (Hwf2 & Hp2 & Hk2).
  destruct (items s2 !! p) as [i2|] eqn:Hi2; simpl in Hk2; [|done].
  injection Hk2 as Hnk Hkey.
  pose proof (find_linked s2 p i2 Hwf2 Hp2 Hi2) as Hfind.
  rewrite Hnk, Hkey in Hfind. split; [done|].
  assert (Hex : ∃ q, q ∈ linked s2 ∧ matchb (items s2) (ITEM_key i) (nkey i) q = true).
  { exists p. split; [done|]. rewrite <- Hnk, <- Hkey. by apply matchb_self. }
  destruct (delete_wf s2 _ _ Hwf2 Hex) as (s3 & b & Hdel & _).
  exists s3. split; [done|]. by eapply find_after_delete.
Qed.

(** ** Deleting splices one item out *)

(** C8: when some item of the chain of the key's bucket matches the key,
    [assoc_delete] does not reach its assertion; it removes the first
    matching item [b] of the chain [l1 ++ b :: l2]: the link that pointed to
    [b] (the bucket slot, or [h_next] of the item before it) now holds what
    [b]'s [h_next] held, [b]'s own [h_next] is null, no other item of the
    heap has changed and the item before [b] has changed in its link only,
    no other slot has changed, and the chain of the bucket is
    [l1 ++ l2]. *)
Theorem delete_splices_match (s : table) (key : list byte) (n hv : Z)
    (a b0 : Z) (arr : list Z) (head : Z) (l : list Z) :
  0 ≤ hv < 2 ^ 32 → 0 ≤ hashpower s < 2 ^ 32 →
  bucket_slot s hv = Bucket a b0 →
  arrays s !! a = Some arr → arr !! Z.to_nat b0 = Some head →
  chain_of (walk_fuel s) (items s) head = Some l →
  Exists (λ q, matchb (items s) key n q = true) l →
  ∃ l1 b ib l2 s',
    l = l1 ++ b :: l2 ∧
    Forall (λ q, matchb (items s) key n q = false) l1 ∧
    matchb (items s) key n b = true ∧
    items s !! b = Some ib ∧
    assoc_delete s key n hv = Some (Removed s') ∧
    load s' (from_option HNext (Bucket a b0) (last l1)) = Some (h_next ib) ∧
    items s' !! b = Some (set_h_next NULL ib) ∧
    (∀ q, q ≠ b → last l1 ≠ Some q → items s' !! q = items s !! q) ∧
    same_keys (items s) (items s') ∧
    (∀ a' j, (a', Z.to_nat j) ≠ (a, Z.to_nat b0) →
             arr_load s' a' j = arr_load s a' j) ∧
    (∃ head', arr_load s' a b0 = Some head' ∧
              chain (items s') head' (l1 ++ l2)) ∧
    hashpower s' = hashpower s ∧ primary_hashtable s' = primary_hashtable s ∧
    old_hashtable s' = old_hashtable s ∧ expanding s' = expanding s ∧
    expand_bucket s' = expand_bucket s.
Proof.
  intros Hhv Hhp Hslot Ha Hhead Hc (q & Hq & Hmq)%Exists_exists.
  apply chain_of_sound in Hc.
  assert (Hfound : first_match (items s) key n l ≠ NULL).
  { intros Hnull. apply first_match_null in Hnull; [|by eapply chain_not_null].
    rewrite Forall_forall in Hnull. specialize (Hnull _ Hq). congruence. }
  destruct (delete_slot s a arr b0 head l key n Ha Hhead Hc Hfound)
    as (l1 & b & ib & l2 & s' & Hsplit & Hb & Hrm & Hl1 & Hm & Hib & Hbn & Hdel
        & H1 & H2 & H3 & H4 & H5 & Hcase).
  destruct (addressing s hv Hhv Hhp) as (_ & _ & _ & Hdelete & _).
  exists l1, b, ib, l2, s'. do 4 (split; [done|]).
  split; [by rewrite Hdelete, Hslot|].
  assert (Hidx : (Z.to_nat b0 < length arr)%nat) by by eapply lookup_lt_Some.
  destruct (last l1) as [pr|] eqn:Hlast; simpl.
  - destruct Hcase as (ipr & Hpr & Hne & Hnext & Harr & Hitems & Hc').
    split; [|split; [|split; [|split; [|split; [|split]]]]]; try done.
    + unfold load. rewrite Hitems, lookup_insert_eq. done.
    + rewrite Hitems, lookup_insert_ne, lookup_insert_eq; done.
    + intros x Hxb Hxp. rewrite Hitems, !lookup_insert_ne; [done|done|congruence].
    + rewrite Hitems. by apply same_keys_links.
    + intros a' j _. unfold arr_load. by rewrite Harr.
    + exists head. split; [|done]. unfold arr_load. rewrite Harr, Ha. done.
  - destruct Hcase as (-> & Harr & Hitems & Hc').
    apply last_None in Hlast as ->. simpl in *.
    split; [|split; [|split; [|split; [|split; [|split]]]]]; try done.
    + unfold load, arr_load. rewrite Harr, lookup_insert_eq. simpl.
      by rewrite list_lookup_insert_eq.
    + by rewrite Hitems, lookup_insert_eq.
    + intros x Hxb _. by rewrite Hitems, lookup_insert_ne.
    + rewrite Hitems. by apply same_keys_insert.
    + intros a' j Hne. unfold arr_load. rewrite Harr.
      destruct (decide (a = a')) as [<-|Hna].
      * rewrite lookup_insert_eq, Ha. simpl.
        rewrite list_lookup_insert_ne; [done|]. congruence.
      * by rewrite lookup_insert_ne.
    + exists (h_next ib). split; [|done].
      unfold arr_load. rewrite Harr, lookup_insert_eq. simpl.
      by rewrite list_lookup_insert_eq.
Qed.

(** ** The shape of the arrays is kept *)

Lemma relink_loop_same_frame fuel : ∀ s p s',
  relink_loop hash fuel s p = Some s' → same_frame s s'.
Proof.
  induction fuel as [|fuel IH]; intros s p s'; simpl; [done|].
  case_decide; [intros [= <-]; apply same_frame_refl|].
  destruct (items s !! p) as [i|]; simpl; [|done].
  destruct (arr_load s _ _) as [head|]; simpl; [|done].
  destruct (store s (HNext p) head) as [s1|] eqn:H1; simpl; [|done].
  destruct (store s1 _ p) as [s2|] eqn:H2; simpl; [|done].
  intros Hrun. apply store_same_frame in H1, H2. apply IH in Hrun.
  eauto using same_frame_trans.
Qed.

Lemma shape_old_while_expanding s : shape s → old_while_expanding s.
Proof.
  intros (Hhp & Hpn & HlenP & Hexp) He.
  destruct (Hexp He) as (Hon & Hne & Hhp1 & Heb & HlenO).
  split; [done|]. eexists _, _. split; [done|]. split; [done|].
  rewrite !hashsize_pow2 by lia.
  replace (hashpower s) with (1 + (hashpower s - 1)) at 2 by lia.
  rewrite Z.pow_add_r by lia. done.
Qed.

Lemma shape_expand s new :
  shape s → expanding s = false → hashpower s < 63 →
  new = NULL ∨ arrays s !! new = None → shape (assoc_expand new s).
Proof.
  intros Hsh He Hhp63 Hnew. pose proof Hsh as (Hhp & Hpn & HlenP & _).
  destruct (decide (new = NULL)) as [->|Hn].
  - rewrite assoc_expand_failure. unfold shape. simpl. by rewrite He.
  - destruct Hnew as [?|Hfresh]; [done|].
    rewrite assoc_expand_success by done.
    rewrite !(u32_small (hashpower s + 1)) by lia.
    assert (Hnp : new ≠ primary_hashtable s).
    { intros ->. unfold block_len in HlenP. by rewrite Hfresh in HlenP. }
    unfold shape, block_len in *. simpl. split; [lia|]. split; [done|].
    rewrite lookup_insert_eq. simpl. rewrite length_replicate.
    assert (0 ≤ hashsize (hashpower s + 1)).
    { rewrite hashsize_pow2 by lia. apply Z.lt_le_incl, pow2_pos. lia. }
    split; [f_equal; lia|]. intros _.
    replace (hashpower s + 1 - 1) with (hashpower s) by lia.
    rewrite lookup_insert_ne by done.
    do 2 (split; [done|]). split; [lia|]. split; [|done].
    rewrite hashsize_pow2 by done. split; [done|]. apply pow2_pos. lia.
Qed.

Lemma shape_maintenance_step s acq s' :
  shape s → expanding s = true →
  maintenance_step hash acq s = Some s' → shape s'.
Proof.
  intros Hsh He. destruct acq; simpl; [|by intros [= <-]].
  unfold migrate_bucket.
  destruct (arr_load s _ _) as [head|]; cbn [mbind option_bind fmap option_fmap option_map]; [|done].
  destruct (relink_loop _ _ _ _) as [s1|] eqn:Hrun; cbn [mbind option_bind fmap option_fmap option_map]; [|done].
  destruct (store s1 _ _) as [s2|] eqn:Hst; cbn [mbind option_bind fmap option_fmap option_map]; [|done].
  intros [= <-].
  apply relink_loop_same_frame in Hrun. apply store_same_frame in Hst.
  pose proof (same_frame_trans _ _ _ Hrun Hst) as (H1 & H2 & H3 & H4 & H5 & Hbl & _).
  destruct Hsh as (Hhp & Hpn & HlenP & Hexp).
  destruct (Hexp He) as (Hon & Hne & Hhp1 & Heb & HlenO).
  rewrite hashsize_pow2 in Heb by lia.
  assert (Hu : u64 (expand_bucket s2 + 1) = expand_bucket s + 1).
  { rewrite H5. unfold u64. apply Z.mod_small.
    assert (2 ^ (hashpower s - 1) < 2 ^ 64) by (apply Z.pow_lt_mono_r; lia). lia. }
  unfold expansion_done. simpl. rewrite Hu, H1, H3.
  rewrite hashsize_u32_pred, hashsize_pow2 by lia.
  case_decide as Hdone; unfold shape, block_len; simpl.
  - rewrite ?H1, ?H2. do 2 (split; [done|]). split; [|done].
    rewrite lookup_delete_ne by done.
    specialize (Hbl (primary_hashtable s)). unfold block_len in Hbl.
    by rewrite Hbl.
  - rewrite ?H1, ?H2, ?H3, ?H4, ?Hu. do 2 (split; [done|]).
    pose proof (Hbl (primary_hashtable s)) as HbP.
    pose proof (Hbl (old_hashtable s)) as HbO. unfold block_len in HbP, HbO.
    rewrite HbP, HbO. split; [done|]. intros _.
    do 3 (split; [done|]). split; [|done].
    rewrite hashsize_pow2 by lia. lia.
Qed.

(** C5 as stated fails: after a failed start of an expansion the old array
    reference is non-null (it aliases the primary array) although the table
    is not expanding. *)
Lemma old_nonnull_when_stable_counterexample :
  old_iff_expanding Example.stable ∧
  expanding (assoc_expand NULL Example.stable) = false ∧
  old_hashtable (assoc_expand NULL Example.stable) ≠ NULL ∧
  ¬ old_iff_expanding (assoc_expand NULL Example.stable).
Proof.
  split; [|split; [done|split; [done|]]].
  - split; [|done]. split; [|done]. intros H. by destruct H.
  - intros [[Hiff _] _]. assert (Hf := Hiff ltac:(done)). discriminate Hf.
Qed.

(** C5, amended: while the table is expanding the old array reference is
    non-null and the old array has half the length of the primary array,
    and this holds on with the shape of the arrays through a start of an
    expansion (the allocation failed or not), through every migration step
    and through the completion of the expansion.  When the table is not
    expanding nothing is kept about the old reference. *)
Theorem old_array_while_expanding (s : table) :
  shape s →
  old_while_expanding s ∧
  (∀ new, expanding s = false → hashpower s < 63 →
          new = NULL ∨ arrays s !! new = None →
          shape (assoc_expand new s) ∧
          old_while_expanding (assoc_expand new s)) ∧
  (∀ acq s', expanding s = true →
             maintenance_step hash acq s = Some s' →
             shape s' ∧ old_while_expanding s').
Proof.
  intros Hsh. split; [by apply shape_old_while_expanding|]. split.
  - intros new He Hhp Hnew.
    pose proof (shape_expand s new Hsh He Hhp Hnew) as Hsh'.
    split; [done|]. by apply shape_old_while_expanding.
  - intros acq s' He Hstep.
    pose proof (shape_maintenance_step s acq s' Hsh He Hstep) as Hsh'.
    split; [done|]. by apply shape_old_while_expanding.
Qed.

(** ** A whole expansion *)

Lemma wf_shape s : wf hash s → shape s.
Proof. intros Hwf. apply wf_views in Hwf as (P & O & _ & Hsh & _). done. Qed.

Lemma remaining_stable s : expanding s = false → remaining s = 0.
Proof. intros He. unfold remaining. by rewrite He. Qed.

Lemma remaining_expanding s :
  shape s → expanding s = true →
  remaining s = 2 ^ (hashpower s - 1) - expand_bucket s ∧ 0 < remaining s.
Proof.
  intros (Hhp & _ & _ & Hexp) He. destruct (Hexp He) as (_ & _ & Hhp1 & Heb & _).
  unfold remaining. rewrite He. rewrite hashsize_pow2 in * by lia. lia.
Qed.

Lemma remaining_nonneg s : shape s → 0 ≤ remaining s.
Proof.
  intros Hsh. destruct (expanding s) eqn:He.
  - destruct (remaining_expanding s Hsh He). lia.
  - by rewrite remaining_stable.
Qed.

Lemma maintenance_step_remaining s :
  wf hash s → expanding s = true →
  ∃ s', maintenance_step hash true s = Some s' ∧ wf hash s' ∧
        linked s' ≡ₚ linked s ∧ same_keys (items s) (items s') ∧
        hashpower s' = hashpower s ∧
        primary_hashtable s' = primary_hashtable s ∧
        remaining s' = remaining s - 1.
Proof.
  intros Hwf He.
  destruct (maintenance_step_wf s Hwf He)
    as (m & s' & l & _ & _ & Hstep & _ & _ & _ & Hwf' & Hperm & Hk & H1 & H2 & H5
        & _ & Hcase).
  exists s'. do 6 (split; [done|]).
  destruct (remaining_expanding s (wf_shape s Hwf) He) as [-> _].
  case_decide as Hdone.
  - rewrite remaining_stable by done. lia.
  - destruct Hcase as [He' _].
    destruct (remaining_expanding s' (wf_shape s' Hwf') He') as [-> _].
    rewrite H1, H5. lia.
Qed.

Lemma bulk_move_for_wf bulk fuel : ∀ ii s,
  wf hash s →
  ∃ s', bulk_move_for hash (λ _, true) fuel ii bulk s = Some s' ∧ wf hash s' ∧
        linked s' ≡ₚ linked s ∧ same_keys (items s) (items s') ∧
        hashpower s' = hashpower s ∧
        primary_hashtable s' = primary_hashtable s ∧
        remaining s' ≤ remaining s ∧
        ((0 < fuel)%nat → ii < bulk → 0 < remaining s →
         remaining s' ≤ remaining s - 1).
Proof.
  induction fuel as [|fuel IH]; intros ii s Hwf; simpl.
  - exists s. do 6 (split; [done|]). split; [lia|]. lia.
  - destruct ((ii <? bulk) && expanding s) eqn:Hcond.
    + apply andb_prop in Hcond as [Hii He].
      destruct (maintenance_step_remaining s Hwf He)
        as (s1 & Hstep & Hwf1 & Hperm1 & Hk1 & Hhp1 & Hp1 & Hrem1).
      unfold maintenance_step in Hstep. rewrite Hstep. cbn [mbind option_bind].
      destruct (IH (ii + 1) s1 Hwf1)
        as (s' & Hrun & Hwf' & Hperm & Hk & Hhp & Hp & Hrem & _).
      exists s'. split; [done|]. split; [done|].
      split; [by rewrite Hperm|]. split; [by eapply same_keys_trans|].
      split; [congruence|]. split; [congruence|]. split; lia.
    + exists s. do 6 (split; [done|]). split; [lia|]. intros _ Hii Hrem.
      apply andb_false_iff in Hcond as [Hc|Hc].
      * apply Z.ltb_ge in Hc. lia.
      * rewrite remaining_stable in Hrem by done. lia.
Qed.

Lemma maintenance_rounds_wf bulk n : ∀ s,
  wf hash s → 1 ≤ bulk →
  ∃ s', maintenance_rounds hash n bulk s = Some s' ∧ wf hash s' ∧
        linked s' ≡ₚ linked s ∧ same_keys (items s) (items s') ∧
        hashpower s' = hashpower s ∧
        primary_hashtable s' = primary_hashtable s ∧
        remaining s' ≤ Z.max 0 (remaining s - Z.of_nat n).
Proof.
  induction n as [|n IH]; intros s Hwf Hbulk; simpl.
  - exists s. do 6 (split; [done|]). pose proof (remaining_nonneg s (wf_shape s Hwf)). lia.
  - unfold maintenance_round.
    destruct (bulk_move_for_wf bulk (Z.to_nat bulk) 0 s Hwf)
      as (s1 & Hrun1 & Hwf1 & Hperm1 & Hk1 & Hhp1 & Hp1 & Hrem1 & Hdec).
    rewrite Hrun1. cbn [mbind option_bind].
    destruct (IH s1 Hwf1 Hbulk) as (s' & Hrun & Hwf' & Hperm & Hk & Hhp & Hp & Hrem).
    exists s'. split; [done|]. split; [done|].
    split; [by rewrite Hperm|]. split; [by eapply same_keys_trans|].
    split; [congruence|]. split; [congruence|].
    pose proof (remaining_nonneg s (wf_shape s Hwf)).
    destruct (decide (0 < remaining s)) as [Hpos|Hzero].
    + specialize (Hdec ltac:(lia) ltac:(lia) Hpos). lia.
    + lia.
Qed.

(** Where a linked item of the primary array is: in the chain of the slot
    of its hash under the current mask. *)
Lemma linked_primary_chain s P O q i :
  views s P O → wf_view hash s (P, O) → q ∈ concat P → items s !! q = Some i →
  ∃ lb,
    arr_load s (primary_hashtable s)
      (Z.land (hash32 hash (ITEM_key i) (nkey i)) (primary_length s - 1))
      ≫= chain_of (walk_fuel s) (items s) = Some lb ∧ q ∈ lb.
Proof.
  intros Hv (Hsh & _ & HplP & _) Hq Hi. simpl in HplP.
  apply elem_of_concat in Hq as (b & lb & Hb & Hq).
  pose proof (HplP _ _ Hb) as Hpl. unfold placed in Hpl.
  rewrite Forall_forall in Hpl. specialize (Hpl _ Hq).
  rewrite Hi in Hpl. simpl in Hpl. injection Hpl as Hhome.
  pose proof Hsh as (Hhp & _).
  assert (Hland : Z.land (hash32 hash (ITEM_key i) (nkey i)) (primary_length s - 1)
                  = Z.of_nat b).
  { rewrite <- Hhome. unfold home, hashmask, primary_length.
    by rewrite land_u64_r by apply hash32_range. }
  rewrite Hland.
  destruct (primary_slot s P O (Z.of_nat b) Hv Hsh) as (head & l' & Hload & Hl' & Hc).
  { rewrite <- Hhome, home_mod by done. apply Z.mod_pos_bound, pow2_pos. lia. }
  rewrite Nat2Z.id in Hl'. rewrite Hb in Hl'. injection Hl' as <-.
  exists lb. split; [|done]. unfold load in Hload. rewrite Hload. simpl.
  by apply chain_of_spec.
Qed.

Lemma same_keys_item (h h' : gmap Z item) p i :
  same_keys h h' → h !! p = Some i →
  ∃ i', h' !! p = Some i' ∧ nkey i' = nkey i ∧ ITEM_key i' = ITEM_key i.
Proof.
  intros Hk Hp. specialize (Hk p). rewrite Hp in Hk.
  destruct (h' !! p) as [i'|]; simpl in Hk; [|done].
  injection Hk as Hn Hkey. eauto.
Qed.

(** C2: on a well-formed expanding table one migration step with the bucket
    lock acquired returns; it moves every item of the chain of
    [old_hashtable[expand_bucket]] into the chain of the primary slot of the
    hash of its key under the wider mask, leaves the old slot null and
    [expand_bucket] one higher (then, after the last bucket, frees the old
    array); the table stays well formed with the same items.  A whole cycle
    from a stable well-formed table (a successful [assoc_expand], then the
    migration loop with every trylock successful and a batch size of at
    least 1) ends stable with the hash power one higher, the same linked
    items, and each of them found by [assoc_find] under its key, in the
    chain of a slot of the new primary array. *)
Theorem migration_step_and_cycle (s : table) :
  wf hash s →
  (expanding s = true →
   ∃ l m s',
     0 ≤ expand_bucket s < old_length s ∧
     arr_load s (old_hashtable s) (expand_bucket s)
       ≫= chain_of (walk_fuel s) (items s) = Some l ∧
     migrate_bucket hash s = Some m ∧
     maintenance_step hash true s = Some s' ∧ s' = expansion_done m ∧
     arr_load m (old_hashtable s) (expand_bucket s) = Some NULL ∧
     expand_bucket m = expand_bucket s + 1 ∧
     expand_bucket s' = expand_bucket s + 1 ∧
     (∀ q i, q ∈ l → items s !! q = Some i →
        ∃ lb, arr_load s' (primary_hashtable s')
                (Z.land (hash32 hash (ITEM_key i) (nkey i)) (primary_length s' - 1))
                ≫= chain_of (walk_fuel s') (items s') = Some lb ∧ q ∈ lb) ∧
     wf hash s' ∧ linked s' ≡ₚ linked s) ∧
  (expanding s = false → hashpower s < 63 →
   ∀ new bulk, new ≠ NULL → arrays s !! new = None → 1 ≤ bulk →
   ∃ s', expansion_cycle hash new bulk s = Some s' ∧
         expanding s' = false ∧ hashpower s' = hashpower s + 1 ∧
         primary_hashtable s' = new ∧
         wf hash s' ∧ linked s' ≡ₚ linked s ∧
         ∀ p i, p ∈ linked s → items s !! p = Some i →
           assoc_find s' (ITEM_key i) (nkey i)
             (hash32 hash (ITEM_key i) (nkey i)) = Some p ∧
           ∃ lb, arr_load s' new
                   (Z.land (hash32 hash (ITEM_key i) (nkey i)) (primary_length s' - 1))
                   ≫= chain_of (walk_fuel s') (items s') = Some lb ∧ p ∈ lb).
Proof.
  intros Hwf. split.
  - intros He.
    destruct (maintenance_step_wf s Hwf He)
      as (m & s' & l & Hmig & Hs' & Hstep & Hl & Hnull & Hebm & Hwf' & Hperm & Hk
          & H1 & H2 & H5 & (P' & O' & Hv' & HlP') & Hcase).
    exists l, m, s'. split.
    { destruct (wf_shape s Hwf) as (Hhp & _ & _ & Hexp).
      destruct (Hexp He) as (_ & _ & _ & Heb & _). done. }
    do 7 (split; [done|]). split; [|done].
    intros q i Hq Hi.
    destruct (same_keys_item _ _ _ _ Hk Hi) as (i' & Hi' & Hn & Hkey).
    rewrite <- Hn, <- Hkey.
    apply (linked_primary_chain s' P' O'); try done; [|by apply HlP'].
    apply wf_views in Hwf' as (P'' & O'' & Hv'' & Hw'').
    apply view_spec in Hv', Hv''. rewrite Hv' in Hv''. by injection Hv'' as <- <-.
  - intros He Hhp new bulk Hn Hfresh Hbulk.
    destruct (expand_wf s new Hwf He Hhp Hn Hfresh) as [Hwf1 Hl1].
    pose proof (wf_shape s Hwf) as (Hhp0 & _).
    assert (Hs1 : let s1 := assoc_expand new s in
              hashpower s1 = hashpower s + 1 ∧ primary_hashtable s1 = new ∧
              expanding s1 = true ∧ expand_bucket s1 = 0 ∧ items s1 = items s).
    { rewrite assoc_expand_success by done. simpl. by rewrite u32_small by lia. }
    destruct Hs1 as (Hhp1 & Hp1 & He1 & Heb1 & Hi1).
    destruct (maintenance_rounds_wf bulk (Z.to_nat (hashsize (hashpower s)))
                (assoc_expand new s) Hwf1 Hbulk)
      as (s' & Hrun & Hwf' & Hperm & Hk & Hhp' & Hp' & Hrem).
    assert (He' : expanding s' = false).
    { destruct (expanding s') eqn:He'; [|done]. exfalso.
      destruct (remaining_expanding s' (wf_shape s' Hwf') He') as [_ Hpos].
      destruct (remaining_expanding _ (wf_shape _ Hwf1) He1) as [Hr1 _].
      rewrite Hr1, Hhp1, Heb1 in Hrem.
      replace (hashpower s + 1 - 1) with (hashpower s) in Hrem by lia.
      rewrite hashsize_pow2 in Hrem by lia.
      assert (0 < 2 ^ hashpower s) by (apply pow2_pos; lia). lia. }
    exists s'. split; [done|]. split; [done|]. split; [congruence|].
    split; [congruence|]. split; [done|]. split; [by rewrite Hperm, Hl1|].
    intros p i Hp Hi. rewrite Hi1 in Hk.
    destruct (same_keys_item _ _ _ _ Hk Hi) as (i' & Hi' & Hnk & Hkey).
    assert (Hp'' : p ∈ linked s') by (by rewrite Hperm, Hl1).
    rewrite <- Hnk, <- Hkey. split; [by apply find_linked|].
    apply wf_views in Hwf' as (P' & O' & Hv' & Hw').
    rewrite (linked_views _ _ _ Hv') in Hp''.
    assert (O' = []) as -> by (destruct Hv' as [_ HO]; by rewrite He' in HO).
    rewrite app_nil_r in Hp''.
    replace new with (primary_hashtable s') by congruence.
    by apply (linked_primary_chain s' P' []).
Qed.

(** ** The iterator *)

Lemma iterate_all_step fuel iterp g p g1 rest g2 :
  assoc_iterate iterp g = Some (true, p, g1) →
  iterate_all fuel iterp g1 = Some (rest, g2) →
  iterate_all (S fuel) iterp g
  = Some (if decide (p ≠ NULL) then p :: rest else rest, g2).
Proof. intros H1 H2. simpl. by rewrite H1, H2. Qed.

Lemma iterate_locked s iterp (k : Z) (Ls : list (list Z)) (cost : nat) :
  (∀ g it0 nxt0 fuel,
     iterators g !! iterp = Some (Iterator (u64 (k + 1)) it0 nxt0 false) →
     tab g = s → (cost ≤ fuel)%nat →
     ∃ g', iterate_all fuel iterp g = Some (concat Ls, g') ∧ tab g' = s) →
  ∀ rest g it0 nxt fuel,
    iterators g !! iterp = Some (Iterator k it0 nxt true) → tab g = s →
    chain (items s) nxt rest → (S (length rest) + cost ≤ fuel)%nat →
    ∃ g', iterate_all fuel iterp g = Some (rest ++ concat Ls, g') ∧ tab g' = s.
Proof.
  intros Hnext rest. induction rest as [|x rest IH]; intros g it0 nxt fuel Hit Htab Hc Hfuel.
  - inversion Hc; subst. destruct fuel as [|fuel]; [simpl in Hfuel; lia|].
    set (g1 := set_iterators (<[iterp := Iterator (u64 (k + 1)) it0 NULL false]>
                                (iterators g)) g).
    destruct (Hnext g1 it0 NULL fuel) as (g' & Hrun & Htab'); [| |simpl in Hfuel; lia|].
    { unfold g1. simpl. by rewrite lookup_insert_eq. }
    { done. }
    exists g'. split; [|done].
    rewrite (iterate_all_step fuel iterp g NULL g1 (concat Ls) g'); [done| |done].
    unfold assoc_iterate. rewrite Hit. simpl. done.
  - apply chain_head in Hc as (-> & Hxn & i & Hi & Hc).
    destruct fuel as [|fuel]; [simpl in Hfuel; lia|].
    set (g1 := set_iterators (<[iterp := Iterator k x (h_next i) true]>
                                (iterators g)) g).
    destruct (IH g1 x (h_next i) fuel) as (g' & Hrun & Htab'); [| |done|simpl in Hfuel; lia|].
    { unfold g1. simpl. by rewrite lookup_insert_eq. }
    { done. }
    exists g'. split; [|done].
    rewrite (iterate_all_step fuel iterp g x g1 (rest ++ concat Ls) g').
    + by rewrite decide_True.
    + unfold assoc_iterate. rewrite Hit. simpl. rewrite decide_True by done.
      rewrite Htab, Hi. done.
    + done.
Qed.

Lemma iterate_unlocked s iterp Parr P :
  0 ≤ hashpower s ≤ 63 →
  arrays s !! primary_hashtable s = Some Parr →
  Z.of_nat (length Parr) = 2 ^ hashpower s →
  Forall2 (chain (items s)) Parr P →
  ∀ Ls (k : nat) g it0 nxt0 fuel,
    drop k P = Ls → (k ≤ length P)%nat →
    iterators g !! iterp = Some (Iterator (Z.of_nat k) it0 nxt0 false) →
    tab g = s → (walk_cost Ls ≤ fuel)%nat →
    ∃ g', iterate_all fuel iterp g = Some (concat Ls, g') ∧ tab g' = s.
Proof.
  intros Hhp HParr Hlen HF Ls.
  pose proof (Forall2_length _ _ _ HF) as HlenP.
  assert (H64 : 2 ^ hashpower s < 2 ^ 64) by (apply Z.pow_lt_mono_r; lia).
  induction Ls as [|l Ls IH]; intros k g it0 nxt0 fuel Hdrop Hk Hit Htab Hfuel.
  - assert (k = length P) as ->.
    { apply (f_equal length) in Hdrop. rewrite length_drop in Hdrop. simpl in Hdrop. lia. }
    destruct fuel as [|fuel]; [simpl in Hfuel; lia|]. exists g. split; [|done].
    simpl. unfold assoc_iterate. rewrite Hit. simpl.
    rewrite decide_False; [done|]. intros Hne. apply Hne.
    rewrite Htab, hashsize_pow2 by done. lia.
  - assert (Hlk : P !! k = Some l).
    { rewrite <- (take_drop k P) at 1. rewrite Hdrop.
      rewrite lookup_app_r by (rewrite length_take; lia).
      rewrite length_take. by replace (k - k `min` length P)%nat with 0%nat by lia. }
    assert (Hdrop' : drop (S k) P = Ls).
    { erewrite drop_S in Hdrop by done. by injection Hdrop. }
    pose proof (lookup_lt_Some _ _ _ Hlk) as Hklt.
    destruct (Forall2_lookup_r _ _ _ _ _ HF Hlk) as (head & Hhead & Hc).
    assert (Hu : u64 (Z.of_nat k + 1) = Z.of_nat (S k)).
    { unfold u64. rewrite Z.mod_small; lia. }
    destruct fuel as [|fuel]; [simpl in Hfuel; lia|]. simpl in Hfuel.
    assert (Hload : arr_load (tab g) (primary_hashtable (tab g)) (Z.of_nat k) = Some head).
    { unfold arr_load. rewrite Htab, HParr. simpl. by rewrite Nat2Z.id. }
    assert (Hneq : Z.of_nat k ≠ hashsize (hashpower (tab g))).
    { rewrite Htab, hashsize_pow2 by done. lia. }
    destruct (decide (head = NULL)) as [->|Hhn].
    + apply chain_inv_nil in Hc as ->. simpl in Hfuel.
      set (g1 := set_iterators (<[iterp := Iterator (u64 (Z.of_nat k + 1)) NULL nxt0 false]>
                                  (iterators g)) g).
      destruct (IH (S k) g1 NULL nxt0 fuel) as (g' & Hrun & Htab');
        [done|lia| |done|lia|].
      { unfold g1. simpl. by rewrite lookup_insert_eq, Hu. }
      exists g'. split; [|done].
      rewrite (iterate_all_step fuel iterp g NULL g1 (concat Ls) g'); [done| |done].
      unfold assoc_iterate. rewrite Hit. simpl.
      rewrite decide_True by done. rewrite Hload. simpl. done.
    + destruct l as [|x l']; [by inversion Hc|].
      apply chain_head in Hc as (-> & _ & i & Hi & Hc').
      set (g1 := set_iterators (<[iterp := Iterator (Z.of_nat k) x (h_next i) true]>
                                  (iterators g)) g).
      assert (Hnext : ∀ g2 it2 nxt2 fuel2,
        iterators g2 !! iterp = Some (Iterator (u64 (Z.of_nat k + 1)) it2 nxt2 false) →
        tab g2 = s → (walk_cost Ls ≤ fuel2)%nat →
        ∃ g', iterate_all fuel2 iterp g2 = Some (concat Ls, g') ∧ tab g' = s).
      { intros g2 it2 nxt2 fuel2 Hit2 Htab2 Hfuel2. rewrite Hu in Hit2.
        eapply IH; try done. }
      assert (Hit1 : iterators g1 !! iterp
                     = Some (Iterator (Z.of_nat k) x (h_next i) true)).
      { unfold g1. simpl. by rewrite lookup_insert_eq. }
      simpl in Hfuel.
      destruct (iterate_locked s iterp (Z.of_nat k) Ls (walk_cost Ls) Hnext
                  l' g1 x (h_next i) fuel Hit1 Htab Hc' ltac:(lia))
        as (g' & Hrun & Htab').
      exists g'. split; [|done].
      rewrite (iterate_all_step fuel iterp g x g1 (l' ++ concat Ls) g').
      * by rewrite decide_True.
      * unfold assoc_iterate. rewrite Hit. simpl.
        rewrite decide_True by done. rewrite Hload. simpl.
        rewrite decide_True by done. rewrite Htab, Hi. done.
      * done.
Qed.

Lemma insert_stable_view s P q i :
  wf hash s → expanding s = false → view s = Some (P, []) →
  items s !! q = Some i → q ≠ NULL → q ∉ linked s →
  (∀ p, p ∈ linked s → matchb (items s) (ITEM_key i) (nkey i) p = false) →
  ∃ s1 (b : nat) l,
    assoc_insert s q (hash32 hash (ITEM_key i) (nkey i)) = Some s1 ∧
    P !! b = Some l ∧ view s1 = Some (<[b := q :: l]> P, []).
Proof.
  intros Hwf He Hview Hi Hn Hfresh Hno.
  apply view_spec in Hview as Hv.
  assert (Hw : wf_view hash s (P, [])) by (unfold wf in Hwf; by rewrite Hview in Hwf).
  rewrite (linked_views _ _ _ Hv) in Hfresh, Hno.
  pose proof Hw as (Hsh & _).
  pose proof (hash32_range (ITEM_key i) (nkey i)) as Hhv.
  destruct (addressing s _ Hhv (shape_hashpower _ Hsh)) as (_ & -> & _).
  rewrite bucket_slot_shape by done. rewrite He. simpl.
  assert (Hkey : ∀ p, p ∈ concat P ++ concat [] →
                 item_kid <$> items s !! p ≠ Some (item_kid i)).
  { intros p Hp Hkid. specialize (Hno _ Hp). apply matchb_kid in Hkid. congruence. }
  assert (Hside : expanding s = true →
    hash32 hash (ITEM_key i) (nkey i) mod 2 ^ (hashpower s - 1) < expand_bucket s)
    by (by rewrite He).
  destruct (push_primary_wf s P [] q i Hv Hw Hi Hn Hfresh Hkey Hside)
    as (s1 & l & Hpush & Hl & Hv' & _).
  exists s1, (Z.to_nat (hash32 hash (ITEM_key i) (nkey i) mod 2 ^ hashpower s)), l.
  split; [exact Hpush|]. split; [exact Hl|]. by apply view_spec.
Qed.

(** C7: an iterator opened on a stable well-formed table and advanced until
    [assoc_iterate] returns false visits exactly the linked items, each
    once: the chain of bucket 0 of the primary array in chain order, then
    that of bucket 1, and so on (only the primary array is read); and as an
    insert puts the new item at the head of the chain of its bucket, a
    later pass meets it before the older items of that bucket. *)
Theorem iterator_visits_each_once (s : table) (g : global) (iterp : Z) :
  wf hash s → expanding s = false → tab g = s →
  iterators g !! iterp = Some (Iterator 0 NULL NULL false) →
  ∃ P,
    view s = Some (P, []) ∧ linked s = concat P ∧ NoDup (linked s) ∧
    (∀ (b : nat) l, P !! b = Some l →
       arr_load s (primary_hashtable s) (Z.of_nat b)
         ≫= chain_of (walk_fuel s) (items s) = Some l) ∧
    (∀ fuel, (walk_cost P ≤ fuel)%nat →
       ∃ g', iterate_all fuel iterp g = Some (linked s, g') ∧ tab g' = s) ∧
    (∀ q i, items s !! q = Some i → q ≠ NULL → q ∉ linked s →
       (∀ p, p ∈ linked s → matchb (items s) (ITEM_key i) (nkey i) p = false) →
       ∃ s1 (b : nat) l,
         assoc_insert s q (hash32 hash (ITEM_key i) (nkey i)) = Some s1 ∧
         P !! b = Some l ∧ view s1 = Some (<[b := q :: l]> P, [])).
Proof.
  intros Hwf He Htab Hit.
  pose proof Hwf as Hwf0. apply wf_views in Hwf as (P & O & Hv & Hw).
  assert (O = []) as -> by (destruct Hv as [_ HO]; by rewrite He in HO).
  exists P. pose proof Hv as Hview. apply view_spec in Hview.
  split; [done|].
  assert (Hl : linked s = concat P).
  { rewrite (linked_views _ _ _ Hv). simpl. by rewrite app_nil_r. }
  split; [done|]. split; [by apply wf_linked_NoDup|].
  destruct Hw as (Hsh & _). pose proof Hsh as (Hhp & _ & HlenP & _).
  destruct Hv as [(Parr & HParr & HFP) _].
  apply block_len_lookup in HlenP as (Parr' & HParr' & HlenP).
  rewrite HParr in HParr'. injection HParr' as <-.
  rewrite hashsize_pow2 in HlenP by done.
  split; [|split].
  - intros b l Hb.
    destruct (Forall2_lookup_r _ _ _ _ _ HFP Hb) as (head & Hhead & Hc).
    unfold arr_load. rewrite HParr. simpl. rewrite Nat2Z.id, Hhead. simpl.
    by apply chain_of_spec.
  - intros fuel Hfuel. rewrite Hl.
    eapply (iterate_unlocked s iterp Parr P Hhp HParr HlenP HFP P 0%nat g);
      try done. lia.
  - intros q i Hi Hn Hfresh Hno. by eapply insert_stable_view.
Qed.

(** ** Tables that the program can reach *)

Lemma assoc_init_wf (HASHPOWER_DEFAULT hashtable_init res : Z) (h : gmap Z item) :
  0 ≤ (if decide (hashtable_init ≠ 0) then u32 hashtable_init
       else HASHPOWER_DEFAULT) ≤ 63 →
  res ≠ NULL →
  ∃ s, assoc_init hashtable_init res (boot HASHPOWER_DEFAULT h) = Some s ∧
       wf hash s ∧ linked s = [] ∧ expanding s = false ∧ items s = h.
Proof.
  intros Hhp Hn. unfold assoc_init, boot. simpl.
  rewrite (decide_False (P := res = NULL)) by done.
  set (hp := if decide (hashtable_init ≠ 0) then u32 hashtable_init
             else HASHPOWER_DEFAULT) in *.
  eexists. split; [done|].
  set (s := Table _ _ _ _ _ _ _).
  set (N := Z.to_nat (hashsize hp)).
  assert (Hv : views s (replicate N []) []).
  { split; simpl; [|done]. eexists. rewrite lookup_insert_eq. split; [done|].
    apply chains_replicate. }
  split; [|split; [|done]].
  - apply wf_views. exists (replicate N []), []. split; [done|].
    split; [|split; [|split; [|split; [|done]]]]; simpl.
    + unfold shape, block_len. simpl. split; [done|]. split; [done|].
      rewrite lookup_insert_eq. simpl. rewrite length_replicate.
      split; [|done]. f_equal. unfold N.
      rewrite hashsize_pow2 by done. pose proof (pow2_pos hp). lia.
    + unfold linked_of. simpl. rewrite concat_replicate_nil. constructor.
    + intros b l [-> _]%lookup_replicate. constructor.
    + by intros [|?] ? ?.
  - rewrite (linked_views _ _ _ Hv). by rewrite concat_replicate_nil.
Qed.

(** Every history of allowed operations from a well-formed table leads to a
    well-formed table. *)
Lemma runs_wf s ops s' : wf hash s → runs hash s ops s' → wf hash s'.
Proof.
  intros Hwf Hruns. induction Hruns as [s|s o s1 os s2 Hal Hrun _ IH]; [done|].
  destruct (run_op_wf s o Hwf Hal) as (s1' & Hrun' & Hwf1 & _).
  rewrite Hrun in Hrun'. injection Hrun' as <-. by apply IH.
Qed.
(** ** [_hashitem_before] and [assoc_find] walk the same chain *)

Lemma before_find_loop s key n : ∀ fuel pos p,
  load s pos = Some p →
  before_loop fuel s key n pos ≫= load s = find_loop fuel (items s) key n p.
Proof.
  induction fuel as [|fuel IH]; intros pos p Hpos; [done|].
  cbn [before_loop find_loop]. rewrite Hpos. cbn [mbind option_bind].
  case_decide as Hp.
  - cbn [mbind option_bind]. by rewrite Hpos, Hp.
  - destruct (items s !! p) as [i|] eqn:Hi; cbn [mbind option_bind]; [|done].
    unfold key_matches.
    destruct (n =? nkey i), (memcmp_eq key (ITEM_key i) n);
      cbn [negb orb andb mbind option_bind];
      try (apply IH; by apply load_hnext).
    done.
Qed.

Lemma before_find s key n hv :
  0 ≤ hv < 2 ^ 32 → 0 ≤ hashpower s < 2 ^ 32 →
  _hashitem_before s key n hv ≫= load s = assoc_find s key n hv.
Proof.
  intros Hhv Hhp.
  destruct (addressing s hv Hhv Hhp) as (Hfind & _ & Hbefore & _).
  rewrite Hfind, Hbefore.
  destruct (load s (bucket_slot s hv)) as [p|] eqn:Hp; cbn [mbind option_bind].
  - by apply before_find_loop.
  - unfold walk_fuel. cbn [before_loop]. by rewrite Hp.
Qed.

(** X1: The link that [_hashitem_before] returns holds the item that
    [assoc_find] returns for the same key and hash value, and the null
    pointer when [assoc_find] finds nothing; where one of the two has no
    defined result, neither has the other. This holds on every table. *)
Theorem before_points_to_found (s : table) (key : list byte) (n hv : Z) :
  0 ≤ hv < 2 ^ 32 → 0 ≤ hashpower s < 2 ^ 32 →
  _hashitem_before s key n hv ≫= load s = assoc_find s key n hv.
Proof. apply before_find. Qed.

(** ** [assoc_delete] against [assoc_find] *)

Lemma find_loop_match fuel h key n : ∀ p b,
  find_loop fuel h key n p = Some b → b ≠ NULL → matchb h key n b = true.
Proof.
  induction fuel as [|fuel IH]; intros p b; [done|]. cbn [find_loop].
  case_decide; [by intros [= <-]|].
  destruct (h !! p) as [i|] eqn:Hi; cbn [mbind option_bind]; [|done].
  destruct (key_matches key n i) eqn:Hm.
  - intros [= <-] _. unfold matchb. by rewrite Hi.
  - apply IH.
Qed.

Lemma store_defined s pos p v :
  load s pos = Some p → is_Some (store s pos v).
Proof.
  unfold load, arr_load, store. destruct pos as [a i|q].
  - destruct (arrays s !! a) as [l|]; cbn [mbind option_bind]; [|done].
    intros Hl. apply lookup_lt_Some in Hl. by rewrite decide_True.
  - destruct (items s !! q); cbn; [eauto|done].
Qed.

Lemma load_store_hnext s q v s1 pos p :
  store s (HNext q) v = Some s1 → load s pos = Some p → is_Some (load s1 pos).
Proof.
  unfold store. destruct (items s !! q) as [i|] eqn:Hq; cbn [mbind option_bind]; [|done].
  intros [= <-]. destruct pos as [a b|r]; [by eauto|].
  unfold load. cbn [items set_items].
  destruct (decide (q = r)) as [->|Hne].
  - rewrite lookup_insert_eq. by eauto.
  - rewrite lookup_insert_ne by done. intros ->. by eauto.
Qed.

Lemma unlink_defined s before b :
  load s before = Some b → b ≠ NULL → is_Some (items s !! b) →
  ∃ s', unlink s before = Some (Removed s').
Proof.
  intros Hb Hnull [ib Hib]. unfold unlink. rewrite Hb. cbn [mbind option_bind].
  rewrite decide_False by done.
  rewrite (load_hnext _ _ ib) by done. cbn [mbind option_bind].
  rewrite (store_hnext _ _ ib) by done. cbn [mbind option_bind].
  destruct (load_store_hnext s b 0 _ before b (store_hnext _ _ ib 0 Hib) Hb)
    as [b' Hb'].
  destruct (store_defined _ _ _ (h_next ib) Hb') as [s2 ->]. by eauto.
Qed.

Lemma find_match s key n hv b :
  0 ≤ hv < 2 ^ 32 → 0 ≤ hashpower s < 2 ^ 32 →
  assoc_find s key n hv = Some b → b ≠ NULL →
  matchb (items s) key n b = true.
Proof.
  intros Hhv Hhp. destruct (addressing s hv Hhv Hhp) as (-> & _).
  destruct (load s (bucket_slot s hv)); cbn [mbind option_bind]; [|done].
  apply find_loop_match.
Qed.

Lemma delete_find s key n hv :
  0 ≤ hv < 2 ^ 32 → 0 ≤ hashpower s < 2 ^ 32 →
  (assoc_delete s key n hv = Some AssertFailed
   ↔ assoc_find s key n hv = Some NULL) ∧
  ((∃ s', assoc_delete s key n hv = Some (Removed s'))
   ↔ ∃ b, assoc_find s key n hv = Some b ∧ b ≠ NULL) ∧
  (∀ b, assoc_find s key n hv = Some b → b ≠ NULL →
        matchb (items s) key n b = true).
Proof.
  intros Hhv Hhp. pose proof (before_find s key n hv Hhv Hhp) as Hbf.
  pose proof (λ b, find_match s key n hv b Hhv Hhp) as Hm.
  split; [|split; [|exact Hm]].
  - change (assoc_delete s key n hv)
      with (_hashitem_before s key n hv ≫= unlink s).
    destruct (_hashitem_before s key n hv) as [before|];
      cbn [mbind option_bind] in *; [|by rewrite <- Hbf].
    unfold unlink. rewrite <- Hbf.
    destruct (load s before) as [b|] eqn:Hb; cbn [mbind option_bind]; [|done].
    case_decide as Hnull; [by subst|].
    split; [|by intros [= ->]].
    destruct (load s (HNext b)); cbn [mbind option_bind]; [|done].
    destruct (store s (HNext b) 0); cbn [mbind option_bind]; [|done].
    by destruct (store _ before _).
  - change (assoc_delete s key n hv)
      with (_hashitem_before s key n hv ≫= unlink s).
    destruct (_hashitem_before s key n hv) as [before|];
      cbn [mbind option_bind] in *.
    2:{ rewrite <- Hbf. split; [by intros [? ?]|by intros (? & ? & ?)]. }
    destruct (load s before) as [b|] eqn:Hb.
    2:{ unfold unlink. rewrite <- Hbf, Hb. cbn [mbind option_bind].
        split; [by intros [? ?]|by intros (? & ? & ?)]. }
    split.
    + intros [s' Hs']. exists b. split; [done|]. intros ->.
      unfold unlink in Hs'. rewrite Hb in Hs'. cbn [mbind option_bind] in Hs'.
      by rewrite decide_True in Hs'.
    + intros (b' & Hb' & Hnull). rewrite <- Hbf in Hb'. simplify_eq.
      apply (unlink_defined _ _ b'); [done..|].
      specialize (Hm b' (eq_sym Hbf) Hnull). unfold matchb in Hm.
      by destruct (items s !! b').
Qed.

(** X2: [assoc_delete] reaches its assertion exactly when [assoc_find]
    returns the null pointer for the same key and hash value, and it removes
    an item exactly when [assoc_find] returns one (an item whose key
    matches); so where [assoc_find] has a result, [assoc_delete] has one
    too. This holds on every table. *)
Theorem delete_asserts_iff_not_found (s : table) (key : list byte) (n hv : Z) :
  0 ≤ hv < 2 ^ 32 → 0 ≤ hashpower s < 2 ^ 32 →
  (assoc_delete s key n hv = Some AssertFailed
   ↔ assoc_find s key n hv = Some NULL) ∧
  ((∃ s', assoc_delete s key n hv = Some (Removed s'))
   ↔ ∃ b, assoc_find s key n hv = Some b ∧ b ≠ NULL) ∧
  (∀ b, assoc_find s key n hv = Some b → b ≠ NULL →
        matchb (items s) key n b = true).
Proof. apply delete_find. Qed.

(** ** An insert followed by a lookup or a delete of the same key *)

Lemma bucket_slot_bucket s hv : ∃ a b, bucket_slot s hv = Bucket a b.
Proof.
  unfold bucket_slot. destruct (expanding s); [case_decide|]; eauto.
Qed.

Lemma push_inv s a b q s1 :
  push s (Bucket a b) q = Some s1 →
  ∃ arr head i, arrays s !! a = Some arr ∧ arr !! Z.to_nat b = Some head ∧
                items s !! q = Some i.
Proof.
  unfold push, load, arr_load.
  destruct (arrays s !! a) as [arr|]; cbn [mbind option_bind]; [|done].
  destruct (arr !! Z.to_nat b) as [head|] eqn:Hhead;
    cbn [mbind option_bind]; [|done].
  unfold store at 2.
  destruct (items s !! q) as [i|]; cbn [mbind option_bind]; [|done].
  intros _. by exists arr, head, i.
Qed.

Lemma insert_find_delete s p ip hv s1 :
  0 ≤ hv < 2 ^ 32 → 0 ≤ hashpower s < 2 ^ 32 →
  p ≠ NULL → items s !! p = Some ip →
  assoc_insert s p hv = Some s1 →
  assoc_find s1 (ITEM_key ip) (nkey ip) hv = Some p ∧
  assoc_delete s1 (ITEM_key ip) (nkey ip) hv
  = Some (Removed (set_items (<[p := set_h_next NULL ip]> (items s)) s)).
Proof.
  intros Hhv Hhp Hp Hip.
  destruct (addressing s hv Hhv Hhp) as (_ & -> & _).
  destruct (bucket_slot_bucket s hv) as (a & b & Hslot). rewrite Hslot.
  intros Hpush.
  destruct (push_inv _ _ _ _ _ Hpush) as (arr & head & i & Harr & Hhead & Hi).
  rewrite Hip in Hi. injection Hi as <-.
  rewrite (push_bucket _ _ arr _ head _ ip) in Hpush by done.
  injection Hpush as <-.
  set (s1 := set_arrays _ _).
  assert (Hslot1 : bucket_slot s1 hv = Bucket a b) by (by rewrite <- Hslot).
  assert (Hb : (Z.to_nat b < length arr)%nat) by (by eapply lookup_lt_Some).
  assert (Hload : load s1 (Bucket a b) = Some p).
  { unfold load, arr_load, s1. cbn [arrays set_arrays].
    rewrite lookup_insert_eq. cbn [mbind option_bind].
    by apply list_lookup_insert_eq. }
  assert (Hitem : items s1 !! p = Some (set_h_next head ip)).
  { unfold s1. cbn [items set_arrays set_items]. by rewrite lookup_insert_eq. }
  assert (Hmatch : key_matches (ITEM_key ip) (nkey ip) (set_h_next head ip) = true).
  { unfold key_matches, memcmp_eq. cbn [nkey ITEM_key set_h_next].
    rewrite Z.eqb_refl. by rewrite bool_decide_eq_true_2. }
  destruct (addressing s1 hv Hhv Hhp) as (-> & _ & _ & -> & _).
  rewrite Hslot1, Hload. cbn [mbind option_bind].
  unfold walk_fuel. cbn [find_loop before_loop].
  rewrite Hload. cbn [mbind option_bind].
  rewrite decide_False, Hitem by done. cbn [mbind option_bind].
  rewrite Hmatch. split; [done|].
  unfold key_matches in Hmatch. apply andb_true_iff in Hmatch as [-> ->].
  cbn [negb orb mbind option_bind].
  destruct (decide (p = NULL)); [done|]. cbn [mbind option_bind].
  unfold unlink. rewrite Hload. cbn [mbind option_bind].
  rewrite decide_False by done.
  rewrite (load_hnext _ _ _ Hitem). cbn [mbind option_bind h_next set_h_next].
  rewrite (store_hnext _ _ _ _ Hitem). cbn [mbind option_bind].
  rewrite (store_bucket _ _ (<[Z.to_nat b := p]> arr)).
  - unfold s1, set_items, set_arrays. destruct s. cbn. cbn in Harr.
    rewrite !insert_insert_eq, list_insert_insert_eq.
    rewrite list_insert_id by done. by rewrite insert_id.
  - cbn [arrays set_items set_arrays s1]. by rewrite lookup_insert_eq.
  - by rewrite length_insert.
Qed.

Lemma insert_defined s p ip hv :
  shape s → 0 ≤ hv < 2 ^ 32 → items s !! p = Some ip →
  is_Some (assoc_insert s p hv).
Proof.
  intros Hsh Hhv Hip.
  destruct (addressing s hv Hhv (shape_hashpower _ Hsh)) as (_ & -> & _).
  rewrite bucket_slot_shape by done.
  destruct Hsh as (Hhp & _ & HlenP & Hexp).
  destruct (expanding s) eqn:He; cbn [andb]; [case_bool_decide as Hle|].
  - destruct (Hexp eq_refl) as (_ & _ & Hhp1 & _ & HlenO).
    apply block_len_lookup in HlenO as (arr & Harr & Hlen).
    rewrite hashsize_pow2 in Hlen by lia.
    destruct (lookup_lt_is_Some_2 arr (Z.to_nat (hv mod 2 ^ (hashpower s - 1))))
      as [head Hhead].
    { pose proof (Z.mod_pos_bound hv (2 ^ (hashpower s - 1))
                    (pow2_pos (hashpower s - 1) ltac:(lia))). lia. }
    by rewrite (push_bucket _ _ arr _ head _ ip).
  - apply block_len_lookup in HlenP as (arr & Harr & Hlen).
    rewrite hashsize_pow2 in Hlen by lia.
    destruct (lookup_lt_is_Some_2 arr (Z.to_nat (hv mod 2 ^ hashpower s)))
      as [head Hhead].
    { pose proof (Z.mod_pos_bound hv (2 ^ hashpower s)
                    (pow2_pos (hashpower s) ltac:(lia))). lia. }
    by rewrite (push_bucket _ _ arr _ head _ ip).
  - apply block_len_lookup in HlenP as (arr & Harr & Hlen).
    rewrite hashsize_pow2 in Hlen by lia.
    destruct (lookup_lt_is_Some_2 arr (Z.to_nat (hv mod 2 ^ hashpower s)))
      as [head Hhead].
    { pose proof (Z.mod_pos_bound hv (2 ^ hashpower s)
                    (pow2_pos (hashpower s) ltac:(lia))). lia. }
    by rewrite (push_bucket _ _ arr _ head _ ip).
Qed.

(** X3: On a table whose arrays have the right shape, [assoc_insert] of an
    allocated item returns, whatever the table holds: it makes no check for
    an item with the same key. Right after it [assoc_find] returns the
    inserted item for its key, and [assoc_delete] of that key removes the
    inserted item again and leaves the table as it was before the insert, up
    to the [h_next] field of the item, which is null. *)
Theorem insert_then_delete_restores (s : table) (p : Z) (ip : item) (hv : Z) :
  shape s → 0 ≤ hv < 2 ^ 32 → p ≠ NULL → items s !! p = Some ip →
  ∃ s1,
    assoc_insert s p hv = Some s1 ∧
    assoc_find s1 (ITEM_key ip) (nkey ip) hv = Some p ∧
    assoc_delete s1 (ITEM_key ip) (nkey ip) hv
    = Some (Removed (set_items (<[p := set_h_next NULL ip]> (items s)) s)) ∧
    (h_next ip = NULL →
     assoc_delete s1 (ITEM_key ip) (nkey ip) hv = Some (Removed s)).
Proof.
  intros Hsh Hhv Hp Hip.
  destruct (insert_defined s p ip hv Hsh Hhv Hip) as [s1 Hins].
  destruct (insert_find_delete s p ip hv s1 Hhv (shape_hashpower _ Hsh) Hp Hip Hins)
    as [Hfind Hdel].
  exists s1. split; [done|]. split; [done|]. split; [done|].
  intros Hnext. rewrite Hdel. do 2 f_equal.
  destruct s, ip. cbn in *. subst. unfold set_items, set_h_next. cbn.
  by rewrite insert_id.
Qed.

(** ** Items outside the table *)

Lemma unlinked_frame s p ip v :
  wf hash s → p ∉ linked s → items s !! p = Some ip →
  wf hash (set_items (<[p := set_h_next v ip]> (items s)) s) ∧
  linked (set_items (<[p := set_h_next v ip]> (items s)) s) = linked s.
Proof.
  intros Hwf Hp Hip.
  apply wf_views in Hwf as (P & O & Hv & Hw).
  rewrite (linked_views _ _ _ Hv) in Hp.
  apply not_elem_of_app in Hp as [HpP HpO].
  set (s' := set_items _ s).
  assert (Hk : same_keys (items s) (items s')) by (by apply same_keys_insert).
  assert (Hv' : views s' P O).
  { destruct Hv as [(Parr & HParr & HFP) HO]. split.
    - exists Parr. split; [done|]. by apply chains_frame.
    - cbn [expanding s' set_items]. destruct (expanding s); [|done].
      destruct HO as (Oarr & HOarr & HFO). exists Oarr. split; [done|].
      by apply chains_frame. }
  split; [|by rewrite (linked_views _ _ _ Hv'), (linked_views _ _ _ Hv)].
  apply wf_views. exists P, O. split; [done|].
  destruct Hw as (Hsh & Hnd & HplP & HplO & Hfr).
  split; [done|]. split.
  { eapply kids_NoDup_perm; [exact Hk|done|done]. }
  split; [|split; [|done]].
  - eapply bucketwise_impl; [exact HplP|]. intros. by eapply placed_same_frame.
  - eapply bucketwise_impl; [exact HplO|]. intros. by eapply placed_same_frame.
Qed.

(** X4: The assertion that would forbid two items with one key is commented
    out in [assoc_insert]. When an item [p] is inserted under a key that an
    item [q] of a well-formed table already has, [assoc_find] returns the
    newer item [p]; one [assoc_delete] of the key removes [p], after which
    the table is well formed with the items it had before and [assoc_find]
    returns [q] again. *)
Theorem duplicate_key_shadows (s : table) (p q : Z) (ip : item) :
  wf hash s → p ≠ NULL → items s !! p = Some ip → p ∉ linked s →
  q ∈ linked s → matchb (items s) (ITEM_key ip) (nkey ip) q = true →
  ∃ s1 s2,
    assoc_insert s p (hash32 hash (ITEM_key ip) (nkey ip)) = Some s1 ∧
    assoc_find s1 (ITEM_key ip) (nkey ip) (hash32 hash (ITEM_key ip) (nkey ip))
      = Some p ∧
    assoc_delete s1 (ITEM_key ip) (nkey ip) (hash32 hash (ITEM_key ip) (nkey ip))
      = Some (Removed s2) ∧
    assoc_find s2 (ITEM_key ip) (nkey ip) (hash32 hash (ITEM_key ip) (nkey ip))
      = Some q ∧
    wf hash s2 ∧ linked s2 = linked s.
Proof.
  intros Hwf Hp Hip Hfresh Hq Hm.
  pose proof (hash32_range (ITEM_key ip) (nkey ip)) as Hhv.
  destruct (insert_defined s p ip _ (wf_shape _ Hwf) Hhv Hip) as [s1 Hins].
  destruct (insert_find_delete s p ip _ s1 Hhv
              (shape_hashpower _ (wf_shape _ Hwf)) Hp Hip Hins) as [Hfind Hdel].
  destruct (unlinked_frame s p ip NULL Hwf Hfresh Hip) as [Hwf2 Hl2].
  eexists s1, _. split; [done|]. split; [done|]. split; [exact Hdel|].
  split; [|done].
  set (s2 := set_items _ s) in *.
  assert (Hk : same_keys (items s) (items s2)) by (by apply same_keys_insert).
  destruct (find_wf s2 (ITEM_key ip) (nkey ip) Hwf2) as (r & -> & [[_ Hno]|[Hr Hmr]]).
  - rewrite Hl2 in Hno. specialize (Hno _ Hq).
    rewrite (same_keys_matchb _ _ _ _ _ Hk) in Hno. congruence.
  - f_equal. rewrite Hl2 in Hr.
    rewrite (same_keys_matchb _ _ _ _ _ Hk) in Hmr.
    exact (linked_match_unique s _ _ r q Hwf Hr Hq Hmr Hm).
Qed.

(** ** Looking up a key: what is found and what is missed *)

Lemma find_complete s key n :
  wf hash s →
  ∃ r, assoc_find s key n (hash32 hash key n) = Some r ∧
       (r = NULL ↔ ∀ p, p ∈ linked s → matchb (items s) key n p = false) ∧
       (r ≠ NULL →
        r ∈ linked s ∧ matchb (items s) key n r = true ∧
        ∀ p, p ∈ linked s → matchb (items s) key n p = true → p = r).
Proof.
  intros Hwf.
  destruct (find_wf s key n Hwf) as (r & Hr & Hcase).
  exists r. split; [done|]. destruct Hcase as [[Hnull Hno]|[Hin Hm]].
  - split; [done|]. done.
  - destruct (linked_elem s r Hwf Hin) as [Hn _]. split.
    + split; [done|]. intros Hno. specialize (Hno _ Hin). congruence.
    + intros _. split; [done|]. split; [done|]. intros p Hp Hmp.
      by eapply (linked_match_unique s key n).
Qed.

(** X5: In a well-formed table [assoc_find], called with the hash of the
    key, returns the null pointer exactly when no linked item has the key,
    and otherwise the one linked item that has it; when no linked item has
    the key [assoc_delete] reaches its assertion. *)
Theorem lookup_sound_and_complete (s : table) (key : list byte) (n : Z) :
  wf hash s →
  (∃ r, assoc_find s key n (hash32 hash key n) = Some r ∧
        (r = NULL ↔ ∀ p, p ∈ linked s → matchb (items s) key n p = false) ∧
        (r ≠ NULL →
         r ∈ linked s ∧ matchb (items s) key n r = true ∧
         ∀ p, p ∈ linked s → matchb (items s) key n p = true → p = r)) ∧
  ((∀ p, p ∈ linked s → matchb (items s) key n p = false) →
   assoc_delete s key n (hash32 hash key n) = Some AssertFailed).
Proof.
  intros Hwf. split; [by apply find_complete|]. intros Hno.
  destruct (find_complete s key n Hwf) as (r & Hr & Hnull & _).
  apply Hnull in Hno. subst r.
  by apply (delete_find s key n _ (hash32_range key n)
              (shape_hashpower _ (wf_shape _ Hwf))).
Qed.

(** X6: [assoc_find] looks into the one slot that the hash value it is given
    addresses. When that is not the slot addressed by the hash of the key,
    it returns the null pointer, whether the key is in the table or not. *)
Theorem wrong_hash_misses (s : table) (key : list byte) (n hv : Z) :
  wf hash s → 0 ≤ hv < 2 ^ 32 →
  bucket_slot s hv ≠ bucket_slot s (hash32 hash key n) →
  assoc_find s key n hv = Some NULL.
Proof.
  intros Hwf Hhv Hne. apply wf_views in Hwf as (P & O & Hv & Hw).
  pose proof Hw as (Hsh & Hnd & _).
  apply NoDup_fmap_1 in Hnd. unfold linked_of in Hnd. cbn [fst snd] in Hnd.
  destruct (addressing s _ Hhv (shape_hashpower _ Hsh)) as (-> & _).
  destruct (slot_chain s P O hv Hv Hsh) as (head & l & Hload & Hc & Hcase).
  destruct (slot_chain s P O (hash32 hash key n) Hv Hsh)
    as (head' & l' & _ & _ & Hcase').
  rewrite Hload. cbn [mbind option_bind].
  rewrite (find_loop_chain _ _ _ _ _ l) by
    (done || (apply chain_length in Hc; unfold walk_fuel; lia)).
  f_equal. destruct (decide (first_match (items s) key n l = NULL)) as [|Hfound];
    [done|exfalso].
  destruct (first_match_elem _ _ _ _ Hfound) as [Hin Hm].
  set (r := first_match (items s) key n l) in *.
  assert (Hr : r ∈ concat P ++ concat O).
  { apply elem_of_app.
    destruct Hcase as [(_ & Hl & _)|(_ & Hl & _)]; [left|right];
      by eapply elem_of_concat_lookup. }
  assert (Hin' : r ∈ l').
  { eapply (match_in_slot s P O key n r l'); try done.
    destruct Hcase' as [(_ & Hl & ?)|(_ & Hl & ? & ?)]; [by left|by right]. }
  apply NoDup_app in Hnd as (HndP & Hdis & HndO).
  assert (Hmod : ∀ x k, 0 ≤ k → 0 ≤ x mod 2 ^ k).
  { intros x k Hk. apply Z.mod_pos_bound, pow2_pos, Hk. }
  destruct Hsh as (Hhp & _ & _ & Hexp).
  destruct Hcase as [(Hs & Hl & _)|(Hs & Hl & He & _)],
           Hcase' as [(Hs' & Hl' & _)|(Hs' & Hl' & He' & _)].
  - rewrite Hs, Hs' in Hne.
    refine (concat_NoDup_disjoint P _ _ l l' r HndP Hl Hl' _ Hin Hin').
    intros Heq. apply Hne. f_equal.
    pose proof (Hmod hv (hashpower s) ltac:(lia)).
    pose proof (Hmod (hash32 hash key n) (hashpower s) ltac:(lia)). lia.
  - apply (Hdis r); by eapply elem_of_concat_lookup.
  - apply (Hdis r); by eapply elem_of_concat_lookup.
  - rewrite Hs, Hs' in Hne. destruct (Hexp He) as (_ & _ & Hhp1 & _).
    refine (concat_NoDup_disjoint O _ _ l l' r HndO Hl Hl' _ Hin Hin').
    intros Heq. apply Hne. f_equal.
    pose proof (Hmod hv (hashpower s - 1) ltac:(lia)).
    pose proof (Hmod (hash32 hash key n) (hashpower s - 1) ltac:(lia)). lia.
Qed.

(** ** What one operation does to the set of linked items *)

Lemma run_op_linked s o s1 :
  wf hash s → allowed s o → run_op hash s o = Some s1 →
  wf hash s1 ∧ same_keys (items s) (items s1) ∧
  match o with
  | OpInsert p => linked s1 ≡ₚ p :: linked s
  | OpDelete key n =>
      ∃ b, b ∈ linked s ∧ matchb (items s) key n b = true ∧
           linked s ≡ₚ b :: linked s1
  | OpExpand _ | OpMigrate _ => linked s1 ≡ₚ linked s
  end.
Proof.
  intros Hwf Hal. destruct o as [p|key n|new|acq]; cbn [run_op allowed] in *.
  - destruct Hal as (Hn & Hfresh & i & Hi & Hno). rewrite Hi.
    cbn [mbind option_bind].
    destruct (insert_wf s p i Hwf Hi Hn Hfresh) as (s1' & Hins & Hwf1 & Hperm & Hfr).
    { intros q Hq Hkid. specialize (Hno _ Hq).
      apply matchb_kid in Hkid. congruence. }
    rewrite Hins. intros [= <-]. split; [done|].
    split; [by destruct Hfr as (_&_&_&_&_&_&?)|done].
  - destruct (delete_wf s key n Hwf Hal)
      as (s1' & b & Hdel & Hwf1 & Hb & Hmb & Hperm & Hfr).
    rewrite Hdel. cbn [mbind option_bind]. intros [= <-]. split; [done|].
    split; [by destruct Hfr as (_&_&_&_&_&_&?)|]. by exists b.
  - destruct Hal as (He & Hhp & Hnew). intros [= <-].
    rewrite assoc_expand_items.
    destruct (decide (new = NULL)) as [->|Hn].
    + destruct (expand_fail_wf s Hwf He) as [Hwf1 Hl]. by rewrite Hl.
    + destruct Hnew as [?|Hnew]; [done|].
      destruct (expand_wf s new Hwf He Hhp Hn Hnew) as [Hwf1 Hl]. by rewrite Hl.
  - destruct acq; cbn [maintenance_step].
    + destruct (maintenance_step_wf s Hwf Hal)
        as (m & s1' & l & Hmig & -> & Hstep & _ & _ & _ & Hwf1 & Hperm & Hk & _).
      unfold maintenance_step in Hstep. rewrite Hstep. by intros [= <-].
    + by intros [= <-].
Qed.

Lemma runs_count s ops s' :
  wf hash s → runs hash s ops s' →
  Z.of_nat (length (linked s'))
  = Z.of_nat (length (linked s)) + foldr Z.add 0 (count_change <$> ops).
Proof.
  intros Hwf Hruns. induction Hruns as [s|s o s1 os s2 Hal Hrun _ IH];
    cbn [fmap list_fmap foldr]; [lia|].
  destruct (run_op_linked s o s1 Hwf Hal Hrun) as (Hwf1 & _ & Hl).
  rewrite (IH Hwf1).
  destruct o; cbn [count_change].
  - rewrite Hl. cbn [length]. lia.
  - destruct Hl as (b & _ & _ & ->). cbn [length]. lia.
  - rewrite Hl. lia.
  - rewrite Hl. lia.
Qed.

(** X7: An allowed operation on a well-formed table changes the set of
    linked items by exactly one item or not at all: an insert adds the
    inserted item and nothing else, a delete removes one item, whose key is
    the deleted key, and the start of an expansion (the allocation failed or
    not) and a migration step leave the same items linked. No operation
    changes the key of an item. *)
Theorem operation_changes_one_item (s : table) (o : op) (s1 : table) :
  wf hash s → allowed s o → run_op hash s o = Some s1 →
  same_keys (items s) (items s1) ∧
  match o with
  | OpInsert p => linked s1 ≡ₚ p :: linked s
  | OpDelete key n =>
      ∃ b, b ∈ linked s ∧ matchb (items s) key n b = true ∧
           linked s ≡ₚ b :: linked s1
  | OpExpand _ | OpMigrate _ => linked s1 ≡ₚ linked s
  end.
Proof. intros Hwf Hal Hrun. by apply run_op_linked. Qed.

(** X8: After a history of allowed operations from a well-formed table the
    number of linked items is the number before, plus the number of inserts,
    minus the number of deletes of the history. *)
Theorem history_item_count (s : table) (ops : list op) (s' : table) :
  wf hash s → runs hash s ops s' →
  Z.of_nat (length (linked s'))
  = Z.of_nat (length (linked s)) + foldr Z.add 0 (count_change <$> ops).
Proof. apply runs_count. Qed.

(** X9: An allowed operation on a well-formed table does not change what
    [assoc_find] returns for any key other than the key it inserts or
    deletes: the start of an expansion and a migration step change no lookup
    at all, of a key that is in the table or of one that is not. *)
Theorem other_lookups_unchanged (s : table) (o : op) (s1 : table)
    (key : list byte) (n : Z) :
  wf hash s → allowed s o → run_op hash s o = Some s1 →
  ¬ concerns s key n o →
  assoc_find s1 key n (hash32 hash key n) = assoc_find s key n (hash32 hash key n).
Proof.
  intros Hwf Hal Hrun Hnc.
  destruct (run_op_linked s o s1 Hwf Hal Hrun) as (Hwf1 & Hk & Hl).
  assert (Hfwd : ∀ q, q ∈ linked s → matchb (items s) key n q = true →
                      q ∈ linked s1).
  { intros q Hq Hm. destruct o as [p|k m|new|acq]; try (by rewrite Hl).
    - rewrite Hl. by right.
    - destruct Hl as (b & Hb & Hmb & Hperm). rewrite Hperm in Hq.
      apply elem_of_cons in Hq as [->|Hq]; [|done]. exfalso. apply Hnc.
      apply matchb_kid in Hm, Hmb. cbn [concerns]. congruence. }
  assert (Hbwd : ∀ q, q ∈ linked s1 → matchb (items s) key n q = true →
                      q ∈ linked s).
  { intros q Hq Hm. destruct o as [p|k m|new|acq]; try (by rewrite <- Hl).
    - rewrite Hl in Hq. apply elem_of_cons in Hq as [->|Hq]; [|done].
      exfalso. apply Hnc. by apply matchb_kid in Hm.
    - destruct Hl as (b & Hb & Hmb & Hperm). rewrite Hperm. by right. }
  destruct (find_complete s key n Hwf) as (r & -> & Hnull & Hfound).
  destruct (find_complete s1 key n Hwf1) as (r1 & -> & Hnull1 & Hfound1).
  f_equal. destruct (decide (r = NULL)) as [->|Hr].
  - apply Hnull1. intros q Hq.
    destruct (matchb (items s1) key n q) eqn:Hm; [|done].
    rewrite (same_keys_matchb _ _ _ _ _ Hk) in Hm.
    pose proof (proj1 Hnull eq_refl q (Hbwd q Hq Hm)). congruence.
  - destruct (Hfound Hr) as (Hin & Hm & _).
    destruct (decide (r1 = NULL)) as [->|Hr1].
    + pose proof (proj1 Hnull1 eq_refl r (Hfwd r Hin Hm)) as Hno.
      rewrite (same_keys_matchb _ _ _ _ _ Hk) in Hno. congruence.
    + destruct (Hfound1 Hr1) as (_ & _ & Huniq). symmetry. apply Huniq.
      * by apply Hfwd.
      * by rewrite (same_keys_matchb _ _ _ _ _ Hk).
Qed.

(** X10: Every table that the program reaches from [assoc_init] by a history
    of allowed operations is well formed: no item is linked twice, no two
    linked items have the same key, every linked item is found by
    [assoc_find] under its key, and as many items are linked as the history
    has inserts more than deletes. *)
Theorem reachable_tables_well_formed (HASHPOWER_DEFAULT hashtable_init res : Z)
    (h : gmap Z item) (ops : list op) (s0 s' : table) :
  0 ≤ (if decide (hashtable_init ≠ 0) then u32 hashtable_init
       else HASHPOWER_DEFAULT) ≤ 63 →
  assoc_init hashtable_init res (boot HASHPOWER_DEFAULT h) = Some s0 →
  runs hash s0 ops s' →
  wf hash s' ∧ NoDup (linked s') ∧
  (∀ p q key n, p ∈ linked s' → q ∈ linked s' →
     matchb (items s') key n p = true → matchb (items s') key n q = true →
     p = q) ∧
  (∀ p i, p ∈ linked s' → items s' !! p = Some i →
     assoc_find s' (ITEM_key i) (nkey i) (hash32 hash (ITEM_key i) (nkey i))
     = Some p) ∧
  Z.of_nat (length (linked s')) = foldr Z.add 0 (count_change <$> ops).
Proof.
  intros Hhp Hinit Hruns.
  assert (Hres : res ≠ NULL).
  { intros ->. unfold assoc_init in Hinit. by rewrite decide_True in Hinit. }
  destruct (assoc_init_wf HASHPOWER_DEFAULT hashtable_init res h Hhp Hres)
    as (s0' & Hinit' & Hwf0 & Hl0 & _).
  rewrite Hinit in Hinit'. injection Hinit' as <-.
  pose proof (runs_wf _ _ _ Hwf0 Hruns) as Hwf.
  split; [done|]. split; [by apply wf_linked_NoDup|]. split.
  { intros p q key n Hp Hq Hmp Hmq. by eapply (linked_match_unique s' key n). }
  split; [intros p i; by apply find_linked|].
  rewrite (runs_count _ _ _ Hwf0 Hruns), Hl0. cbn [length]. lia.
Qed.

(** ** An empty table *)

Lemma find_empty s key n hv :
  wf hash s → linked s = [] → 0 ≤ hv < 2 ^ 32 →
  assoc_find s key n hv = Some NULL.
Proof.
  intros Hwf Hl Hhv. apply wf_views in Hwf as (P & O & Hv & Hw).
  pose proof Hw as (Hsh & _).
  destruct (addressing s _ Hhv (shape_hashpower _ Hsh)) as (-> & _).
  destruct (slot_chain s P O hv Hv Hsh) as (head & l & -> & Hc & Hcase).
  cbn [mbind option_bind].
  rewrite (find_loop_chain _ _ _ _ _ l) by
    (done || (apply chain_length in Hc; unfold walk_fuel; lia)).
  assert (l = []) as ->; [|done].
  rewrite (linked_views _ _ _ Hv) in Hl. apply app_eq_nil in Hl as [HP HO].
  destruct l as [|q l]; [done|exfalso].
  assert (Hq : q ∈ concat P ++ concat O).
  { apply elem_of_app.
    destruct Hcase as [(_ & Hl & _)|(_ & Hl & _)]; [left|right];
      eapply elem_of_concat_lookup; (done || by left). }
  rewrite HP, HO in Hq. by apply elem_of_nil in Hq.
Qed.

(** X11: [assoc_init] with a zero argument keeps the hash power that the
    variable has and with another argument sets it; when [calloc] fails the
    process exits and there is no table. Otherwise the table has
    [hashsize(hashpower)] slots and is well formed and stable, no item is
    linked, and for every key and hash value [assoc_find] returns the null
    pointer and [assoc_delete] reaches its assertion. *)
Theorem init_gives_empty_table (HASHPOWER_DEFAULT hashtable_init res : Z)
    (h : gmap Z item) :
  let hp := if decide (hashtable_init ≠ 0) then u32 hashtable_init
            else HASHPOWER_DEFAULT in
  0 ≤ hp ≤ 63 →
  (res = NULL →
   assoc_init hashtable_init res (boot HASHPOWER_DEFAULT h) = None) ∧
  (res ≠ NULL →
   ∃ s, assoc_init hashtable_init res (boot HASHPOWER_DEFAULT h) = Some s ∧
        hashpower s = hp ∧ primary_hashtable s = res ∧
        arrays s !! res = Some (replicate (Z.to_nat (2 ^ hp)) NULL) ∧
        expanding s = false ∧ items s = h ∧
        wf hash s ∧ linked s = [] ∧
        ∀ key n hv, 0 ≤ hv < 2 ^ 32 →
          assoc_find s key n hv = Some NULL ∧
          assoc_delete s key n hv = Some AssertFailed).
Proof.
  intros hp Hhp. split.
  - intros ->. unfold assoc_init. by rewrite decide_True.
  - intros Hres.
    destruct (assoc_init_wf HASHPOWER_DEFAULT hashtable_init res h Hhp Hres)
      as (s & Hinit & Hwf & Hl & He & Hi).
    exists s. split; [done|].
    unfold assoc_init in Hinit. rewrite (decide_False (P := res = NULL)) in Hinit by done.
    injection Hinit as <-. cbn [hashpower primary_hashtable arrays boot].
    fold hp. split; [done|]. split; [done|]. split.
    { rewrite lookup_insert_eq. by rewrite hashsize_pow2. }
    split; [done|]. split; [done|]. split; [done|]. split; [done|].
    intros key n hv Hhv.
    pose proof (find_empty _ key n hv Hwf Hl Hhv) as Hfind.
    split; [done|].
    by apply (delete_find _ key n hv Hhv (shape_hashpower _ (wf_shape _ Hwf))).
Qed.

(** ** The order in which a migration step leaves the chains *)

Lemma relink_loop_order rest : ∀ fuel s Parr P p,
  0 ≤ hashpower s ≤ 63 →
  arrays s !! primary_hashtable s = Some Parr →
  Z.of_nat (length Parr) = 2 ^ hashpower s →
  Forall2 (chain (items s)) Parr P →
  chain (items s) p rest →
  NoDup (concat P ++ rest) →
  (length rest < fuel)%nat →
  ∃ s' Parr' P',
    relink_loop hash fuel s p = Some s' ∧
    arrays s' !! primary_hashtable s = Some Parr' ∧
    Forall2 (chain (items s')) Parr' P' ∧
    ∀ (b : nat) lb, P !! b = Some lb →
      P' !! b = Some (rev (filter (λ q, home hash (hashpower s) <$> items s !! q
                                        = Some (Z.of_nat b)) rest) ++ lb).
Proof.
  induction rest as [|q rest IH]; intros fuel s Parr P p Hhp HParr Hlen HF Hc Hnd Hfuel.
  - inversion Hc; subst.
    destruct fuel; [simpl in Hfuel; lia|]. simpl.
    exists s, Parr, P. done.
  - apply chain_head in Hc as (-> & Hqn & i & Hi & Hc).
    destruct fuel as [|fuel]; [simpl in Hfuel; lia|]. simpl in Hfuel.
    simpl. rewrite decide_False, Hi by done. cbn [mbind option_bind].
    fold (home hash (hashpower s) i). set (b := home hash (hashpower s) i).
    assert (Hb : 0 ≤ b < 2 ^ hashpower s).
    { unfold b. rewrite home_mod by done. apply Z.mod_pos_bound, pow2_pos. lia. }
    destruct (lookup_lt_is_Some_2 Parr (Z.to_nat b)) as [head Hhead]; [lia|].
    destruct (lookup_lt_is_Some_2 P (Z.to_nat b)) as [lb Hlb].
    { rewrite <- (Forall2_length _ _ _ HF). lia. }
    unfold arr_load. rewrite HParr. cbn [mbind option_bind]. rewrite Hhead.
    cbn [mbind option_bind]. rewrite (store_hnext _ _ i) by done.
    cbn [mbind option_bind].
    rewrite (store_bucket _ _ Parr); [|done|by eapply lookup_lt_Some].
    cbn [mbind option_bind].
    apply NoDup_app in Hnd as (HndP & Hdis & Hndr).
    apply NoDup_cons in Hndr as [Hqr Hndr].
    assert (HqP : q ∉ concat P) by (intros Hin; apply (Hdis _ Hin); by left).
    set (s2 := set_arrays _ _).
    assert (Hkeys2 : same_keys (items s) (items s2)) by by apply same_keys_insert.
    destruct (IH fuel s2 (<[Z.to_nat b := q]> Parr) (<[Z.to_nat b := q :: lb]> P)
                (h_next i))
      as (s' & Parr' & P' & Hrun & Harr & HF' & Hord); try done.
    + simpl. by rewrite lookup_insert_eq.
    + by rewrite length_insert.
    + simpl. by eapply chains_push.
    + simpl. by apply chain_frame.
    + rewrite (concat_insert_cons _ _ _ _ Hlb). apply NoDup_app. split; [|split; [|done]].
      * by constructor.
      * intros x [->|Hx]%elem_of_cons; [done|]. intros Hxr. apply (Hdis _ Hx). by right.
    + lia.
    + exists s', Parr', P'. split; [done|]. split; [done|]. split; [done|].
      intros c lc Hlc.
      assert (Hfilter : ∀ c : nat,
        filter (λ q, home hash (hashpower s2) <$> items s2 !! q = Some (Z.of_nat c)) rest
        = filter (λ q, home hash (hashpower s) <$> items s !! q = Some (Z.of_nat c)) rest).
      { intros c'. apply list_filter_iff. intros x.
        by rewrite (same_keys_home hash _ _ _ _ Hkeys2). }
      rewrite filter_cons. rewrite Hi. cbn [fmap option_fmap option_map]. fold b.
      destruct (decide (Z.to_nat b = c)) as [<-|Hne].
      * rewrite (Hord (Z.to_nat b) (q :: lb)) by (apply list_lookup_insert_eq;
          by eapply lookup_lt_Some).
        rewrite Hfilter. rewrite decide_True by (f_equal; lia).
        rewrite Hlb in Hlc. injection Hlc as <-.
        cbn [rev]. by rewrite <- app_assoc.
      * rewrite (Hord c lc) by (by rewrite list_lookup_insert_ne).
        rewrite Hfilter. rewrite decide_False; [done|].
        intros [= Heq]. apply Hne. lia.
Qed.

Lemma chains_functional (h : gmap Z item) A L1 L2 :
  Forall2 (chain h) A L1 → Forall2 (chain h) A L2 → L1 = L2.
Proof.
  intros H1. revert L2. induction H1 as [|a l A L Hc _ IH]; intros L2 H2.
  - by inversion H2.
  - inversion H2 as [|a' l' A' L' Hc' H2']; subst. f_equal.
    + by eapply chain_functional.
    + by apply IH.
Qed.

Lemma filter_none {A} (Q : A → Prop) `{∀ x, Decision (Q x)} (l : list A) :
  (∀ x, x ∈ l → ¬ Q x) → filter Q l = [].
Proof.
  induction l as [|x l IH]; intros Hl; [done|].
  rewrite filter_cons, decide_False by (apply Hl; by left).
  apply IH. intros y Hy. apply Hl. by right.
Qed.

Lemma split_home (x hp eb : Z) :
  1 ≤ hp → 0 ≤ eb < 2 ^ (hp - 1) →
  x mod 2 ^ (hp - 1) = eb →
  x mod 2 ^ hp = eb ∨ x mod 2 ^ hp = eb + 2 ^ (hp - 1).
Proof.
  intros Hhp Heb Hx.
  pose proof (mod_pow2_half x hp Hhp) as Hh. rewrite Hx in Hh.
  assert (Hp : 2 ^ hp = 2 * 2 ^ (hp - 1)).
  { replace hp with (1 + (hp - 1)) at 1 by lia. by rewrite Z.pow_add_r by lia. }
  pose proof (pow2_pos (hp - 1) ltac:(lia)) as Hpos.
  pose proof (Z.mod_pos_bound x (2 ^ hp) ltac:(lia)) as Hb.
  set (y := x mod 2 ^ hp) in *.
  pose proof (Z.div_mod y (2 ^ (hp - 1)) ltac:(lia)) as Hdm.
  rewrite Hh in Hdm.
  assert (0 ≤ y / 2 ^ (hp - 1) < 2).
  { split; [apply Z.div_pos; lia|]. apply Z.div_lt_upper_bound; lia. }
  assert (Hd : y / 2 ^ (hp - 1) = 0 ∨ y / 2 ^ (hp - 1) = 1) by lia.
  destruct Hd as [Hd|Hd]; rewrite Hd in Hdm; [left|right]; lia.
Qed.

(** X12: The chains after lines 271-280 of [assoc_maintenance_thread] on a
    well-formed expanding table with primary chains [P] and old chains [O].
    The items of the chain [l] of the old bucket [expand_bucket] go to two
    primary buckets only, [expand_bucket] and [expand_bucket] plus the
    length of the old array, both empty before; each of the two chains holds
    its items in the reverse of their order in [l], as every item is pushed
    at the head. The chains of all other primary buckets and of all other
    old buckets are as before. *)
Theorem migration_splits_bucket (s : table) (P O : list (list Z)) :
  wf hash s → expanding s = true → view s = Some (P, O) →
  ∃ l m P',
    O !! Z.to_nat (expand_bucket s) = Some l ∧
    migrate_bucket hash s = Some m ∧
    view m = Some (P', <[Z.to_nat (expand_bucket s) := []]> O) ∧
    (∀ q, q ∈ l →
       home hash (hashpower s) <$> items s !! q = Some (expand_bucket s) ∨
       home hash (hashpower s) <$> items s !! q
       = Some (expand_bucket s + 2 ^ (hashpower s - 1))) ∧
    (∀ b : nat,
       Z.of_nat b = expand_bucket s ∨
       Z.of_nat b = expand_bucket s + 2 ^ (hashpower s - 1) →
       P !! b = Some [] ∧
       P' !! b = Some (rev (filter (λ q, home hash (hashpower s) <$> items s !! q
                                         = Some (Z.of_nat b)) l))) ∧
    (∀ b : nat,
       Z.of_nat b ≠ expand_bucket s →
       Z.of_nat b ≠ expand_bucket s + 2 ^ (hashpower s - 1) →
       P' !! b = P !! b).
Proof.
  intros Hwf He Hview. unfold wf in Hwf. rewrite Hview in Hwf.
  apply view_spec in Hview as Hv. rename Hwf into Hw.
  destruct (migrate_bucket_mid s P O Hv Hw He)
    as (m & P' & l & Hmig & Hhpm & Hpm & Hom & Hem & Hebm & Hbl & Hkm & Hvm
        & Hl & Hperm & Hplm & Hsame & Hnull).
  destruct Hw as (Hsh & Hnd & HplP & HplO & Hfr). simpl in HplP, HplO, Hfr.
  pose proof Hsh as (Hhp & Hpn & HlenP & Hexp).
  destruct (Hexp He) as (Hon & Hne & Hhp1 & Heb & HlenO).
  rewrite hashsize_pow2 in Heb by lia.
  pose proof Hv as [(Parr & HParr & HFP) HO]. rewrite He in HO.
  destruct HO as (Oarr & HOarr & HFO).
  apply block_len_lookup in HlenP as (Parr0 & HParr0 & HlenP).
  rewrite HParr in HParr0. injection HParr0 as <-.
  rewrite hashsize_pow2 in HlenP by done.
  destruct (old_slot s P O (expand_bucket s) Hv Hsh He Heb)
    as (head & l0 & Hload & Hl0 & Hc).
  rewrite Hl in Hl0. injection Hl0 as <-.
  pose proof (NoDup_fmap_1 _ _ Hnd) as Hnd'. unfold linked_of in Hnd'.
  simpl in Hnd'.
  apply NoDup_app in Hnd' as (HndP & Hdis & HndO).
  assert (HndPl : NoDup (concat P ++ l)).
  { apply NoDup_app. split; [done|]. split; [|by eapply chain_NoDup].
    intros x Hx Hxl. apply (Hdis _ Hx). by eapply elem_of_concat_lookup. }
  destruct (relink_loop_order l (walk_fuel s) s Parr P head Hhp HParr HlenP HFP Hc
              HndPl)
    as (s1 & Parr1 & P1 & Hrun & HParr1 & HF1 & Hord).
  { apply chain_length in Hc. unfold walk_fuel. lia. }
  assert (P' = P1) as ->.
  { destruct Hvm as [(Parr' & HParr' & HF') _]. rewrite Hpm in HParr'.
    pose proof (relink_loop_same_frame _ _ _ _ Hrun) as (_ & _ & Ho1 & _ & He1 & _).
    unfold migrate_bucket in Hmig. unfold load in Hload. rewrite Hload in Hmig.
    cbn [mbind option_bind] in Hmig. rewrite Hrun in Hmig.
    cbn [mbind option_bind] in Hmig. rewrite Ho1, He1 in Hmig.
    unfold store in Hmig.
    destruct (arrays s1 !! old_hashtable s) as [Oarr1|] eqn:HO1;
      cbn [mbind option_bind] in Hmig; [|done].
    case_decide; [|done]. injection Hmig as <-.
    cbn [arrays items set_arrays] in HParr', HF'.
    rewrite lookup_insert_ne in HParr' by done.
    rewrite HParr1 in HParr'. injection HParr' as <-.
    eapply chains_functional; eassumption. }
  exists l, m, P1. split; [done|]. split; [done|].
  split; [by apply view_spec|].
  assert (Hhome : ∀ q, q ∈ l →
       home hash (hashpower s) <$> items s !! q = Some (expand_bucket s) ∨
       home hash (hashpower s) <$> items s !! q
       = Some (expand_bucket s + 2 ^ (hashpower s - 1))).
  { intros q Hq. specialize (HplO _ _ Hl). unfold placed in HplO.
    rewrite Forall_forall in HplO. specialize (HplO _ Hq).
    destruct (items s !! q) as [i|]; [|done].
    cbn [fmap option_fmap option_map] in *. injection HplO as HplO.
    rewrite Z2Nat.id in HplO by lia.
    rewrite home_mod in HplO by lia. rewrite home_mod by done.
    destruct (split_home _ (hashpower s) (expand_bucket s) Hhp1 Heb HplO) as [->| ->];
      [by left|by right]. }
  split; [done|].
  assert (Hhalf : 2 ^ hashpower s = 2 * 2 ^ (hashpower s - 1)).
  { replace (hashpower s) with (1 + (hashpower s - 1)) at 1 by lia.
    by rewrite Z.pow_add_r by lia. }
  pose proof (Forall2_length _ _ _ HFP) as HlenPP.
  split.
  - intros b Hb.
    destruct (lookup_lt_is_Some_2 P b) as [lb Hlb]; [lia|].
    assert (lb = []) as ->.
    { destruct (Hfr He) as [HfrP _]. apply (HfrP _ _ Hlb).
      rewrite land_hashmask by lia.
      destruct Hb as [-> | ->].
      - rewrite Z.mod_small by lia. lia.
      - rewrite <- Z.add_mod_idemp_r, Z.mod_same, Z.add_0_r, Z.mod_small; lia. }
    split; [done|]. rewrite (Hord _ _ Hlb). by rewrite app_nil_r.
  - intros b Hb1 Hb2.
    destruct (P !! b) as [lb|] eqn:Hlb.
    + rewrite (Hord _ _ Hlb). rewrite filter_none; [done|].
      intros q Hq Heq.
      destruct (Hhome q Hq) as [Hh|Hh]; rewrite Hh in Heq; injection Heq; lia.
    + apply lookup_ge_None in Hlb. apply lookup_ge_None.
      destruct Hvm as [(Parr' & HParr' & HF') _]. rewrite Hpm in HParr'.
      pose proof (Forall2_length _ _ _ HF') as Hlen1.
      pose proof (Hbl (primary_hashtable s)) as Hb. unfold block_len in Hb.
      rewrite HParr', HParr in Hb. cbn [fmap option_fmap option_map] in Hb.
      injection Hb as Hb. lia.
Qed.

(** ** The progress of the migration loop *)

Lemma acquisitions_nonneg acquired k : ∀ ii, 0 ≤ acquisitions acquired k ii.
Proof.
  induction k as [|k IH]; intros ii; cbn [acquisitions]; [lia|].
  specialize (IH (ii + 1)). destruct (acquired ii); lia.
Qed.

Lemma acquisitions_all acquired k : ∀ ii,
  (∀ j, acquired j = true) → acquisitions acquired k ii = Z.of_nat k.
Proof.
  induction k as [|k IH]; intros ii Hall; cbn [acquisitions]; [done|].
  rewrite IH, Hall by done. lia.
Qed.

Lemma acquisitions_none acquired k : ∀ ii,
  (∀ j, ii ≤ j → acquired j = false) → acquisitions acquired k ii = 0.
Proof.
  induction k as [|k IH]; intros ii Hno; cbn [acquisitions]; [done|].
  rewrite Hno by lia. rewrite IH; [done|]. intros j Hj. apply Hno. lia.
Qed.

Lemma expanding_remaining s : shape s → (expanding s = true ↔ 0 < remaining s).
Proof.
  intros Hsh. destruct (expanding s) eqn:He.
  - destruct (remaining_expanding s Hsh He). split; [lia|done].
  - rewrite remaining_stable by done. split; [done|lia].
Qed.

Lemma bulk_move_for_progress acquired bulk fuel : ∀ ii s,
  wf hash s → fuel = Z.to_nat (bulk - ii) →
  ∃ s', bulk_move_for hash acquired fuel ii bulk s = Some s' ∧ wf hash s' ∧
        linked s' ≡ₚ linked s ∧ same_keys (items s) (items s') ∧
        hashpower s' = hashpower s ∧
        primary_hashtable s' = primary_hashtable s ∧
        remaining s' = Z.max 0 (remaining s - acquisitions acquired fuel ii).
Proof.
  induction fuel as [|fuel IH]; intros ii s Hwf Hfuel; cbn [bulk_move_for acquisitions].
  - exists s. do 6 (split; [done|]).
    pose proof (remaining_nonneg s (wf_shape s Hwf)). lia.
  - assert (Hii : (ii <? bulk) = true) by (apply Z.ltb_lt; lia).
    rewrite Hii. cbn [andb]. destruct (expanding s) eqn:He.
    + destruct (acquired ii).
      * destruct (maintenance_step_remaining s Hwf He)
          as (s1 & Hstep & Hwf1 & Hperm1 & Hk1 & Hhp1 & Hp1 & Hrem1).
        rewrite Hstep. cbn [mbind option_bind].
        destruct (IH (ii + 1) s1 Hwf1 ltac:(lia))
          as (s' & Hrun & Hwf' & Hperm & Hk & Hhp & Hp & Hrem).
        exists s'. split; [done|]. split; [done|].
        split; [by rewrite Hperm|]. split; [by eapply same_keys_trans|].
        split; [congruence|]. split; [congruence|]. lia.
      * cbn [maintenance_step mbind option_bind].
        destruct (IH (ii + 1) s Hwf ltac:(lia))
          as (s' & Hrun & Hwf' & Hperm & Hk & Hhp & Hp & Hrem).
        exists s'. do 6 (split; [done|]). lia.
    + exists s. do 6 (split; [done|]). rewrite remaining_stable by done.
      pose proof (acquisitions_nonneg acquired fuel (ii + 1)).
      destruct (acquired ii); lia.
Qed.

Lemma bulk_move_for_no_lock acquired bulk fuel : ∀ ii s,
  (∀ j, ii ≤ j → acquired j = false) →
  bulk_move_for hash acquired fuel ii bulk s = Some s.
Proof.
  induction fuel as [|fuel IH]; intros ii s Hno; cbn [bulk_move_for]; [done|].
  destruct ((ii <? bulk) && expanding s); [|done].
  rewrite Hno by lia. cbn [maintenance_step mbind option_bind].
  apply IH. intros j Hj. apply Hno. lia.
Qed.

(** X13: One run of the migration loop (the [for] loop of the thread) on a
    well-formed table with batch size [hash_bulk_move] moves as many old
    buckets as trylocks succeed in its iterations, until none is left: an
    iteration whose trylock fails is used up and moves nothing. With every
    trylock successful that is [hash_bulk_move] buckets, or all that remain;
    with none successful the table is left as it is. The table stays well
    formed with the same items, and it is still expanding exactly when
    buckets remain. *)
Theorem migration_round_progress (acquired : Z → bool) (bulk : Z) (s : table) :
  wf hash s →
  ∃ s', maintenance_round hash acquired bulk s = Some s' ∧
        wf hash s' ∧ linked s' ≡ₚ linked s ∧
        remaining s'
        = Z.max 0 (remaining s - acquisitions acquired (Z.to_nat bulk) 0) ∧
        (expanding s' = true ↔ 0 < remaining s') ∧
        ((∀ ii, acquired ii = true) →
         remaining s' = Z.max 0 (remaining s - Z.max 0 bulk)) ∧
        ((∀ ii, acquired ii = false) → s' = s).
Proof.
  intros Hwf. unfold maintenance_round.
  destruct (bulk_move_for_progress acquired bulk (Z.to_nat bulk) 0 s Hwf ltac:(f_equal; lia))
    as (s' & Hrun & Hwf' & Hperm & _ & _ & _ & Hrem).
  exists s'. split; [done|]. split; [done|]. split; [done|]. split; [done|].
  split; [by apply expanding_remaining, wf_shape|]. split.
  - intros Hall. rewrite Hrem. f_equal. f_equal.
    rewrite acquisitions_all by done. lia.
  - intros Hno. rewrite bulk_move_for_no_lock in Hrun by (intros; apply Hno).
    by injection Hrun.
Qed.

Lemma maintenance_rounds_progress bulk n : ∀ s,
  wf hash s →
  ∃ s', maintenance_rounds hash n bulk s = Some s' ∧ wf hash s' ∧
        linked s' ≡ₚ linked s ∧
        remaining s' = Z.max 0 (remaining s - Z.of_nat n * Z.max 0 bulk).
Proof.
  induction n as [|n IH]; intros s Hwf; cbn [maintenance_rounds].
  - exists s. do 3 (split; [done|]).
    pose proof (remaining_nonneg s (wf_shape s Hwf)). lia.
  - unfold maintenance_round.
    destruct (bulk_move_for_progress (λ _, true) bulk (Z.to_nat bulk) 0 s Hwf
                ltac:(f_equal; lia))
      as (s1 & Hrun1 & Hwf1 & Hperm1 & _ & _ & _ & Hrem1).
    rewrite Hrun1. cbn [mbind option_bind].
    rewrite acquisitions_all in Hrem1 by done.
    destruct (IH s1 Hwf1) as (s' & Hrun & Hwf' & Hperm & Hrem).
    exists s'. split; [done|]. split; [done|]. split; [by rewrite Hperm|].
    pose proof (remaining_nonneg s (wf_shape s Hwf)). nia.
Qed.

(** X14: After [n] runs of the migration loop with every trylock successful
    and batch size [hash_bulk_move], [n] times the batch size old buckets
    have been moved, or all of them: the expansion is complete exactly when
    that product reaches the number of buckets that remained. With a batch
    size that is not positive no bucket is ever moved. *)
Theorem migration_rounds_needed (bulk : Z) (n : nat) (s : table) :
  wf hash s →
  ∃ s', maintenance_rounds hash n bulk s = Some s' ∧ wf hash s' ∧
        linked s' ≡ₚ linked s ∧
        remaining s' = Z.max 0 (remaining s - Z.of_nat n * Z.max 0 bulk) ∧
        (expanding s' = false ↔ remaining s ≤ Z.of_nat n * Z.max 0 bulk).
Proof.
  intros Hwf.
  destruct (maintenance_rounds_progress bulk n s Hwf)
    as (s' & Hrun & Hwf' & Hperm & Hrem).
  exists s'. do 4 (split; [done|]).
  pose proof (expanding_remaining s' (wf_shape _ Hwf')) as Hiff.
  pose proof (remaining_nonneg s (wf_shape s Hwf)).
  destruct (expanding s'); split; intros; try done; [|lia].
  assert (0 < remaining s') by (by apply Hiff). lia.
Qed.

Lemma maintenance_rounds_stall acquired bulk s :
  bulk ≤ 0 →
  maintenance_round hash acquired bulk s = Some s ∧
  ∀ n, maintenance_rounds hash n bulk s = Some s.
Proof.
  intros Hbulk.
  assert (Hround : ∀ acq, maintenance_round hash acq bulk s = Some s).
  { intros acq. unfold maintenance_round.
    by replace (Z.to_nat bulk) with 0%nat by lia. }
  split; [done|]. induction n as [|n IH]; cbn [maintenance_rounds]; [done|].
  by rewrite Hround.
Qed.

(** ** Values that [atoi] reads as negative *)

(** A minus sign and a run of digits of a value up to [2 ^ 31] is read as
    the negative number it writes. *)
Lemma atoi_minus r :
  0 < digits 0 r ≤ 2 ^ 31 → atoi (String "-" r) = - digits 0 r.
Proof.
  intros Hr. unfold atoi.
  change (strtol (String "-" r)) with (Z.max LONG_MIN (- digits 0 r)).
  rewrite Z.max_r by (unfold LONG_MIN; lia).
  unfold s32. rewrite Z.mod_small; lia.
Qed.

(** A run of digits whose value is beyond a [long] is read as [LONG_MAX],
    which is -1 as an [int]. *)
Lemma atoi_beyond_long e :
  all_digits e = true → LONG_MAX ≤ digits 0 e → atoi e = -1.
Proof.
  intros Hd Hbig. unfold atoi. rewrite strtol_digits by done.
  by rewrite Z.min_l.
Qed.

(** X15: When the environment variable holds a value that [atoi] reads as
    negative (a negative number, or a run of digits beyond the range of a
    [long], which [atoi] gives as -1), [start_assoc_maintenance_thread]
    takes it as the batch size (only 0 is replaced by the default), whether
    the thread is created or not. With such a batch size the migration loop
    has no iteration: a run of it leaves every table as it is, so an
    expansion that has started never ends. *)
Theorem negative_batch_stalls (e : string) (create : Z) (g : global)
    (acquired : Z → bool) (s : table) :
  atoi e < 0 →
  hash_bulk_move (start_assoc_maintenance_thread (Some e) create g).2 = atoi e ∧
  maintenance_round hash acquired
    (hash_bulk_move (start_assoc_maintenance_thread (Some e) create g).2) s
  = Some s ∧
  ∀ n, maintenance_rounds hash n
         (hash_bulk_move (start_assoc_maintenance_thread (Some e) create g).2) s
       = Some s.
Proof.
  intros Hneg.
  assert (Hb : hash_bulk_move (start_assoc_maintenance_thread (Some e) create g).2
               = atoi e).
  { unfold start_assoc_maintenance_thread. cbn [hash_bulk_move set_bulk].
    rewrite (decide_False (P := atoi e = 0)) by lia.
    by destruct (decide (create ≠ 0)). }
  split; [done|]. rewrite Hb. apply maintenance_rounds_stall. lia.
Qed.

(** ** The blocks of the two arrays through an expansion *)

Lemma maintenance_step_blocks s :
  wf hash s → expanding s = true →
  ∃ s', maintenance_step hash true s = Some s' ∧
        old_hashtable s' = old_hashtable s ∧
        (∀ a, a ≠ old_hashtable s → block_len s' a = block_len s a) ∧
        (expanding s' = false → arrays s' !! old_hashtable s = None).
Proof.
  intros Hwf He. apply wf_views in Hwf as (P & O & Hv & Hw).
  destruct (migrate_bucket_mid s P O Hv Hw He)
    as (m & P' & l & Hmig & Hhpm & Hpm & Hom & Hem & Hebm & Hbl & _).
  cbn [maintenance_step]. rewrite Hmig. cbn [fmap option_fmap option_map].
  eexists. split; [done|]. unfold expansion_done. case_decide.
  - cbn [old_hashtable expanding arrays]. split; [done|]. split.
    + intros a Ha. rewrite <- Hbl. unfold block_len. cbn [arrays].
      rewrite Hom. by rewrite lookup_delete_ne.
    + intros _. rewrite Hom. apply lookup_delete_eq.
  - split; [done|]. split; [by intros; apply Hbl|]. congruence.
Qed.

Lemma bulk_move_for_blocks bulk fuel : ∀ ii s,
  wf hash s →
  ∃ s', bulk_move_for hash (λ _, true) fuel ii bulk s = Some s' ∧
        old_hashtable s' = old_hashtable s ∧
        (∀ a, a ≠ old_hashtable s → block_len s' a = block_len s a) ∧
        (expanding s = true → expanding s' = false →
         arrays s' !! old_hashtable s = None) ∧
        (expanding s = false → s' = s).
Proof.
  induction fuel as [|fuel IH]; intros ii s Hwf; cbn [bulk_move_for].
  - exists s. split; [done|]. split; [done|]. split; [done|].
    split; [congruence|done].
  - destruct (ii <? bulk); cbn [andb];
      [|exists s; split; [done|]; split; [done|]; split; [done|];
        split; [congruence|done]].
    destruct (expanding s) eqn:He;
      [|exists s; split; [done|]; split; [done|]; split; [done|];
        split; [congruence|done]].
    destruct (maintenance_step_blocks s Hwf He) as (s1 & Hstep & Ho1 & Hb1 & Hf1).
    destruct (maintenance_step_remaining s Hwf He) as (s1' & Hstep' & Hwf1 & _).
    rewrite Hstep in Hstep'. injection Hstep' as <-.
    rewrite Hstep. cbn [mbind option_bind].
    destruct (IH (ii + 1) s1 Hwf1) as (s' & Hrun & Ho & Hb & Hf & Hsame).
    exists s'. split; [done|]. split; [congruence|]. split.
    { intros a Ha. rewrite Hb by congruence. by apply Hb1. }
    split; [|done]. intros _ He'.
    destruct (expanding s1) eqn:He1.
    + rewrite <- Ho1. by apply Hf.
    + rewrite Hsame by done. by apply Hf1.
Qed.

Lemma maintenance_rounds_blocks bulk n : ∀ s,
  wf hash s →
  ∃ s', maintenance_rounds hash n bulk s = Some s' ∧
        old_hashtable s' = old_hashtable s ∧
        (∀ a, a ≠ old_hashtable s → block_len s' a = block_len s a) ∧
        (expanding s = true → expanding s' = false →
         arrays s' !! old_hashtable s = None).
Proof.
  induction n as [|n IH]; intros s Hwf; cbn [maintenance_rounds].
  - exists s. split; [done|]. split; [done|]. split; [done|]. congruence.
  - unfold maintenance_round.
    destruct (bulk_move_for_blocks bulk (Z.to_nat bulk) 0 s Hwf)
      as (s1 & Hrun1 & Ho1 & Hb1 & Hf1 & Hsame1).
    destruct (bulk_move_for_wf bulk (Z.to_nat bulk) 0 s Hwf)
      as (s1' & Hrun1' & Hwf1 & _).
    rewrite Hrun1 in Hrun1'. injection Hrun1' as <-.
    rewrite Hrun1. cbn [mbind option_bind].
    destruct (IH s1 Hwf1) as (s' & Hrun & Ho & Hb & Hf).
    exists s'. split; [done|]. split; [congruence|]. split.
    { intros a Ha. rewrite Hb by congruence. by apply Hb1. }
    intros He He'. destruct (expanding s1) eqn:He1.
    + rewrite <- Ho1. by apply Hf.
    + assert (Hstable : ∀ k t, expanding t = false →
                maintenance_rounds hash k bulk t = Some t).
      { induction k as [|k IHk]; intros t Ht; cbn [maintenance_rounds]; [done|].
        unfold maintenance_round.
        assert (bulk_move_for hash (λ _ : Z, true) (Z.to_nat bulk) 0 bulk t = Some t)
          as ->; [|by apply IHk].
        destruct (Z.to_nat bulk); cbn [bulk_move_for]; [done|].
        rewrite Ht. by rewrite andb_false_r. }
      rewrite Hstable in Hrun by done. injection Hrun as <-. by apply Hf1.
Qed.

(** X16: A whole expansion (a successful [assoc_expand], then the migration
    loop until the table is stable) allocates one block, the new primary
    array of twice the length, and frees one, the former primary array;
    no other block is allocated, freed or resized. At the end
    [old_hashtable] still holds the address of the freed block, so that a
    read through it has no defined result. *)
Theorem expansion_frees_old_array (s : table) (new bulk : Z) :
  wf hash s → expanding s = false → hashpower s < 63 →
  new ≠ NULL → arrays s !! new = None → 1 ≤ bulk →
  ∃ s', expansion_cycle hash new bulk s = Some s' ∧
        expanding s' = false ∧ primary_hashtable s' = new ∧
        block_len s' new = Some (2 * primary_length s) ∧
        old_hashtable s' = primary_hashtable s ∧
        arrays s' !! primary_hashtable s = None ∧
        (∀ i, arr_load s' (old_hashtable s') i = None) ∧
        (∀ a, a ≠ new → a ≠ primary_hashtable s →
              block_len s' a = block_len s a).
Proof.
  intros Hwf He Hhp Hnew Hfresh Hbulk.
  pose proof (wf_shape _ Hwf) as Hsh. pose proof Hsh as (Hhp0 & Hpn & HlenP & _).
  destruct (expand_wf s new Hwf He Hhp Hnew Hfresh) as [Hwf1 _].
  unfold expansion_cycle. set (s1 := assoc_expand new s) in *.
  assert (Hs1 : s1 = assoc_expand new s) by done.
  rewrite assoc_expand_success in Hs1 by done.
  rewrite u32_small in Hs1 by lia.
  assert (He1 : expanding s1 = true) by (by rewrite Hs1).
  assert (Ho1 : old_hashtable s1 = primary_hashtable s) by (by rewrite Hs1).
  assert (Hp1 : primary_hashtable s1 = new) by (by rewrite Hs1).
  assert (Hrem1 : remaining s1 = 2 ^ hashpower s).
  { destruct (remaining_expanding s1 (wf_shape _ Hwf1) He1) as [-> _].
    rewrite Hs1. cbn [hashpower expand_bucket].
    replace (hashpower s + 1 - 1) with (hashpower s) by lia. lia. }
  set (n := Z.to_nat (hashsize (hashpower s))).
  assert (Hn : Z.of_nat n = 2 ^ hashpower s).
  { unfold n. rewrite hashsize_pow2 by lia.
    pose proof (pow2_pos (hashpower s) ltac:(lia)). lia. }
  destruct (maintenance_rounds_progress bulk n s1 Hwf1)
    as (s' & Hrun & Hwf' & _ & Hrem).
  destruct (maintenance_rounds_wf bulk n s1 Hwf1 Hbulk)
    as (s'' & Hrun'' & _ & _ & _ & _ & Hp' & _).
  rewrite Hrun in Hrun''. injection Hrun'' as <-.
  destruct (maintenance_rounds_blocks bulk n s1 Hwf1)
    as (s'' & Hrun'' & Ho' & Hb' & Hf').
  rewrite Hrun in Hrun''. injection Hrun'' as <-.
  assert (He' : expanding s' = false).
  { pose proof (expanding_remaining s' (wf_shape _ Hwf')) as Hiff.
    destruct (expanding s'); [|done].
    assert (0 < remaining s') by (by apply Hiff). nia. }
  specialize (Hf' He1 He'). rewrite Ho1 in Hf', Hb', Ho'.
  assert (Hne : new ≠ primary_hashtable s).
  { intros ->. apply block_len_lookup in HlenP as (arr & Harr & _). congruence. }
  exists s'. split; [done|]. split; [done|]. split; [congruence|]. split.
  { rewrite Hb' by done. rewrite Hs1. unfold block_len. cbn [arrays].
    rewrite lookup_insert_eq. cbn [fmap option_fmap option_map].
    rewrite length_replicate. f_equal. unfold primary_length.
    rewrite !hashsize_pow2 by lia.
    pose proof (pow2_pos (hashpower s + 1) ltac:(lia)).
    rewrite Z2Nat.id by lia. rewrite Z.pow_add_r by lia. lia. }
  split; [done|]. split; [done|]. split.
  { intros i. unfold arr_load. by rewrite Ho', Hf'. }
  intros a Ha1 Ha2. rewrite Hb' by done. rewrite Hs1. unfold block_len.
  cbn [arrays]. by rewrite lookup_insert_ne.
Qed.

(** ** The life of an iterator *)

Lemma assoc_iterate_frame iterp g flag p g1 :
  assoc_iterate iterp g = Some (flag, p, g1) →
  tab g1 = tab g ∧ maintenance_lock g1 = maintenance_lock g ∧
  hash_bulk_move g1 = hash_bulk_move g ∧
  is_Some (iterators g1 !! iterp) ∧
  (∀ q, q ≠ iterp → iterators g1 !! q = iterators g !! q).
Proof.
  unfold assoc_iterate.
  destruct (iterators g !! iterp) as [iter|] eqn:Hit; cbn [mbind option_bind]; [|done].
  assert (Hput : ∀ i, let g' := set_iterators (<[iterp := i]> (iterators g)) g in
    tab g' = tab g ∧ maintenance_lock g' = maintenance_lock g ∧
    hash_bulk_move g' = hash_bulk_move g ∧
    is_Some (iterators g' !! iterp) ∧
    (∀ q, q ≠ iterp → iterators g' !! q = iterators g !! q)).
  { intros i. cbn. do 3 (split; [done|]). split.
    - rewrite lookup_insert_eq. by eauto.
    - intros q Hq. by rewrite lookup_insert_ne. }
  destruct (bucket_locked iter).
  - case_decide.
    + destruct (items (tab g) !! next iter); cbn [mbind option_bind]; [|done].
      intros [= <- <- <-]. apply Hput.
    + intros [= <- <- <-]. apply Hput.
  - case_decide.
    + destruct (arr_load _ _ _) as [head|]; cbn [mbind option_bind]; [|done].
      case_decide.
      * destruct (items (tab g) !! head); cbn [mbind option_bind]; [|done].
        intros [= <- <- <-]. apply Hput.
      * intros [= <- <- <-]. apply Hput.
    + intros [= <- <- <-]. do 3 (split; [done|]). split; [by eauto|done].
Qed.

Lemma iterate_all_frame iterp fuel : ∀ g visited g2,
  iterate_all fuel iterp g = Some (visited, g2) →
  tab g2 = tab g ∧ maintenance_lock g2 = maintenance_lock g ∧
  hash_bulk_move g2 = hash_bulk_move g ∧
  is_Some (iterators g2 !! iterp) ∧
  (∀ q, q ≠ iterp → iterators g2 !! q = iterators g !! q).
Proof.
  induction fuel as [|fuel IH]; intros g visited g2; cbn [iterate_all]; [done|].
  destruct (assoc_iterate iterp g) as [[[[] p] g1]|] eqn:Hstep; [| |done].
  - destruct (iterate_all fuel iterp g1) as [[rest g2']|] eqn:Hrest; [|done].
    intros [= <- <-].
    destruct (assoc_iterate_frame _ _ _ _ _ Hstep) as (H1 & H2 & H3 & _ & H5).
    destruct (IH _ _ _ Hrest) as (H1' & H2' & H3' & H4' & H5').
    split; [congruence|]. split; [congruence|]. split; [congruence|].
    split; [done|]. intros q Hq. rewrite H5' by done. by apply H5.
  - intros [= <- <-]. by apply (assoc_iterate_frame _ _ _ _ _ Hstep).
Qed.

(** X17: From [assoc_get_iterator] to [assoc_iterate_final] the maintenance
    lock is held: while the iterator is open [assoc_start_expand] raises no
    signal, whatever count is reported, and a second call of
    [assoc_get_iterator] does not return; the calls of [assoc_iterate]
    change neither the table nor the lock nor any other cursor.
    [assoc_iterate_final] gives the lock back and frees the cursor, after
    which [assoc_iterate] on it has no defined result and the state is what
    it was before the iterator was opened. *)
Theorem iterator_holds_maintenance_lock (res : Z) (g : global) (p : Z)
    (g1 : global) :
  assoc_get_iterator res g = Some (p, g1) → p ≠ NULL →
  iterators g !! p = None →
  (∀ hash_power_max count,
     assoc_start_expand hash_power_max count g1 = (false, g1)) ∧
  (∀ res', res' ≠ NULL → assoc_get_iterator res' g1 = None) ∧
  ∀ fuel visited g2,
    iterate_all fuel p g1 = Some (visited, g2) →
    tab g2 = tab g ∧ maintenance_lock g2 = true ∧
    (∀ hash_power_max count,
       assoc_start_expand hash_power_max count g2 = (false, g2)) ∧
    assoc_iterate_final p g2 = Some g ∧
    assoc_iterate p g = None.
Proof.
  intros Hget Hp Hfresh. unfold assoc_get_iterator in Hget.
  case_decide as Hres; [by simplify_eq|]. cbn in Hget.
  destruct (maintenance_lock g) eqn:Hlock; [done|]. injection Hget as <- <-.
  assert (Hbusy : ∀ g', maintenance_lock g' = true →
            ∀ M count, assoc_start_expand M count g' = (false, g')).
  { intros g' Hl M count. unfold assoc_start_expand, maintenance_trylock.
    by rewrite Hl. }
  split; [by apply Hbusy|]. split.
  { intros res' Hres'. unfold assoc_get_iterator.
    by rewrite decide_False by done. }
  intros fuel visited g2 Hrun.
  destruct (iterate_all_frame _ _ _ _ _ Hrun) as (Ht & Hl & Hb & [it Hit] & Hothers).
  cbn in Ht, Hl, Hb. split; [done|]. split; [done|].
  split; [by apply Hbusy|]. split.
  - unfold assoc_iterate_final. rewrite Hit. cbn [mbind option_bind].
    f_equal. destruct g as [t l its b], g2 as [t2 l2 its2 b2]. cbn in *.
    subst. unfold set_iterators, set_lock. cbn. f_equal.
    apply map_eq. intros q. destruct (decide (q = res)) as [->|Hq].
    + by rewrite lookup_delete_eq.
    + rewrite lookup_delete_ne by done. rewrite Hothers by done.
      by rewrite lookup_insert_ne.
  - unfold assoc_iterate. by rewrite Hfresh.
Qed.


(** ** Every call has a result *)

(** X18: On a well-formed table every call has a defined result, for every
    key and every 32-bit hash value (also one that is not the hash of the
    key): no slot outside the arrays is read, no null or dangling pointer is
    followed and every walk along a chain ends. [assoc_find] returns the
    null pointer or a linked item whose key matches, and [assoc_insert]
    returns for every allocated item. *)
Theorem calls_are_defined (s : table) (key : list byte) (n hv : Z) :
  wf hash s → 0 ≤ hv < 2 ^ 32 →
  (∃ r, assoc_find s key n hv = Some r ∧
        (r = NULL ∨ (r ∈ linked s ∧ matchb (items s) key n r = true))) ∧
  (∃ pos r, _hashitem_before s key n hv = Some pos ∧ load s pos = Some r) ∧
  is_Some (assoc_delete s key n hv) ∧
  (∀ p ip, items s !! p = Some ip → is_Some (assoc_insert s p hv)).
Proof.
  intros Hwf Hhv. pose proof (wf_shape _ Hwf) as Hsh.
  pose proof (shape_hashpower _ Hsh) as Hhp.
  apply wf_views in Hwf as (P & O & Hv & Hw).
  assert (Hfind : ∃ r, assoc_find s key n hv = Some r ∧
            (r = NULL ∨ (r ∈ linked s ∧ matchb (items s) key n r = true))).
  { destruct (addressing s _ Hhv Hhp) as (-> & _).
    destruct (slot_chain s P O hv Hv Hsh) as (head & l & -> & Hc & Hcase).
    cbn [mbind option_bind].
    rewrite (find_loop_chain _ _ _ _ _ l) by
      (done || (apply chain_length in Hc; unfold walk_fuel; lia)).
    eexists. split; [done|].
    destruct (decide (first_match (items s) key n l = NULL)) as [|Hfound];
      [by left|right].
    destruct (first_match_elem _ _ _ _ Hfound) as [Hin Hm]. split; [|done].
    rewrite (linked_views _ _ _ Hv). apply elem_of_app.
    destruct Hcase as [(_ & Hl & _)|(_ & Hl & _)]; [left|right];
      by eapply elem_of_concat_lookup. }
  destruct Hfind as (r & Hr & Hcase).
  pose proof (before_find s key n hv Hhv Hhp) as Hbf. rewrite Hr in Hbf.
  split; [by exists r|]. split.
  { destruct (_hashitem_before s key n hv) as [pos|]; [|done]. by exists pos, r. }
  split.
  - destruct (delete_find s key n hv Hhv Hhp) as (Hiff1 & Hiff2 & _).
    destruct (decide (r = NULL)) as [->|Hnull].
    + apply Hiff1 in Hr. by rewrite Hr.
    + assert (Hex : ∃ b, assoc_find s key n hv = Some b ∧ b ≠ NULL) by eauto.
      apply Hiff2 in Hex as [s' ->]. done.
  - intros p ip Hip. by eapply insert_defined.
Qed.


(** ** Removing the items that an iterator visits *)

Lemma chain_start (h h' : gmap Z item) p p' l :
  chain h p l → chain h' p' l → p = p'.
Proof. intros H1 H2. inversion H1; inversion H2; by simplify_eq. Qed.

Lemma views_functional s P O P' O' :
  views s P O → views s P' O' → P = P' ∧ O = O'.
Proof.
  intros H1 H2. apply view_spec in H1, H2. rewrite H1 in H2. by injection H2.
Qed.

Lemma replicate_snoc_app {A} (k : nat) (x : A) (l : list A) :
  replicate k x ++ x :: l = replicate (S k) x ++ l.
Proof. induction k as [|k IH]; cbn; [done|]. by rewrite IH. Qed.

Lemma insert_after_replicate {A} (k : nat) (x y z : A) (l : list A) :
  <[k := z]> (replicate k x ++ y :: l) = replicate k x ++ z :: l.
Proof.
  rewrite insert_app_r_alt by (by rewrite length_replicate).
  rewrite length_replicate. by replace (k - k)%nat with 0%nat by lia.
Qed.

Lemma lookup_after_replicate {A} (k : nat) (x y : A) (l : list A) :
  (replicate k x ++ y :: l) !! k = Some y.
Proof.
  rewrite lookup_app_r by (by rewrite length_replicate).
  rewrite length_replicate. by replace (k - k)%nat with 0%nat by lia.
Qed.

(** [assoc_delete] of the key of the item at the head of a chain of a stable
    well-formed table. *)
Lemma delete_head s P (k : nat) x rest i :
  wf hash s → expanding s = false → views s P [] →
  P !! k = Some (x :: rest) → items s !! x = Some i →
  ∃ s', assoc_delete s (ITEM_key i) (nkey i)
          (hash32 hash (ITEM_key i) (nkey i)) = Some (Removed s') ∧
        wf hash s' ∧ expanding s' = false ∧ views s' (<[k := rest]> P) [].
Proof.
  intros Hwf He Hv Hlk Hi. pose proof Hwf as Hwf0.
  apply wf_views in Hwf as (P0 & O0 & Hv0 & Hw).
  destruct (views_functional _ _ _ _ _ Hv0 Hv) as [-> ->].
  pose proof Hw as (Hsh & Hnd & HplP & _). cbn [fst snd] in HplP.
  pose proof Hsh as (Hhp & _).
  pose proof (NoDup_fmap_1 _ _ Hnd) as Hnd'. unfold linked_of in Hnd'.
  cbn [fst snd concat] in Hnd'. rewrite app_nil_r in Hnd'.
  set (key := ITEM_key i). set (n := nkey i). set (hv := hash32 hash key n).
  assert (Hk : hv mod 2 ^ hashpower s = Z.of_nat k).
  { specialize (HplP _ _ Hlk). unfold placed in HplP.
    apply Forall_cons in HplP as [Hx _]. rewrite Hi in Hx.
    cbn [fmap option_fmap option_map] in Hx. injection Hx as Hx.
    by rewrite home_mod in Hx. }
  assert (Hmx : matchb (items s) key n x = true) by (by apply matchb_self).
  assert (Hxl : x ∈ linked s).
  { rewrite (linked_views _ _ _ Hv). apply elem_of_app. left.
    eapply elem_of_concat_lookup; [done|by left]. }
  destruct (delete_wf s key n Hwf0) as (s' & b & Hdel & Hwf' & _ & _ & _ & Hfr);
    [by exists x|].
  exists s'. split; [done|]. split; [done|].
  assert (He' : expanding s' = false).
  { destruct Hfr as (_ & _ & _ & -> & _). done. }
  split; [done|].
  pose proof (hash32_range key n) as Hhv. fold hv in Hhv, Hdel.
  destruct (addressing s hv Hhv (shape_hashpower _ Hsh)) as (_ & _ & _ & Hd & _).
  rewrite Hd in Hdel. rewrite bucket_slot_shape in Hdel by done.
  rewrite He in Hdel. cbn [andb] in Hdel. rewrite Hk in Hdel.
  pose proof Hv as [(Parr & HParr & HFP) _].
  assert (Hlk' : P !! Z.to_nat (Z.of_nat k) = Some (x :: rest)) by (by rewrite Nat2Z.id).
  destruct (delete_array s _ Parr P (Z.of_nat k) (x :: rest) key n HParr HFP Hlk' Hnd')
    as (s'' & b' & ib & arr' & Hdel' & _ & _ & _ & _ & H1 & H2 & H3 & H4 & H5 & Harr
        & Hlen & HF' & _).
  { cbn [first_match]. rewrite Hmx.
    destruct (linked_elem s x Hwf0 Hxl) as [Hxn _]. done. }
  rewrite Hdel in Hdel'. injection Hdel' as <-.
  cbn [remove_match] in HF'. rewrite Hmx in HF'. rewrite Nat2Z.id in HF'.
  split; [|by rewrite He'].
  exists arr'. split; [|done]. by rewrite H2, Harr, lookup_insert_eq.
Qed.

Lemma iterate_deleting_skip fuel iterp g g1 :
  assoc_iterate iterp g = Some (true, NULL, g1) →
  iterate_deleting hash (S fuel) iterp g = iterate_deleting hash fuel iterp g1.
Proof.
  intros H1. cbn [iterate_deleting]. rewrite H1.
  by rewrite decide_False by (intros Hn; by apply Hn).
Qed.

Lemma iterate_deleting_step fuel iterp g x g1 i t rest g2 :
  assoc_iterate iterp g = Some (true, x, g1) → x ≠ NULL →
  items (tab g1) !! x = Some i →
  assoc_delete (tab g1) (ITEM_key i) (nkey i) (hash32 hash (ITEM_key i) (nkey i))
  = Some (Removed t) →
  iterate_deleting hash fuel iterp (set_tab t g1) = Some (rest, g2) →
  iterate_deleting hash (S fuel) iterp g = Some (x :: rest, g2).
Proof.
  intros H1 Hx Hi Hdel Hrest. cbn [iterate_deleting]. rewrite H1.
  rewrite decide_True by done. rewrite Hi. cbn [mbind option_bind].
  rewrite Hdel. cbn [mbind option_bind]. by rewrite Hrest.
Qed.

Lemma drain_locked iterp (k : nat) (Ls : list (list Z)) (cost : nat) :
  (∀ t g it0 nxt0 fuel,
     drained hash t (S k) Ls →
     iterators g !! iterp = Some (Iterator (u64 (Z.of_nat k + 1)) it0 nxt0 false) →
     tab g = t → (cost ≤ fuel)%nat →
     ∃ g', iterate_deleting hash fuel iterp g = Some (concat Ls, g') ∧
           wf hash (tab g') ∧ linked (tab g') = []) →
  ∀ rest t g it0 nxt fuel,
    drained hash t k (rest :: Ls) →
    iterators g !! iterp = Some (Iterator (Z.of_nat k) it0 nxt true) → tab g = t →
    chain (items t) nxt rest → (S (length rest) + cost ≤ fuel)%nat →
    ∃ g', iterate_deleting hash fuel iterp g = Some (rest ++ concat Ls, g') ∧
          wf hash (tab g') ∧ linked (tab g') = [].
Proof.
  intros Hnext rest.
  induction rest as [|x rest IH]; intros t g it0 nxt fuel Hdr Hit Htab Hc Hfuel.
  - inversion Hc; subst. destruct fuel as [|fuel]; [simpl in Hfuel; lia|].
    set (g1 := set_iterators (<[iterp := Iterator (u64 (Z.of_nat k + 1)) it0 NULL false]>
                                (iterators g)) g).
    destruct (Hnext (tab g) g1 it0 NULL fuel) as (g' & Hrun & Hpost);
      [| |done|simpl in Hfuel; lia|].
    { destruct Hdr as (Hwf & He & Hv). split; [done|]. split; [done|].
      by rewrite <- replicate_snoc_app. }
    { unfold g1. simpl. by rewrite lookup_insert_eq. }
    exists g'. split; [|done].
    rewrite (iterate_deleting_skip fuel iterp g g1); [done|].
    unfold assoc_iterate. rewrite Hit. simpl. done.
  - apply chain_head in Hc as (-> & Hxn & i & Hi & Hc).
    destruct fuel as [|fuel]; [simpl in Hfuel; lia|].
    set (g1 := set_iterators (<[iterp := Iterator (Z.of_nat k) x (h_next i) true]>
                                (iterators g)) g).
    destruct Hdr as (Hwf & He & Hv).
    destruct (delete_head t _ k x rest i Hwf He Hv (lookup_after_replicate _ _ _ _) Hi)
      as (t' & Hdel & Hwf' & He' & Hv').
    rewrite insert_after_replicate in Hv'.
    assert (Hc' : chain (items t') (h_next i) rest).
    { destruct Hv' as [(arr' & _ & HF') _].
      destruct (Forall2_lookup_r _ _ _ _ _ HF' (lookup_after_replicate _ _ _ _))
        as (head' & _ & Hch).
      by rewrite (chain_start _ _ _ _ _ Hc Hch). }
    destruct (IH t' (set_tab t' g1) x (h_next i) fuel) as (g' & Hrun & Hpost);
      [done| |done|done|simpl in Hfuel; lia|].
    { unfold g1. simpl. by rewrite lookup_insert_eq. }
    exists g'. split; [|done].
    rewrite (iterate_deleting_step fuel iterp g x g1 i t' (rest ++ concat Ls) g');
      try done.
    + unfold assoc_iterate. rewrite Hit. simpl. rewrite decide_True by done.
      rewrite Htab, Hi. done.
    + unfold g1. cbn [tab set_iterators]. by rewrite Htab.
    + unfold g1. cbn [tab set_iterators]. by rewrite Htab.
Qed.

Lemma drain_unlocked iterp : ∀ Ls (k : nat) t g it0 nxt0 fuel,
  drained hash t k Ls →
  iterators g !! iterp = Some (Iterator (Z.of_nat k) it0 nxt0 false) →
  tab g = t → (walk_cost Ls ≤ fuel)%nat →
  ∃ g', iterate_deleting hash fuel iterp g = Some (concat Ls, g') ∧
        wf hash (tab g') ∧ linked (tab g') = [].
Proof.
  induction Ls as [|l Ls IH]; intros k t g it0 nxt0 fuel Hdr Hit Htab Hfuel.
  - destruct Hdr as (Hwf & He & Hv).
    pose proof (wf_shape _ Hwf) as (Hhp & _ & HlenP & _).
    pose proof Hv as [(Parr & HParr & HFP) _].
    apply block_len_lookup in HlenP as (Parr' & HParr' & HlenP).
    rewrite HParr in HParr'. injection HParr' as <-.
    rewrite hashsize_pow2 in HlenP by done.
    apply Forall2_length in HFP. rewrite app_nil_r, length_replicate in HFP.
    destruct fuel as [|fuel]; [simpl in Hfuel; lia|]. exists g.
    split; [|rewrite Htab; split; [done|]].
    + cbn [iterate_deleting]. unfold assoc_iterate. rewrite Hit. simpl.
      rewrite decide_False; [done|]. intros Hne. apply Hne.
      rewrite Htab, hashsize_pow2 by done. lia.
    + rewrite (linked_views _ _ _ Hv). rewrite app_nil_r. cbn [concat].
      rewrite app_nil_r. apply concat_replicate_nil.
  - pose proof Hdr as (Hwf & He & Hv).
    pose proof (wf_shape _ Hwf) as (Hhp & _ & HlenP & _).
    pose proof Hv as [(Parr & HParr & HFP) _].
    apply block_len_lookup in HlenP as (Parr' & HParr' & HlenP).
    rewrite HParr in HParr'. injection HParr' as <-.
    rewrite hashsize_pow2 in HlenP by done.
    pose proof (Forall2_length _ _ _ HFP) as Hlen.
    rewrite length_app, length_replicate in Hlen. cbn [length] in Hlen.
    assert (H64 : 2 ^ hashpower t < 2 ^ 64) by (apply Z.pow_lt_mono_r; lia).
    assert (Hu : u64 (Z.of_nat k + 1) = Z.of_nat (S k)).
    { unfold u64. rewrite Z.mod_small; lia. }
    destruct (Forall2_lookup_r _ _ _ _ _ HFP (lookup_after_replicate _ _ _ _))
      as (head & Hhead & Hc).
    destruct fuel as [|fuel]; [simpl in Hfuel; lia|]. simpl in Hfuel.
    assert (Hload : arr_load (tab g) (primary_hashtable (tab g)) (Z.of_nat k) = Some head).
    { unfold arr_load. rewrite Htab, HParr. simpl. by rewrite Nat2Z.id. }
    assert (Hneq : Z.of_nat k ≠ hashsize (hashpower (tab g))).
    { rewrite Htab, hashsize_pow2 by done. lia. }
    assert (Hnext : ∀ t2 g2 it2 nxt2 fuel2,
      drained hash t2 (S k) Ls →
      iterators g2 !! iterp = Some (Iterator (u64 (Z.of_nat k + 1)) it2 nxt2 false) →
      tab g2 = t2 → (walk_cost Ls ≤ fuel2)%nat →
      ∃ g', iterate_deleting hash fuel2 iterp g2 = Some (concat Ls, g') ∧
            wf hash (tab g') ∧ linked (tab g') = []).
    { intros t2 g2 it2 nxt2 fuel2 Hdr2 Hit2 Htab2 Hfuel2. rewrite Hu in Hit2.
      by eapply IH. }
    destruct (decide (head = NULL)) as [->|Hhn].
    + apply chain_inv_nil in Hc as ->. simpl in Hfuel.
      set (g1 := set_iterators (<[iterp := Iterator (u64 (Z.of_nat k + 1)) NULL nxt0 false]>
                                  (iterators g)) g).
      destruct (Hnext t g1 NULL nxt0 fuel) as (g' & Hrun & Hpost); [| |done|lia|].
      { split; [done|]. split; [done|]. by rewrite <- replicate_snoc_app. }
      { unfold g1. simpl. by rewrite lookup_insert_eq. }
      exists g'. split; [|done].
      rewrite (iterate_deleting_skip fuel iterp g g1); [done|].
      unfold assoc_iterate. rewrite Hit. simpl.
      rewrite decide_True by done. rewrite Hload. simpl. done.
    + destruct l as [|x l']; [by inversion Hc|].
      apply chain_head in Hc as (-> & _ & i & Hi & Hc').
      set (g1 := set_iterators (<[iterp := Iterator (Z.of_nat k) x (h_next i) true]>
                                  (iterators g)) g).
      destruct (delete_head t _ k x l' i Hwf He Hv (lookup_after_replicate _ _ _ _) Hi)
        as (t' & Hdel & Hwf' & He' & Hv').
      rewrite insert_after_replicate in Hv'.
      assert (Hc2 : chain (items t') (h_next i) l').
      { destruct Hv' as [(arr' & _ & HF') _].
        destruct (Forall2_lookup_r _ _ _ _ _ HF' (lookup_after_replicate _ _ _ _))
          as (head' & _ & Hch).
        by rewrite (chain_start _ _ _ _ _ Hc' Hch). }
      simpl in Hfuel.
      destruct (drain_locked iterp k Ls (walk_cost Ls) Hnext l' t' (set_tab t' g1)
                  x (h_next i) fuel) as (g' & Hrun & Hpost);
        [done| |done|done|lia|].
      { unfold g1. simpl. by rewrite lookup_insert_eq. }
      exists g'. split; [|done].
      rewrite (iterate_deleting_step fuel iterp g x g1 i t' (l' ++ concat Ls) g');
        try done.
      * unfold assoc_iterate. rewrite Hit. simpl.
        rewrite decide_True by done. rewrite Hload. simpl.
        rewrite decide_True by done. rewrite Htab, Hi. done.
      * unfold g1. cbn [tab set_iterators]. by rewrite Htab.
      * unfold g1. cbn [tab set_iterators]. by rewrite Htab.
Qed.

(** X19: A caller that walks a stable well-formed table with an iterator and
    removes every item it is given with [assoc_delete] is given every linked
    item once, in the order of a walk that removes nothing, and leaves a
    well-formed table in which no item is linked: the iterator has read the
    link of an item to the next before it hands the item out, so removing
    that item does not disturb the walk. *)
Theorem iterate_deleting_empties (s : table) (g : global) (iterp : Z) :
  wf hash s → expanding s = false → tab g = s →
  iterators g !! iterp = Some (Iterator 0 NULL NULL false) →
  ∃ P, view s = Some (P, []) ∧
       ∀ fuel, (walk_cost P ≤ fuel)%nat →
         (∃ g', iterate_all fuel iterp g = Some (linked s, g') ∧ tab g' = s) ∧
         ∃ g', iterate_deleting hash fuel iterp g = Some (linked s, g') ∧
               wf hash (tab g') ∧ linked (tab g') = [].
Proof.
  intros Hwf He Htab Hit.
  pose proof Hwf as Hwf0. apply wf_views in Hwf as (P & O & Hv & Hw).
  assert (O = []) as -> by (destruct Hv as [_ HO]; by rewrite He in HO).
  exists P. split; [by apply view_spec|]. intros fuel Hfuel.
  assert (Hl : linked s = concat P).
  { rewrite (linked_views _ _ _ Hv). simpl. by rewrite app_nil_r. }
  rewrite Hl. split.
  - destruct Hw as (Hsh & _). pose proof Hsh as (Hhp & _ & HlenP & _).
    destruct Hv as [(Parr & HParr & HFP) _].
    apply block_len_lookup in HlenP as (Parr' & HParr' & HlenP).
    rewrite HParr in HParr'. injection HParr' as <-.
    rewrite hashsize_pow2 in HlenP by done.
    eapply (iterate_unlocked s iterp Parr P Hhp HParr HlenP HFP P 0%nat g);
      try done. lia.
  - eapply (drain_unlocked iterp P 0%nat s g); try done.
Qed.


(** ** What an insert touches *)

(** X20: [assoc_insert] is a head insertion that walks no chain: on a
    table whose arrays have the right shape it makes the slot that the
    hash value addresses point to the item and the item's [h_next] hold
    what the slot held; no other slot, no other item and none of the
    file-level variables change. *)
Theorem insert_links_at_head (s : table) (p : Z) (ip : item) (hv : Z) :
  shape s → 0 ≤ hv < 2 ^ 32 → items s !! p = Some ip →
  ∃ a b head s1,
    bucket_slot s hv = Bucket a b ∧ arr_load s a b = Some head ∧
    assoc_insert s p hv = Some s1 ∧
    arr_load s1 a b = Some p ∧
    items s1 !! p = Some (set_h_next head ip) ∧
    (∀ q, q ≠ p → items s1 !! q = items s !! q) ∧
    (∀ a' j, (a', Z.to_nat j) ≠ (a, Z.to_nat b) →
             arr_load s1 a' j = arr_load s a' j) ∧
    hashpower s1 = hashpower s ∧ primary_hashtable s1 = primary_hashtable s ∧
    old_hashtable s1 = old_hashtable s ∧ expanding s1 = expanding s ∧
    expand_bucket s1 = expand_bucket s.
Proof.
  intros Hsh Hhv Hip.
  destruct (insert_defined s p ip hv Hsh Hhv Hip) as [s1 Hins].
  destruct (bucket_slot_bucket s hv) as (a & b & Hslot).
  pose proof Hins as Hpush.
  destruct (addressing s hv Hhv (shape_hashpower _ Hsh)) as (_ & Hi & _).
  rewrite Hi, Hslot in Hpush.
  destruct (push_inv _ _ _ _ _ Hpush) as (arr & head & i & Harr & Hhead & Hi').
  rewrite Hip in Hi'. injection Hi' as <-.
  rewrite (push_bucket _ _ arr _ head _ ip) in Hpush by done.
  injection Hpush as <-.
  eexists a, b, head, _. split; [done|]. split.
  { unfold arr_load. rewrite Harr. done. }
  split; [done|]. cbn [items arrays set_arrays set_items hashpower
    primary_hashtable old_hashtable expanding expand_bucket].
  split.
  { unfold arr_load. cbn [arrays set_arrays]. rewrite lookup_insert_eq.
    cbn [mbind option_bind]. apply list_lookup_insert_eq.
    by eapply lookup_lt_Some. }
  split; [by rewrite lookup_insert_eq|]. split.
  { intros q Hq. by rewrite lookup_insert_ne. }
  split; [|done]. intros a' j Hne. unfold arr_load. cbn [arrays set_arrays].
  destruct (decide (a = a')) as [<-|Ha].
  - rewrite lookup_insert_eq, Harr. cbn [mbind option_bind].
    apply list_lookup_insert_ne. intros Heq. apply Hne. by rewrite Heq.
  - by rewrite lookup_insert_ne.
Qed.

(** ** The hash power over a history *)

Lemma run_op_power s o s1 :
  wf hash s → allowed s o → run_op hash s o = Some s1 →
  hashpower s1 = hashpower s + power_change o.
Proof.
  intros Hwf Hal. destruct o as [p|key n|new|acq]; cbn [run_op allowed power_change] in *.
  - destruct Hal as (Hn & Hfresh & i & Hi & Hno). rewrite Hi.
    cbn [mbind option_bind].
    destruct (insert_wf s p i Hwf Hi Hn Hfresh) as (s1' & Hins & _ & _ & Hfr).
    { intros q Hq Hkid. specialize (Hno _ Hq).
      apply matchb_kid in Hkid. congruence. }
    rewrite Hins. intros [= <-]. destruct Hfr as (-> & _). lia.
  - destruct (delete_wf s key n Hwf Hal) as (s1' & b & Hdel & _ & _ & _ & _ & Hfr).
    rewrite Hdel. cbn [mbind option_bind]. intros [= <-].
    destruct Hfr as (-> & _). lia.
  - destruct Hal as (He & Hhp & Hnew). intros [= <-].
    pose proof (wf_shape _ Hwf) as (Hhp0 & _).
    case_decide as Hn.
    + subst. rewrite assoc_expand_failure. cbn. lia.
    + rewrite assoc_expand_success by done. cbn [hashpower].
      rewrite u32_small; lia.
  - destruct acq; cbn [maintenance_step].
    + destruct (maintenance_step_wf s Hwf Hal)
        as (m & s1' & l & Hmig & -> & Hstep & _ & _ & _ & _ & _ & _ & Hhp & _).
      unfold maintenance_step in Hstep. rewrite Hstep. intros [= <-]. lia.
    + intros [= <-]. lia.
Qed.

Lemma power_change_nonneg o : 0 ≤ power_change o.
Proof. destruct o; cbn; try lia. case_decide; lia. Qed.

(** X21: The table never shrinks: over a history of allowed operations
    from a well-formed table the hash power grows by one for every
    [assoc_expand] whose allocation succeeds and is changed by nothing
    else, so that the primary array at the end has [hashsize] of that
    many slots. *)
Theorem history_hash_power (s : table) (ops : list op) (s' : table) :
  wf hash s → runs hash s ops s' →
  hashpower s' = hashpower s + foldr Z.add 0 (power_change <$> ops) ∧
  hashpower s ≤ hashpower s' ∧
  block_len s' (primary_hashtable s') = Some (2 ^ hashpower s').
Proof.
  intros Hwf Hruns.
  assert (Hsum : hashpower s' = hashpower s + foldr Z.add 0 (power_change <$> ops)
                 ∧ hashpower s ≤ hashpower s').
  { clear -Hwf Hruns. induction Hruns as [s|s o s1 os s2 Hal Hrun _ IH];
      cbn [fmap list_fmap foldr]; [lia|].
    destruct (run_op_wf s o Hwf Hal) as (s1' & Hrun' & Hwf1 & _).
    rewrite Hrun in Hrun'. injection Hrun' as <-.
    pose proof (run_op_power s o s1 Hwf Hal Hrun).
    pose proof (power_change_nonneg o).
    destruct (IH Hwf1). lia. }
  destruct Hsum as [Hsum Hle]. split; [done|]. split; [done|].
  pose proof (runs_wf _ _ _ Hwf Hruns) as Hwf'.
  destruct (wf_shape _ Hwf') as (Hhp & _ & Hlen & _).
  by rewrite hashsize_pow2 in Hlen.
Qed.


(** ** The table as a finite map *)

Lemma elem_of_entries s k p :
  (k, p) ∈ entries s ↔ p ∈ linked s ∧ item_kid <$> items s !! p = Some k.
Proof.
  unfold entries. rewrite list_elem_of_omap. split.
  - intros (q & Hq & Hkp). destruct (items s !! q) as [i|] eqn:Hi; [|done].
    cbn in Hkp. apply (inj Some) in Hkp.
    apply pair_equal_spec in Hkp as [<- <-]. by rewrite Hi.
  - intros [Hp Hk]. exists p. split; [done|].
    destruct (items s !! p) as [i|]; [|done]. cbn in *.
    apply (inj Some) in Hk. by rewrite Hk.
Qed.

Lemma entries_keys s :
  wf hash s → NoDup (entries s).*1.
Proof.
  intros Hwf. pose proof (wf_kids_NoDup s Hwf) as Hnd.
  unfold entries. induction (linked s) as [|p l IH]; [constructor|].
  cbn [fmap list_fmap] in Hnd. apply NoDup_cons in Hnd as [Hp Hnd].
  cbn [omap list_omap]. destruct (items s !! p) as [i|] eqn:Hi; cbn; [|by apply IH].
  apply NoDup_cons. split; [|by apply IH].
  intros Hin. apply Hp. apply list_elem_of_fmap in Hin as ([k q] & Hk & Hq).
  cbn in Hk. subst k. apply list_elem_of_omap in Hq as (q' & Hq' & Hkq).
  destruct (items s !! q') as [i'|] eqn:Hi'; [|done]. cbn in Hkq.
  apply (inj Some) in Hkq. apply pair_equal_spec in Hkq as [Hk <-].
  apply list_elem_of_fmap. exists q'. split; [|done]. rewrite Hi'. cbn.
  by rewrite Hk.
Qed.

Lemma contents_lookup s k p :
  wf hash s →
  contents s !! k = Some p ↔ p ∈ linked s ∧ item_kid <$> items s !! p = Some k.
Proof.
  intros Hwf. unfold contents.
  rewrite <- elem_of_list_to_map by (by apply entries_keys).
  apply elem_of_entries.
Qed.

Lemma find_contents s key n :
  wf hash s →
  assoc_find s key n (hash32 hash key n)
  = Some (default NULL (contents s !! kid key n)).
Proof.
  intros Hwf.
  destruct (find_complete s key n Hwf) as (r & -> & Hnull & Hfound). f_equal.
  destruct (contents s !! kid key n) as [p|] eqn:Hp; cbn.
  - apply (contents_lookup _ _ _ Hwf) in Hp as [Hin Hk].
    apply matchb_kid in Hk.
    destruct (decide (r = NULL)) as [Hr|Hr].
    + pose proof (proj1 Hnull Hr p Hin). congruence.
    + destruct (Hfound Hr) as (_ & _ & Huniq). symmetry. by apply Huniq.
  - destruct (decide (r = NULL)) as [|Hr]; [done|exfalso].
    destruct (Hfound Hr) as (Hin & Hm & _). apply matchb_kid in Hm.
    assert (contents s !! kid key n = Some r) by (by apply contents_lookup).
    congruence.
Qed.

Lemma run_op_contents s o s1 :
  wf hash s → allowed s o → run_op hash s o = Some s1 →
  contents s1 = apply_op s o (contents s).
Proof.
  intros Hwf Hal Hrun.
  destruct (run_op_linked s o s1 Hwf Hal Hrun) as (Hwf1 & Hk & Hl).
  assert (Hkid : ∀ p, item_kid <$> items s1 !! p = item_kid <$> items s !! p).
  { intros p. by apply same_keys_kid. }
  apply map_eq. intros k. apply option_eq. intros p.
  rewrite (contents_lookup _ _ _ Hwf1), Hkid.
  destruct o as [p0|key n|new|acq]; cbn [apply_op allowed] in *.
  - destruct Hal as (_ & Hfresh & i & Hi & Hno). rewrite Hi, Hl.
    cbn [fmap option_fmap option_map].
    rewrite lookup_insert. case_decide as Hkk.
    + subst k. split.
      * intros [Hin Hp]. apply elem_of_cons in Hin as [->|Hin]; [done|exfalso].
        specialize (Hno _ Hin). apply matchb_kid in Hp. congruence.
      * intros [= ->]. split; [by left|by rewrite Hi].
    + rewrite (contents_lookup _ _ _ Hwf). split.
      * intros [Hin Hp]. apply elem_of_cons in Hin as [->|Hin]; [|done].
        rewrite Hi in Hp. cbn in Hp. congruence.
      * intros [Hin Hp]. split; [by right|done].
  - destruct Hl as (b & Hb & Hmb & Hperm). apply matchb_kid in Hmb.
    pose proof (wf_linked_NoDup s Hwf) as Hnd. rewrite Hperm in Hnd.
    apply NoDup_cons in Hnd as [Hbn _].
    rewrite lookup_delete. case_decide as Hkk.
    + subst k. split; [|done]. intros [Hin Hp]. exfalso. apply Hbn.
      assert (p = b) as ->; [|done].
      apply (linked_match_unique s key n); [done| |done|..];
        [rewrite Hperm; by right|by apply matchb_kid..].
    + rewrite (contents_lookup _ _ _ Hwf), Hperm. split.
      * intros [Hin Hp]. split; [by right|done].
      * intros [Hin Hp]. apply elem_of_cons in Hin as [->|Hin]; [|done].
        congruence.
  - by rewrite (contents_lookup _ _ _ Hwf), Hl.
  - by rewrite (contents_lookup _ _ _ Hwf), Hl.
Qed.

Lemma apply_op_same_keys s s1 o m :
  same_keys (items s) (items s1) → apply_op s1 o m = apply_op s o m.
Proof.
  intros Hk. destruct o; cbn [apply_op]; try done.
  by rewrite (same_keys_kid _ _ _ Hk).
Qed.

Lemma runs_contents s ops s' :
  wf hash s → runs hash s ops s' →
  contents s' = foldl (λ m o, apply_op s o m) (contents s) ops.
Proof.
  intros Hwf Hruns.
  assert (Hgen : ∀ t, same_keys (items t) (items s) →
            contents s' = foldl (λ m o, apply_op t o m) (contents s) ops).
  { induction Hruns as [s|s o s1 os s2 Hal Hrun _ IH]; intros t Ht;
      cbn [foldl]; [done|].
    destruct (run_op_linked s o s1 Hwf Hal Hrun) as (Hwf1 & Hk & _).
    rewrite (IH Hwf1 t) by (by eapply same_keys_trans).
    rewrite (run_op_contents s o s1 Hwf Hal Hrun).
    by rewrite <- (apply_op_same_keys t s o). }
  apply Hgen, same_keys_refl.
Qed.

(** X22: A well-formed table stands for a finite map from keys to items,
    the keys of its linked items with the items: [assoc_find], called with
    the hash of a key, returns what the map holds for the key, and the
    null pointer when it holds nothing; an allowed insert adds the key of
    the item with the item, an allowed delete removes the key, and the
    start of an expansion and a migration step leave the map as it is.
    So after a history of allowed operations [assoc_find] returns what
    the map of the first table holds after the updates of the history. *)
Theorem table_refines_map (s : table) :
  wf hash s →
  (∀ k p, contents s !! k = Some p
          ↔ p ∈ linked s ∧ item_kid <$> items s !! p = Some k) ∧
  (∀ key n, assoc_find s key n (hash32 hash key n)
            = Some (default NULL (contents s !! kid key n))) ∧
  (∀ o s1, allowed s o → run_op hash s o = Some s1 →
           contents s1 = apply_op s o (contents s)) ∧
  (∀ ops s' key n, runs hash s ops s' →
     assoc_find s' key n (hash32 hash key n)
     = Some (default NULL
               (foldl (λ m o, apply_op s o m) (contents s) ops !! kid key n))).
Proof.
  intros Hwf. split; [intros; by apply contents_lookup|].
  split; [intros; by apply find_contents|].
  split; [intros; by apply run_op_contents|].
  intros ops s' key n Hruns. rewrite <- (runs_contents s ops s' Hwf Hruns).
  apply find_contents. by eapply runs_wf.
Qed.

End Table.

(** * The theorems at work on the example tables *)

Lemma addressing_rule_witness :
  0 ≤ 100 < 2 ^ 32 ∧ 0 ≤ hashpower Example.stable < 2 ^ 32 ∧
  assoc_find Example.stable Example.key_d 1 100 = Some 103 ∧
  bucket_slot Example.stable 100 = Bucket 10 0.
Proof.
  assert (H1 : 0 ≤ 100 < 2 ^ 32) by lia.
  assert (H2 : 0 ≤ hashpower Example.stable < 2 ^ 32) by (simpl; lia).
  destruct (addressing_rule Example.stable 100 H1 H2) as (Hfind & _ & _ & _ & Hslot).
  split; [exact H1|]. split; [exact H2|]. split.
  - rewrite Hfind. vm_compute. reflexivity.
  - rewrite Hslot. vm_compute. reflexivity.
Defined.

Lemma migration_step_and_cycle_witness :
  wf Example.hash Example.stable ∧
  (∃ s', expansion_cycle Example.hash 20 1 Example.stable = Some s' ∧
         expanding s' = false ∧ hashpower s' = 2 ∧
         assoc_find s' Example.key_d 1 100 = Some 103) ∧
  wf Example.hash Example.growing ∧
  (∃ m s', migrate_bucket Example.hash Example.growing = Some m ∧
           maintenance_step Example.hash true Example.growing = Some s' ∧
           arr_load m 10 0 = Some NULL ∧ expand_bucket s' = 1).
Proof.
  assert (Hw1 : wf Example.hash Example.stable) by compute_done.
  assert (Hw2 : wf Example.hash Example.growing) by compute_done.
  split; [exact Hw1|]. split; [|split; [exact Hw2|]].
  - destruct (migration_step_and_cycle Example.hash Example.stable Hw1) as [_ Hcycle].
    assert (H63 : hashpower Example.stable < 63) by (simpl; lia).
    assert (Hn : 20 ≠ NULL) by (vm_compute; discriminate).
    assert (Hf : arrays Example.stable !! 20 = None) by (vm_compute; reflexivity).
    assert (Hb : 1 ≤ 1) by lia.
    destruct (Hcycle eq_refl H63 20 1 Hn Hf Hb)
      as (s' & Hrun & He & Hhp & _ & _ & _ & Hfind).
    exists s'. split; [exact Hrun|]. split; [exact He|]. split; [exact Hhp|].
    assert (Hin : 103 ∈ linked Example.stable) by compute_done.
    assert (Hi : items Example.stable !! 103 = Some (Item 1 Example.key_d NULL))
      by (vm_compute; reflexivity).
    exact (proj1 (Hfind 103 _ Hin Hi)).
  - destruct (migration_step_and_cycle Example.hash Example.growing Hw2) as [Hstep _].
    destruct (Hstep eq_refl)
      as (l & m & s' & _ & _ & Hmig & Hrun & _ & Hnull & _ & Heb & _).
    exists m, s'. split; [exact Hmig|]. split; [exact Hrun|].
    split; [exact Hnull|exact Heb].
Defined.

Lemma find_insert_delete_round_trip_witness :
  wf Example.hash Example.stable ∧
  items Example.stable !! 102 = Some (Item 1 Example.key_c NULL) ∧
  102 ≠ NULL ∧ (102 ∉ linked Example.stable) ∧
  Forall (λ q, matchb (items Example.stable) Example.key_c 1 q = false)
         (linked Example.stable) ∧
  ∃ s1 s3, assoc_insert Example.stable 102 99 = Some s1 ∧
           assoc_find s1 Example.key_c 1 99 = Some 102 ∧
           assoc_delete s1 Example.key_c 1 99 = Some (Removed s3) ∧
           assoc_find s3 Example.key_c 1 99 = Some NULL.
Proof.
  assert (Hw : wf Example.hash Example.stable) by compute_done.
  assert (Hi : items Example.stable !! 102 = Some (Item 1 Example.key_c NULL))
    by (vm_compute; reflexivity).
  assert (Hn : 102 ≠ NULL) by (vm_compute; discriminate).
  assert (Hfresh : 102 ∉ linked Example.stable) by compute_done.
  assert (Hno : Forall (λ q, matchb (items Example.stable) Example.key_c 1 q = false)
                       (linked Example.stable)) by compute_done.
  do 5 (split; [assumption|]).
  destruct (find_insert_delete_round_trip Example.hash Example.stable 102 _
              Hw Hi Hn Hfresh Hno) as (s1 & Hins & Hlater).
  destruct (Hlater [] s1 (runs_nil _ _) (Forall_nil_2 _))
    as (Hfind & s3 & Hdel & Hgone).
  exists s1, s3. split; [exact Hins|]. split; [exact Hfind|].
  split; [exact Hdel|exact Hgone].
Defined.

Lemma expand_alloc_failure_witness :
  expanding Example.stable = false ∧
  assoc_expand NULL Example.stable = set_old 10 Example.stable ∧
  hashpower (assoc_expand NULL Example.stable) = 1 ∧
  fst <$> serve (assoc_expand NULL Example.stable)
            [CallInsert 102 99; CallFind Example.key_c 1 99;
             CallDelete Example.key_b 1 98; CallFind Example.key_b 1 98;
             CallFind Example.key_d 1 100]
  = Some [102; NULL; 103].
Proof.
  assert (He : expanding Example.stable = false) by reflexivity.
  destruct (expand_alloc_failure Example.stable He)
    as (Heq & Hhp & _ & _ & _ & _ & _ & _ & _ & _ & Hserve).
  split; [exact He|]. split; [exact Heq|]. split; [exact Hhp|].
  rewrite Hserve. vm_compute. reflexivity.
Defined.

Lemma old_array_while_expanding_witness :
  shape Example.stable ∧
  shape (assoc_expand 20 Example.stable) ∧
  old_while_expanding (assoc_expand 20 Example.stable).
Proof.
  assert (Hsh : shape Example.stable) by compute_done.
  destruct (old_array_while_expanding Example.hash Example.stable Hsh)
    as (_ & Hexp & _).
  assert (H63 : hashpower Example.stable < 63) by (simpl; lia).
  assert (Hf : 20 = NULL ∨ arrays Example.stable !! 20 = None)
    by (right; vm_compute; reflexivity).
  split; [exact Hsh|]. exact (Hexp 20 eq_refl H63 Hf).
Defined.

Lemma trigger_signal_witness :
  0 ≤ hashpower (tab Example.idle) ∧ 32 ≤ 63 ∧
  assoc_start_expand 32 25 Example.idle = (true, Example.idle).
Proof.
  assert (H0 : 0 ≤ hashpower (tab Example.idle)) by (simpl; lia).
  assert (H1 : 32 ≤ 63) by lia.
  split; [exact H0|]. split; [exact H1|].
  rewrite (trigger_signal 32 25 Example.idle H0 H1). vm_compute. reflexivity.
Defined.

Lemma iterator_visits_each_once_witness :
  wf Example.hash Example.stable ∧ expanding Example.stable = false ∧
  tab Example.opened = Example.stable ∧
  iterators Example.opened !! 50 = Some (Iterator 0 NULL NULL false) ∧
  ∃ g', iterate_all 6 50 Example.opened = Some ([101; 103; 100], g').
Proof.
  assert (Hw : wf Example.hash Example.stable) by compute_done.
  assert (Hit : iterators Example.opened !! 50 = Some (Iterator 0 NULL NULL false))
    by (vm_compute; reflexivity).
  do 2 (split; [done|]). split; [reflexivity|]. split; [exact Hit|].
  destruct (iterator_visits_each_once Example.hash Example.stable Example.opened 50
              Hw eq_refl eq_refl Hit) as (P & Hview & Hl & _ & _ & Hwalk & _).
  assert (HP : P = [[101; 103]; [100]]).
  { assert (Hv : view Example.stable = Some ([[101; 103]; [100]], []))
      by (vm_compute; reflexivity).
    rewrite Hv in Hview. by injection Hview. }
  subst P. destruct (Hwalk 6%nat) as (g' & Hrun & _); [simpl; lia|].
  exists g'. rewrite Hrun, Hl. reflexivity.
Defined.

Lemma delete_splices_match_witness :
  0 ≤ 100 < 2 ^ 32 ∧ 0 ≤ hashpower Example.stable < 2 ^ 32 ∧
  bucket_slot Example.stable 100 = Bucket 10 0 ∧
  arrays Example.stable !! 10 = Some [101; 100] ∧
  [101; 100] !! Z.to_nat 0 = Some 101 ∧
  chain_of (walk_fuel Example.stable) (items Example.stable) 101
    = Some [101; 103] ∧
  Exists (λ q, matchb (items Example.stable) Example.key_d 1 q = true) [101; 103] ∧
  ∃ s', assoc_delete Example.stable Example.key_d 1 100 = Some (Removed s') ∧
        items s' !! 101 = Some (Item 1 Example.key_b NULL) ∧
        items s' !! 103 = Some (Item 1 Example.key_d NULL).
Proof.
  assert (H1 : 0 ≤ 100 < 2 ^ 32) by lia.
  assert (H2 : 0 ≤ hashpower Example.stable < 2 ^ 32) by (simpl; lia).
  assert (H3 : bucket_slot Example.stable 100 = Bucket 10 0)
    by (vm_compute; reflexivity).
  assert (H4 : arrays Example.stable !! 10 = Some [101; 100])
    by (vm_compute; reflexivity).
  assert (H5 : [101; 100] !! Z.to_nat 0 = Some 101) by reflexivity.
  assert (H6 : chain_of (walk_fuel Example.stable) (items Example.stable) 101
               = Some [101; 103]) by (vm_compute; reflexivity).
  assert (H7 : Exists (λ q, matchb (items Example.stable) Example.key_d 1 q = true)
                      [101; 103]) by compute_done.
  do 7 (split; [assumption|]).
  destruct (delete_splices_match Example.stable Example.key_d 1 100 10 0
              [101; 100] 101 [101; 103] H1 H2 H3 H4 H5 H6 H7)
    as (l1 & b & ib & l2 & s' & Hsplit & Hl1 & Hm & Hib & Hdel & Hprev & Hb & _).
  exists s'. split; [exact Hdel|].
  assert (Hs' : assoc_delete Example.stable Example.key_d 1 100
    = Some (Removed (set_items (<[101 := Item 1 Example.key_b NULL]>
         (<[103 := Item 1 Example.key_d NULL]> (items Example.stable)))
         Example.stable))) by (vm_compute; reflexivity).
  rewrite Hs' in Hdel. injection Hdel as <-. split; vm_compute; reflexivity.
Defined.

Lemma batch_size_from_environment_witness :
  batch_size "8" Example.idle = 8 ∧ batch_size "0" Example.idle = 1 ∧
  batch_size "fast" Example.idle = 1.
Proof.
  destruct (batch_size_from_environment "8" Example.idle) as (H8 & _ & _).
  destruct (batch_size_from_environment "0" Example.idle) as (_ & H0 & _).
  destruct (batch_size_from_environment "fast" Example.idle) as (_ & Hf & _).
  split; [|split].
  - rewrite H8; [reflexivity|]. vm_compute. reflexivity.
  - apply H0. vm_compute. reflexivity.
  - apply Hf. vm_compute. reflexivity.
Defined.

Lemma get_iterator_lock_witness :
  assoc_get_iterator NULL Example.idle = Some (NULL, Example.idle) ∧
  ∃ g', assoc_get_iterator 50 Example.idle = Some (50, g') ∧
        maintenance_lock g' = true.
Proof.
  destruct (get_iterator_lock NULL Example.idle) as (Hnull & _).
  destruct (get_iterator_lock 50 Example.idle) as (_ & _ & Hheld & Hopen & _).
  split; [exact (Hnull eq_refl)|].
  assert (Hn : 50 ≠ NULL) by (vm_compute; discriminate).
  destruct (Hopen Hn eq_refl) as (g' & Hg').
  exists g'. split; [exact Hg'|].
  exact (proj1 (proj2 (proj2 (Hheld 50 g' Hg' Hn)))).
Defined.

(** * The later theorems at work on the example tables *)

Lemma before_points_to_found_witness :
  0 ≤ 100 < 2 ^ 32 ∧ 0 ≤ hashpower Example.stable < 2 ^ 32 ∧
  _hashitem_before Example.stable Example.key_d 1 100 ≫= load Example.stable
  = Some 103.
Proof.
  assert (H1 : 0 ≤ 100 < 2 ^ 32) by lia.
  assert (H2 : 0 ≤ hashpower Example.stable < 2 ^ 32) by (simpl; lia).
  split; [exact H1|]. split; [exact H2|].
  rewrite (before_points_to_found Example.stable Example.key_d 1 100 H1 H2).
  vm_compute. reflexivity.
Defined.

Lemma delete_asserts_iff_not_found_witness :
  0 ≤ 99 < 2 ^ 32 ∧ 0 ≤ hashpower Example.stable < 2 ^ 32 ∧
  assoc_delete Example.stable Example.key_c 1 99 = Some AssertFailed.
Proof.
  assert (H1 : 0 ≤ 99 < 2 ^ 32) by lia.
  assert (H2 : 0 ≤ hashpower Example.stable < 2 ^ 32) by (simpl; lia).
  split; [exact H1|]. split; [exact H2|].
  destruct (delete_asserts_iff_not_found Example.stable Example.key_c 1 99 H1 H2)
    as (Hiff & _).
  apply Hiff. vm_compute. reflexivity.
Defined.

Lemma insert_then_delete_restores_witness :
  shape Example.stable ∧ 0 ≤ 99 < 2 ^ 32 ∧ 102 ≠ NULL ∧
  items Example.stable !! 102 = Some (Item 1 Example.key_c NULL) ∧
  ∃ s1, assoc_insert Example.stable 102 99 = Some s1 ∧
        assoc_find s1 Example.key_c 1 99 = Some 102 ∧
        assoc_delete s1 Example.key_c 1 99 = Some (Removed Example.stable).
Proof.
  assert (Hsh : shape Example.stable) by compute_done.
  assert (H1 : 0 ≤ 99 < 2 ^ 32) by lia.
  assert (Hn : 102 ≠ NULL) by (vm_compute; discriminate).
  assert (Hi : items Example.stable !! 102 = Some (Item 1 Example.key_c NULL))
    by (vm_compute; reflexivity).
  do 4 (split; [assumption|]).
  destruct (insert_then_delete_restores Example.stable 102 _ 99 Hsh H1 Hn Hi)
    as (s1 & Hins & Hfind & _ & Hdel).
  exists s1. split; [exact Hins|]. split; [exact Hfind|]. exact (Hdel eq_refl).
Defined.

Lemma duplicate_key_shadows_witness :
  wf Example.hash Cases.twins ∧ 104 ≠ NULL ∧
  items Cases.twins !! 104 = Some (Item 1 Example.key_d NULL) ∧
  (104 ∉ linked Cases.twins) ∧ 103 ∈ linked Cases.twins ∧
  matchb (items Cases.twins) Example.key_d 1 103 = true ∧
  ∃ s1 s2, assoc_insert Cases.twins 104 100 = Some s1 ∧
           assoc_find s1 Example.key_d 1 100 = Some 104 ∧
           assoc_delete s1 Example.key_d 1 100 = Some (Removed s2) ∧
           assoc_find s2 Example.key_d 1 100 = Some 103.
Proof.
  assert (Hw : wf Example.hash Cases.twins) by compute_done.
  assert (Hn : 104 ≠ NULL) by (vm_compute; discriminate).
  assert (Hi : items Cases.twins !! 104 = Some (Item 1 Example.key_d NULL))
    by (vm_compute; reflexivity).
  assert (Hfresh : 104 ∉ linked Cases.twins) by compute_done.
  assert (Hq : 103 ∈ linked Cases.twins) by compute_done.
  assert (Hm : matchb (items Cases.twins) Example.key_d 1 103 = true)
    by (vm_compute; reflexivity).
  do 6 (split; [assumption|]).
  destruct (duplicate_key_shadows Example.hash Cases.twins 104 103 _
              Hw Hn Hi Hfresh Hq Hm)
    as (s1 & s2 & Hins & Hfind & Hdel & Hfind2 & _).
  exists s1, s2. split; [exact Hins|]. split; [exact Hfind|].
  split; [exact Hdel|exact Hfind2].
Defined.

Lemma lookup_sound_and_complete_witness :
  wf Example.hash Example.stable ∧
  assoc_delete Example.stable Example.key_c 1 99 = Some AssertFailed.
Proof.
  assert (Hw : wf Example.hash Example.stable) by compute_done.
  split; [exact Hw|].
  destruct (lookup_sound_and_complete Example.hash Example.stable Example.key_c 1 Hw)
    as [_ Hdel].
  apply Hdel. apply Forall_forall. compute_done.
Defined.

Lemma wrong_hash_misses_witness :
  wf Example.hash Example.stable ∧ 0 ≤ 101 < 2 ^ 32 ∧
  bucket_slot Example.stable 101
  ≠ bucket_slot Example.stable (hash32 Example.hash Example.key_d 1) ∧
  assoc_find Example.stable Example.key_d 1 100 = Some 103 ∧
  assoc_find Example.stable Example.key_d 1 101 = Some NULL.
Proof.
  assert (Hw : wf Example.hash Example.stable) by compute_done.
  assert (H1 : 0 ≤ 101 < 2 ^ 32) by lia.
  assert (Hne : bucket_slot Example.stable 101
                ≠ bucket_slot Example.stable (hash32 Example.hash Example.key_d 1))
    by (vm_compute; discriminate).
  do 3 (split; [assumption|]). split; [vm_compute; reflexivity|].
  exact (wrong_hash_misses Example.hash Example.stable Example.key_d 1 101 Hw H1 Hne).
Defined.

Lemma operation_changes_one_item_witness :
  wf Example.hash Example.stable ∧
  allowed Example.stable (OpInsert 102) ∧
  ∃ s1, run_op Example.hash Example.stable (OpInsert 102) = Some s1 ∧
        linked s1 ≡ₚ 102 :: linked Example.stable.
Proof.
  assert (Hw : wf Example.hash Example.stable) by compute_done.
  assert (Hal : allowed Example.stable (OpInsert 102)).
  { split; [vm_compute; discriminate|]. split; [compute_done|].
    exists (Item 1 Example.key_c NULL). split; [vm_compute; reflexivity|].
    apply Forall_forall. compute_done. }
  split; [exact Hw|]. split; [exact Hal|].
  destruct (run_op Example.hash Example.stable (OpInsert 102)) as [s1|] eqn:Hrun;
    [|vm_compute in Hrun; discriminate].
  exists s1. split; [reflexivity|].
  exact (proj2 (operation_changes_one_item Example.hash Example.stable
                  (OpInsert 102) s1 Hw Hal Hrun)).
Defined.

Lemma history_item_count_witness :
  wf Example.hash Example.stable ∧
  ∃ s1, runs Example.hash Example.stable [OpInsert 102] s1 ∧
        Z.of_nat (length (linked s1)) = 4.
Proof.
  assert (Hw : wf Example.hash Example.stable) by compute_done.
  split; [exact Hw|].
  destruct (run_op Example.hash Example.stable (OpInsert 102)) as [s1|] eqn:Hr1;
    [|vm_compute in Hr1; discriminate].
  assert (Hal1 : allowed Example.stable (OpInsert 102)).
  { split; [vm_compute; discriminate|]. split; [compute_done|].
    exists (Item 1 Example.key_c NULL). split; [vm_compute; reflexivity|].
    apply Forall_forall. compute_done. }
  assert (Hruns : runs Example.hash Example.stable [OpInsert 102] s1).
  { eapply runs_cons; [exact Hal1|exact Hr1|]. apply runs_nil. }
  exists s1. split; [exact Hruns|].
  rewrite (history_item_count Example.hash Example.stable _ s1 Hw Hruns).
  vm_compute. reflexivity.
Defined.

Lemma other_lookups_unchanged_witness :
  wf Example.hash Example.stable ∧
  allowed Example.stable (OpInsert 102) ∧
  ¬ concerns Example.stable Example.key_d 1 (OpInsert 102) ∧
  ∃ s1, run_op Example.hash Example.stable (OpInsert 102) = Some s1 ∧
        assoc_find s1 Example.key_d 1 (hash32 Example.hash Example.key_d 1)
        = Some 103.
Proof.
  assert (Hw : wf Example.hash Example.stable) by compute_done.
  assert (Hal : allowed Example.stable (OpInsert 102)).
  { split; [vm_compute; discriminate|]. split; [compute_done|].
    exists (Item 1 Example.key_c NULL). split; [vm_compute; reflexivity|].
    apply Forall_forall. compute_done. }
  assert (Hnc : ¬ concerns Example.stable Example.key_d 1 (OpInsert 102))
    by (vm_compute; discriminate).
  do 3 (split; [assumption|]).
  destruct (run_op Example.hash Example.stable (OpInsert 102)) as [s1|] eqn:Hrun;
    [|vm_compute in Hrun; discriminate].
  exists s1. split; [reflexivity|].
  rewrite (other_lookups_unchanged Example.hash Example.stable (OpInsert 102) s1
             Example.key_d 1 Hw Hal Hrun Hnc).
  vm_compute. reflexivity.
Defined.

Lemma reachable_tables_well_formed_witness :
  0 ≤ (if decide (1 ≠ 0) then u32 1 else 16) ≤ 63 ∧
  assoc_init 1 10 (boot 16 Example.heap) = Some Cases.fresh ∧
  ∃ s', runs Example.hash Cases.fresh [OpInsert 103] s' ∧
        wf Example.hash s' ∧ Z.of_nat (length (linked s')) = 1.
Proof.
  assert (H0 : 0 ≤ (if decide (1 ≠ 0) then u32 1 else 16) ≤ 63)
    by (vm_compute; split; discriminate).
  assert (Hinit : assoc_init 1 10 (boot 16 Example.heap) = Some Cases.fresh)
    by (vm_compute; reflexivity).
  split; [exact H0|]. split; [exact Hinit|].
  destruct (run_op Example.hash Cases.fresh (OpInsert 103)) as [s1|] eqn:Hr1;
    [|vm_compute in Hr1; discriminate].
  assert (Hal1 : allowed Cases.fresh (OpInsert 103)).
  { split; [vm_compute; discriminate|]. split; [compute_done|].
    exists (Item 1 Example.key_d NULL). split; [vm_compute; reflexivity|].
    apply Forall_forall. compute_done. }
  assert (Hruns : runs Example.hash Cases.fresh [OpInsert 103] s1).
  { eapply runs_cons; [exact Hal1|exact Hr1|]. apply runs_nil. }
  destruct (reachable_tables_well_formed Example.hash 16 1 10 Example.heap _
              Cases.fresh s1 H0 Hinit Hruns)
    as (Hwf & _ & _ & _ & Hcount).
  exists s1. split; [exact Hruns|]. split; [exact Hwf|].
  rewrite Hcount. reflexivity.
Defined.

Lemma init_gives_empty_table_witness :
  0 ≤ (if decide (1 ≠ 0) then u32 1 else 16) ≤ 63 ∧
  assoc_init 1 NULL (boot 16 Example.heap) = None ∧
  ∃ s, assoc_init 1 10 (boot 16 Example.heap) = Some s ∧
       hashpower s = 1 ∧ linked s = [] ∧
       assoc_find s Example.key_a 1 97 = Some NULL.
Proof.
  assert (H0 : 0 ≤ (if decide (1 ≠ 0) then u32 1 else 16) ≤ 63)
    by (vm_compute; split; discriminate).
  split; [exact H0|].
  destruct (init_gives_empty_table Example.hash 16 1 NULL Example.heap H0)
    as [Hfail _].
  split; [exact (Hfail eq_refl)|].
  destruct (init_gives_empty_table Example.hash 16 1 10 Example.heap H0)
    as [_ Hok].
  assert (Hn : 10 ≠ NULL) by (vm_compute; discriminate).
  destruct (Hok Hn) as (s & Hinit & Hhp & _ & _ & _ & _ & _ & Hl & Hfind).
  exists s. split; [exact Hinit|]. split; [exact Hhp|]. split; [exact Hl|].
  assert (H97 : 0 ≤ 97 < 2 ^ 32) by lia.
  exact (proj1 (Hfind Example.key_a 1 97 H97)).
Defined.

Lemma migration_splits_bucket_witness :
  wf Example.hash Example.growing ∧ expanding Example.growing = true ∧
  view Example.growing = Some ([[]; []; []; []], [[101; 103]; [100]]) ∧
  ∃ m P', migrate_bucket Example.hash Example.growing = Some m ∧
          view m = Some (P', [[]; [100]]) ∧
          P' !! 0%nat = Some [103] ∧ P' !! 2%nat = Some [101] ∧
          P' !! 1%nat = Some [].
Proof.
  assert (Hw : wf Example.hash Example.growing) by compute_done.
  assert (Hv : view Example.growing = Some ([[]; []; []; []], [[101; 103]; [100]]))
    by (vm_compute; reflexivity).
  split; [exact Hw|]. split; [reflexivity|]. split; [exact Hv|].
  destruct (migration_splits_bucket Example.hash Example.growing _ _ Hw eq_refl Hv)
    as (l & m & P' & Hl & Hmig & Hview & _ & Htwo & Hothers).
  assert (l = [101; 103]) as -> by (vm_compute in Hl; by injection Hl).
  exists m, P'. split; [exact Hmig|]. split; [exact Hview|].
  split; [|split].
  - destruct (Htwo 0%nat) as [_ ->]; [left; reflexivity|]. vm_compute. reflexivity.
  - destruct (Htwo 2%nat) as [_ ->]; [right; reflexivity|]. vm_compute. reflexivity.
  - rewrite (Hothers 1%nat); [reflexivity|vm_compute; discriminate..].
Defined.

Lemma migration_round_progress_witness :
  wf Example.hash Example.growing ∧ remaining Example.growing = 2 ∧
  ∃ s', maintenance_round Example.hash (λ ii, bool_decide (ii ≠ 1)) 3
          Example.growing = Some s' ∧
        remaining s' = 0 ∧ expanding s' = false.
Proof.
  assert (Hw : wf Example.hash Example.growing) by compute_done.
  split; [exact Hw|]. split; [reflexivity|].
  destruct (migration_round_progress Example.hash (λ ii, bool_decide (ii ≠ 1)) 3
              Example.growing Hw)
    as (s' & Hrun & _ & _ & Hrem & Hiff & _).
  exists s'. split; [exact Hrun|].
  assert (Hr : remaining s' = 0) by (rewrite Hrem; vm_compute; reflexivity).
  split; [exact Hr|].
  destruct (expanding s'); [|reflexivity].
  assert (0 < remaining s') by (by apply Hiff). lia.
Defined.

Lemma migration_rounds_needed_witness :
  wf Example.hash Example.growing ∧
  ∃ s1 s2, maintenance_rounds Example.hash 1 1 Example.growing = Some s1 ∧
           expanding s1 = true ∧
           maintenance_rounds Example.hash 2 1 Example.growing = Some s2 ∧
           expanding s2 = false.
Proof.
  assert (Hw : wf Example.hash Example.growing) by compute_done.
  split; [exact Hw|].
  destruct (migration_rounds_needed Example.hash 1 1 Example.growing Hw)
    as (s1 & Hrun1 & _ & _ & _ & Hiff1).
  destruct (migration_rounds_needed Example.hash 1 2 Example.growing Hw)
    as (s2 & Hrun2 & _ & _ & _ & Hiff2).
  exists s1, s2. split; [exact Hrun1|]. split.
  - destruct (expanding s1); [reflexivity|].
    assert (Hle : remaining Example.growing ≤ Z.of_nat 1 * Z.max 0 1)
      by (by apply Hiff1).
    vm_compute in Hle. by exfalso.
  - split; [exact Hrun2|]. apply Hiff2. vm_compute. discriminate.
Defined.

Lemma negative_batch_stalls_witness :
  atoi "-3" < 0 ∧
  hash_bulk_move (start_assoc_maintenance_thread (Some "-3"%string) 0 Example.idle).2
  = -3 ∧
  maintenance_rounds Example.hash 5 (-3) Example.growing = Some Example.growing ∧
  atoi "99999999999999999999" < 0 ∧
  hash_bulk_move (start_assoc_maintenance_thread
                    (Some "99999999999999999999"%string) 0 Example.idle).2
  = -1 ∧
  maintenance_rounds Example.hash 5 (-1) Example.growing = Some Example.growing.
Proof.
  assert (Hneg : atoi "-3" < 0) by (vm_compute; reflexivity).
  assert (Hbig : atoi "99999999999999999999" < 0) by (vm_compute; reflexivity).
  split; [exact Hneg|].
  destruct (negative_batch_stalls Example.hash "-3" 0 Example.idle (λ _, true)
              Example.growing Hneg) as (Hb & _ & Hstall).
  split; [exact Hb|]. specialize (Hstall 5%nat). rewrite Hb in Hstall.
  split; [exact Hstall|]. split; [exact Hbig|].
  destruct (negative_batch_stalls Example.hash "99999999999999999999" 0
              Example.idle (λ _, true) Example.growing Hbig)
    as (Hb' & _ & Hstall').
  split; [exact Hb'|]. specialize (Hstall' 5%nat). rewrite Hb' in Hstall'.
  exact Hstall'.
Defined.

Lemma expansion_frees_old_array_witness :
  wf Example.hash Example.stable ∧ expanding Example.stable = false ∧
  hashpower Example.stable < 63 ∧ 20 ≠ NULL ∧
  arrays Example.stable !! 20 = None ∧ 1 ≤ 1 ∧
  ∃ s', expansion_cycle Example.hash 20 1 Example.stable = Some s' ∧
        old_hashtable s' = 10 ∧ arrays s' !! 10 = None ∧
        block_len s' 20 = Some 4.
Proof.
  assert (Hw : wf Example.hash Example.stable) by compute_done.
  assert (H63 : hashpower Example.stable < 63) by (simpl; lia).
  assert (Hn : 20 ≠ NULL) by (vm_compute; discriminate).
  assert (Hf : arrays Example.stable !! 20 = None) by (vm_compute; reflexivity).
  assert (Hb : 1 ≤ 1) by lia.
  split; [exact Hw|]. split; [reflexivity|]. do 4 (split; [assumption|]).
  destruct (expansion_frees_old_array Example.hash Example.stable 20 1
              Hw eq_refl H63 Hn Hf Hb)
    as (s' & Hrun & _ & _ & Hlen & Hold & Hfreed & _).
  exists s'. split; [exact Hrun|]. split; [exact Hold|]. split; [exact Hfreed|].
  exact Hlen.
Defined.

Lemma iterator_holds_maintenance_lock_witness :
  assoc_get_iterator 50 Example.idle = Some (50, Example.opened) ∧
  50 ≠ NULL ∧ iterators Example.idle !! 50 = None ∧
  assoc_start_expand 32 25 Example.idle = (true, Example.idle) ∧
  assoc_start_expand 32 25 Example.opened = (false, Example.opened) ∧
  ∃ g2, iterate_all 6 50 Example.opened = Some ([101; 103; 100], g2) ∧
        assoc_iterate_final 50 g2 = Some Example.idle.
Proof.
  assert (Hget : assoc_get_iterator 50 Example.idle = Some (50, Example.opened))
    by (vm_compute; reflexivity).
  assert (Hn : 50 ≠ NULL) by (vm_compute; discriminate).
  assert (Hf : iterators Example.idle !! 50 = None) by (vm_compute; reflexivity).
  do 3 (split; [assumption|]). split; [vm_compute; reflexivity|].
  destruct (iterator_holds_maintenance_lock 50 Example.idle 50 Example.opened
              Hget Hn Hf) as (Hbusy & _ & Hwalk).
  split; [exact (Hbusy 32 25)|].
  destruct (iterate_all 6 50 Example.opened) as [[visited g2]|] eqn:Hrun;
    [|vm_compute in Hrun; discriminate].
  destruct (Hwalk 6%nat visited g2 Hrun) as (_ & _ & _ & Hfinal & _).
  exists g2. split; [|exact Hfinal].
  vm_compute in Hrun. injection Hrun as <- <-. reflexivity.
Defined.

Lemma calls_are_defined_witness :
  wf Example.hash Example.growing ∧ 0 ≤ 7 < 2 ^ 32 ∧
  is_Some (assoc_find Example.growing Example.key_b 1 7) ∧
  is_Some (assoc_delete Example.growing Example.key_b 1 7) ∧
  is_Some (assoc_insert Example.growing 102 7).
Proof.
  assert (Hw : wf Example.hash Example.growing) by compute_done.
  assert (H1 : 0 ≤ 7 < 2 ^ 32) by lia.
  split; [exact Hw|]. split; [exact H1|].
  destruct (calls_are_defined Example.hash Example.growing Example.key_b 1 7 Hw H1)
    as ((r & Hr & _) & _ & Hdel & Hins).
  split; [by exists r|]. split; [exact Hdel|].
  apply (Hins 102 (Item 1 Example.key_c NULL)). vm_compute. reflexivity.
Defined.

Lemma iterate_deleting_empties_witness :
  wf Example.hash Example.stable ∧ expanding Example.stable = false ∧
  tab Example.opened = Example.stable ∧
  iterators Example.opened !! 50 = Some (Iterator 0 NULL NULL false) ∧
  ∃ g', iterate_deleting Example.hash 6 50 Example.opened
        = Some ([101; 103; 100], g') ∧
        linked (tab g') = [].
Proof.
  assert (Hw : wf Example.hash Example.stable) by compute_done.
  assert (Hit : iterators Example.opened !! 50 = Some (Iterator 0 NULL NULL false))
    by (vm_compute; reflexivity).
  do 2 (split; [done|]). split; [reflexivity|]. split; [exact Hit|].
  destruct (iterate_deleting_empties Example.hash Example.stable Example.opened 50
              Hw eq_refl eq_refl Hit) as (P & Hview & Hwalk).
  assert (HP : P = [[101; 103]; [100]]).
  { assert (Hv : view Example.stable = Some ([[101; 103]; [100]], []))
      by (vm_compute; reflexivity).
    rewrite Hv in Hview. by injection Hview. }
  subst P. destruct (Hwalk 6%nat) as (_ & g' & Hrun & _ & Hempty); [simpl; lia|].
  exists g'. split; [|exact Hempty]. rewrite Hrun. reflexivity.
Defined.

Lemma insert_links_at_head_witness :
  shape Example.stable ∧ 0 ≤ 99 < 2 ^ 32 ∧
  items Example.stable !! 102 = Some (Item 1 Example.key_c NULL) ∧
  ∃ s1, assoc_insert Example.stable 102 99 = Some s1 ∧
        arr_load s1 10 1 = Some 102 ∧
        items s1 !! 102 = Some (Item 1 Example.key_c 100).
Proof.
  assert (Hsh : shape Example.stable) by compute_done.
  assert (H1 : 0 ≤ 99 < 2 ^ 32) by lia.
  assert (Hi : items Example.stable !! 102 = Some (Item 1 Example.key_c NULL))
    by (vm_compute; reflexivity).
  do 3 (split; [assumption|]).
  destruct (insert_links_at_head Example.stable 102 _ 99 Hsh H1 Hi)
    as (a & b & head & s1 & Hslot & Hhead & Hins & Hnew & Hitem & _).
  assert (Hab : Bucket a b = Bucket 10 1) by (rewrite <- Hslot; vm_compute; reflexivity).
  injection Hab as -> ->.
  assert (head = 100) as ->.
  { assert (Hh : arr_load Example.stable 10 1 = Some 100) by (vm_compute; reflexivity).
    rewrite Hh in Hhead. by injection Hhead. }
  exists s1. split; [exact Hins|]. split; [exact Hnew|exact Hitem].
Defined.

Lemma history_hash_power_witness :
  wf Example.hash Example.stable ∧
  runs Example.hash Example.stable [OpExpand 20] Example.growing ∧
  hashpower Example.growing = 2 ∧
  block_len Example.growing (primary_hashtable Example.growing) = Some 4.
Proof.
  assert (Hw : wf Example.hash Example.stable) by compute_done.
  assert (Hal : allowed Example.stable (OpExpand 20)).
  { split; [reflexivity|]. split; [simpl; lia|]. right. vm_compute. reflexivity. }
  assert (Hruns : runs Example.hash Example.stable [OpExpand 20] Example.growing).
  { eapply runs_cons; [exact Hal|reflexivity|]. apply runs_nil. }
  split; [exact Hw|]. split; [exact Hruns|].
  destruct (history_hash_power Example.hash Example.stable _ _ Hw Hruns)
    as (Hhp & _ & Hlen).
  split; [rewrite Hhp; reflexivity|]. rewrite Hlen, Hhp. reflexivity.
Defined.

Lemma table_refines_map_witness :
  wf Example.hash Example.stable ∧
  contents Example.stable !! kid Example.key_d 1 = Some 103 ∧
  assoc_find Example.stable Example.key_c 1 (hash32 Example.hash Example.key_c 1)
  = Some NULL ∧
  ∃ s1, runs Example.hash Example.stable [OpInsert 102] s1 ∧
        assoc_find s1 Example.key_c 1 (hash32 Example.hash Example.key_c 1)
        = Some 102.
Proof.
  assert (Hw : wf Example.hash Example.stable) by compute_done.
  split; [exact Hw|].
  destruct (table_refines_map Example.hash Example.stable Hw)
    as (Hlook & Hfind & _ & Hhist).
  split; [|split].
  - apply Hlook. split; [compute_done|vm_compute; reflexivity].
  - rewrite Hfind. vm_compute. reflexivity.
  - destruct (run_op Example.hash Example.stable (OpInsert 102)) as [s1|] eqn:Hr1;
      [|vm_compute in Hr1; discriminate].
    assert (Hal1 : allowed Example.stable (OpInsert 102)).
    { split; [vm_compute; discriminate|]. split; [compute_done|].
      exists (Item 1 Example.key_c NULL). split; [vm_compute; reflexivity|].
      apply Forall_forall. compute_done. }
    assert (Hruns : runs Example.hash Example.stable [OpInsert 102] s1).
    { eapply runs_cons; [exact Hal1|exact Hr1|]. apply runs_nil. }
    exists s1. split; [exact Hruns|].
    rewrite (Hhist _ s1 Example.key_c 1 Hruns). vm_compute. reflexivity.
Defined.
